(** * Read path of the story endpoints (instagram/views/stories.py)

    A shallow embedding of [StoryListView], [StoryDetailView] and
    [StorySimilarView]: the cache-key derivation of the list endpoint, its
    read-through cache, the query sets the three views build, the filter
    backends and the pagination they are configured with.

    Conventions.
    - A Python [str] is the list of its code points ([pystr]); a [bytes]
      object is the list of its byte values.
    - An exception is a value of [exn]; a call that may raise returns a
      [result], and [let* x := c in k] propagates what [c] raises. *)

From Stdlib Require Import ZArith QArith Qround Qpower Lia Lqa Ascii String.
From Stdlib Require Import Permutation Sorted.
From stdpp Require Import gmap strings list sorting.

Local Open Scope Z_scope.

(** ** Python strings *)

Definition pystr := list Z.

(** A string literal of the development, as a Python [str]. *)
Definition str (s : string) : pystr :=
  map (fun a => Z.of_N (N_of_ascii a)) (list_ascii_of_string s).

(** The text of a [pystr] whose code points are all below 256, for use as a
    key of the cache store. *)
Definition to_string (s : pystr) : string :=
  string_of_list_ascii (map (fun c => ascii_of_N (Z.to_N c)) s).

(** A code point a decoded query string can hold: a Unicode scalar value
    (Django decodes the query string with [errors="replace"], which never
    yields a surrogate). *)
Definition scalar (c : Z) : Prop :=
  0 <= c < 0x110000 /\ ~ (0xd800 <= c <= 0xdfff).

Definition scalar_str (s : pystr) : Prop := Forall scalar s.

(** ** Comparison of strings, lists and tuples, as [sorted] uses it

    Python compares two sequences by looking for the first index at which
    they differ ([==]) and comparing the elements there ([<]); a proper
    prefix is smaller. *)

Class StrictTotal {A : Type} (ltb : A -> A -> bool) : Prop := {
  ltb_irrefl : forall x, ltb x x = false;
  ltb_trans : forall x y z, ltb x y = true -> ltb y z = true -> ltb x z = true;
  ltb_total : forall x y, x <> y -> ltb x y = true \/ ltb y x = true
}.

Section Sequences.
Context {A : Type} `{EqDecision A} (ltb : A -> A -> bool).

Fixpoint seq_ltb (l1 l2 : list A) : bool :=
  match l1, l2 with
  | [], [] => false
  | [], _ :: _ => true
  | _ :: _, [] => false
  | x :: l1', y :: l2' =>
      if bool_decide (x = y) then seq_ltb l1' l2' else ltb x y
  end.

Context `{!StrictTotal ltb}.

Lemma seq_ltb_irrefl l : seq_ltb l l = false.
Proof.
  induction l as [|x l IH]; simpl; [done|].
  by rewrite bool_decide_eq_true_2.
Qed.

Lemma seq_ltb_trans l1 l2 l3 :
  seq_ltb l1 l2 = true -> seq_ltb l2 l3 = true -> seq_ltb l1 l3 = true.
Proof.
  revert l2 l3.
  induction l1 as [|x l1 IH]; intros [|y l2] [|z l3]; simpl; try done.
  repeat case_bool_decide; subst; try done; try apply IH; try apply ltb_trans.
  intros H1 H2. pose proof (ltb_trans _ _ _ H1 H2) as H3.
  by rewrite ltb_irrefl in H3.
Qed.

Lemma seq_ltb_total l1 l2 :
  l1 <> l2 -> seq_ltb l1 l2 = true \/ seq_ltb l2 l1 = true.
Proof.
  revert l2.
  induction l1 as [|x l1 IH]; intros [|y l2] Hne; simpl; try done; auto.
  repeat case_bool_decide; subst; try done.
  - apply IH. congruence.
  - by apply ltb_total.
Qed.

#[export] Instance seq_strict_total : StrictTotal seq_ltb.
Proof.
  split; [apply seq_ltb_irrefl | apply seq_ltb_trans | apply seq_ltb_total].
Qed.
End Sequences.

#[export] Instance Z_strict_total : StrictTotal Z.ltb.
Proof. split; intros; lia. Qed.

(** [str < str]: by code point. *)
Definition str_ltb : pystr -> pystr -> bool := seq_ltb Z.ltb.

(** One item of [params.items()]: a key with the list of its values. *)
Definition item := (pystr * list pystr)%type.

(** [tuple < tuple] on the items. *)
Definition item_ltb (a b : item) : bool :=
  if bool_decide (a.1 = b.1) then seq_ltb str_ltb a.2 b.2
  else str_ltb a.1 b.1.

#[export] Instance item_strict_total : StrictTotal item_ltb.
Proof.
  split.
  - intros [k v]. unfold item_ltb; simpl.
    rewrite bool_decide_eq_true_2 by done. apply ltb_irrefl.
  - intros [k1 v1] [k2 v2] [k3 v3]. unfold item_ltb; simpl.
    repeat case_bool_decide; subst; try done; try apply ltb_trans.
    intros H1 H2. pose proof (ltb_trans (ltb := str_ltb) _ _ _ H1 H2) as H3.
    by rewrite (ltb_irrefl (ltb := str_ltb)) in H3.
  - intros [k1 v1] [k2 v2] Hne. unfold item_ltb; simpl.
    repeat case_bool_decide; subst; try done.
    + apply ltb_total. congruence.
    + by apply ltb_total.
Qed.

(** [not (b < a)], the order a stable sort by [<] produces. *)
Definition leb_of {A} (ltb : A -> A -> bool) (a b : A) : Prop := ltb b a = false.

Section LeOf.
Context {A : Type} `{EqDecision A} (ltb : A -> A -> bool) `{!StrictTotal ltb}.

#[export] Instance leb_of_dec a b : Decision (leb_of ltb a b).
Proof. unfold leb_of. apply _. Defined.

#[export] Instance leb_of_total : Total (leb_of ltb).
Proof.
  intros a b. unfold leb_of.
  destruct (ltb b a) eqn:E1; [|by left].
  destruct (ltb a b) eqn:E2; [|by right].
  pose proof (ltb_trans _ _ _ E1 E2) as H.
  by rewrite ltb_irrefl in H.
Qed.

#[export] Instance leb_of_trans : Transitive (leb_of ltb).
Proof.
  intros a b c. unfold leb_of. intros H1 H2.
  destruct (ltb c a) eqn:E; [|done].
  destruct (decide (b = c)) as [->|Hbc]; [congruence|].
  destruct (ltb_total b c Hbc) as [Hlt|Hlt]; [|congruence].
  pose proof (ltb_trans _ _ _ Hlt E). congruence.
Qed.

#[export] Instance leb_of_antisymm : AntiSymm (=) (leb_of ltb).
Proof.
  intros a b. unfold leb_of. intros H1 H2.
  destruct (decide (a = b)) as [|Hne]; [done|].
  destruct (ltb_total a b Hne); congruence.
Qed.
End LeOf.

(** [sorted(l)], for a list of items. *)
Definition sorted (l : list item) : list item := merge_sort (leb_of item_ltb) l.

(** ** [json.dumps], on the value the list view serialises

    [json.dumps(sorted(params.items()), sort_keys=True)] serialises a list of
    tuples [(key, [value, ...])]: a tuple and a list both become a JSON array
    with the item separator [", "], a [str] goes through
    [encode_basestring_ascii] ([ensure_ascii] is on by default), and
    [sort_keys] concerns dictionaries only, of which the value has none. *)

Module json.

Definition hexdigit (d : Z) : Z := if d <? 10 then 48 + d else 87 + d.

(** ['{0:04x}'.format(n)] for [0 <= n < 0x10000]. *)
Definition hex4 (n : Z) : pystr :=
  [hexdigit (n / 4096 mod 16); hexdigit (n / 256 mod 16);
   hexdigit (n / 16 mod 16); hexdigit (n mod 16)].

(** [\uXXXX] *)
Definition escape_u (n : Z) : pystr := [92; 117] ++ hex4 n.

(** What one character becomes: [ESCAPE_DCT] for the backslash, the double
    quote and the five named control characters, the character itself when
    it is printable ASCII (it does not match [ESCAPE_ASCII]), and otherwise
    [\uXXXX], through a surrogate pair above the basic plane. *)
Definition replace (c : Z) : pystr :=
  if c =? 92 then [92; 92]
  else if c =? 34 then [92; 34]
  else if c =? 8 then [92; 98]
  else if c =? 12 then [92; 102]
  else if c =? 10 then [92; 110]
  else if c =? 13 then [92; 114]
  else if c =? 9 then [92; 116]
  else if (32 <=? c) && (c <=? 126) then [c]
  else if c <? 0x10000 then escape_u c
  else
    let n := c - 0x10000 in
    let s1 := Z.lor 0xd800 (Z.land (Z.shiftr n 10) 0x3ff) in
    let s2 := Z.lor 0xdc00 (Z.land n 0x3ff) in
    escape_u s1 ++ escape_u s2.

Definition encode_basestring_ascii (s : pystr) : pystr :=
  34 :: concat (map replace s) ++ [34].

(** The items of an array after the first, and the closing bracket. *)
Definition dumps_rest {A} (enc : A -> pystr) (l : list A) : pystr :=
  concat (map (fun y => [44; 32] ++ enc y) l) ++ [93].

Definition dumps_list {A} (enc : A -> pystr) (l : list A) : pystr :=
  match l with
  | [] => [91; 93]
  | x :: xs => 91 :: enc x ++ dumps_rest enc xs
  end.

(** A tuple [(key, values)]. *)
Definition dumps_item (it : item) : pystr :=
  91 :: encode_basestring_ascii it.1 ++ [44; 32]
     ++ dumps_list encode_basestring_ascii it.2 ++ [93].

Definition dumps (l : list item) : pystr := dumps_list dumps_item l.

End json.

(** ** [hashlib.md5] (RFC 1321), on 32-bit words kept in [Z] *)

Module hashlib.

Definition w32 (x : Z) : Z := x mod 2 ^ 32.

Definition rotl (x n : Z) : Z :=
  w32 (Z.lor (Z.shiftl x n) (Z.shiftr x (32 - n))).

Definition not32 (x : Z) : Z := Z.lxor x 0xffffffff.

Definition K : list Z :=
  [0xd76aa478; 0xe8c7b756; 0x242070db; 0xc1bdceee;
   0xf57c0faf; 0x4787c62a; 0xa8304613; 0xfd469501;
   0x698098d8; 0x8b44f7af; 0xffff5bb1; 0x895cd7be;
   0x6b901122; 0xfd987193; 0xa679438e; 0x49b40821;
   0xf61e2562; 0xc040b340; 0x265e5a51; 0xe9b6c7aa;
   0xd62f105d; 0x02441453; 0xd8a1e681; 0xe7d3fbc8;
   0x21e1cde6; 0xc33707d6; 0xf4d50d87; 0x455a14ed;
   0xa9e3e905; 0xfcefa3f8; 0x676f02d9; 0x8d2a4c8a;
   0xfffa3942; 0x8771f681; 0x6d9d6122; 0xfde5380c;
   0xa4beea44; 0x4bdecfa9; 0xf6bb4b60; 0xbebfbc70;
   0x289b7ec6; 0xeaa127fa; 0xd4ef3085; 0x04881d05;
   0xd9d4d039; 0xe6db99e5; 0x1fa27cf8; 0xc4ac5665;
   0xf4292244; 0x432aff97; 0xab9423a7; 0xfc93a039;
   0x655b59c3; 0x8f0ccc92; 0xffeff47d; 0x85845dd1;
   0x6fa87e4f; 0xfe2ce6e0; 0xa3014314; 0x4e0811a1;
   0xf7537e82; 0xbd3af235; 0x2ad7d2bb; 0xeb86d391].

Definition S : list Z :=
  [7; 12; 17; 22; 7; 12; 17; 22; 7; 12; 17; 22; 7; 12; 17; 22;
   5; 9; 14; 20; 5; 9; 14; 20; 5; 9; 14; 20; 5; 9; 14; 20;
   4; 11; 16; 23; 4; 11; 16; 23; 4; 11; 16; 23; 4; 11; 16; 23;
   6; 10; 15; 21; 6; 10; 15; 21; 6; 10; 15; 21; 6; 10; 15; 21].

Definition state := (Z * Z * Z * Z)%type.

Definition init : state := (0x67452301, 0xefcdab89, 0x98badcfe, 0x10325476).

Definition at_ (l : list Z) (i : Z) : Z := nth (Z.to_nat i) l 0.

(** One of the 64 operations on the words [M] of a block. *)
Definition operation (M : list Z) (st : state) (i : Z) : state :=
  let '(a, b, c, d) := st in
  let '(f, g) :=
    if i <? 16 then (Z.lor (Z.land b c) (Z.land (not32 b) d), i)
    else if i <? 32 then
      (Z.lor (Z.land d b) (Z.land (not32 d) c), (5 * i + 1) mod 16)
    else if i <? 48 then (Z.lxor b (Z.lxor c d), (3 * i + 5) mod 16)
    else (Z.lxor c (Z.lor b (not32 d)), (7 * i) mod 16) in
  let f' := w32 (f + a + at_ K i + at_ M g) in
  (d, w32 (b + rotl f' (at_ S i)), b, c).

(** Little-endian words of a block of bytes. *)
Fixpoint words (bs : list Z) : list Z :=
  match bs with
  | b0 :: b1 :: b2 :: b3 :: r =>
      (b0 + 256 * b1 + 65536 * b2 + 16777216 * b3) :: words r
  | _ => []
  end.

Definition block (st : state) (bs : list Z) : state :=
  let M := words bs in
  let '(a, b, c, d) := st in
  let '(a', b', c', d') :=
    fold_left (operation M) (map Z.of_nat (seq 0 64)) st in
  (w32 (a + a'), w32 (b + b'), w32 (c + c'), w32 (d + d')).

(** The [n] low bytes of [x], least significant first. *)
Fixpoint le_bytes (n : nat) (x : Z) : list Z :=
  match n with
  | O => []
  | Datatypes.S n' => x mod 256 :: le_bytes n' (x / 256)
  end.

Definition pad (msg : list Z) : list Z :=
  let len := Z.of_nat (length msg) in
  msg ++ [128] ++ repeat 0 (Z.to_nat ((55 - len) mod 64))
      ++ le_bytes 8 ((8 * len) mod 2 ^ 64).

(** The padded message, block after block. *)
Fixpoint blocks (n : nat) (st : state) (bs : list Z) : state :=
  match n with
  | O => st
  | Datatypes.S n' => blocks n' (block st (firstn 64 bs)) (skipn 64 bs)
  end.

Definition md5 (msg : list Z) : list Z :=
  let p := pad msg in
  let '(a, b, c, d) := blocks (length p / 64)%nat init p in
  le_bytes 4 a ++ le_bytes 4 b ++ le_bytes 4 c ++ le_bytes 4 d.

Definition hex2 (b : Z) : pystr := [json.hexdigit (b / 16); json.hexdigit (b mod 16)].

Definition hexdigest (digest : list Z) : pystr := concat (map hex2 digest).

End hashlib.

(** [str.encode()]: UTF-8. *)
Definition encode_char (c : Z) : list Z :=
  if c <? 0x80 then [c]
  else if c <? 0x800 then [0xc0 + c / 64; 0x80 + c mod 64]
  else if c <? 0x10000 then
    [0xe0 + c / 4096; 0x80 + c / 64 mod 64; 0x80 + c mod 64]
  else
    [0xf0 + c / 262144; 0x80 + c / 4096 mod 64; 0x80 + c / 64 mod 64;
     0x80 + c mod 64].

Definition encode (s : pystr) : list Z := concat (map encode_char s).

(** ** [request.query_params]

    A [QueryDict] keeps, for each key, the list of the values it arrived
    with, in arrival order; the keys are in the order of their first
    arrival. [dict(request.query_params)] is that mapping, key to list. *)

Definition QueryDict := list item.

(** [MultiValueDict.appendlist] *)
Fixpoint appendlist (d : QueryDict) (k v : pystr) : QueryDict :=
  match d with
  | [] => [(k, [v])]
  | (k', vs) :: d' =>
      if bool_decide (k' = k) then (k', vs ++ [v]) :: d'
      else (k', vs) :: appendlist d' k v
  end.

(** The [QueryDict] of the decoded pairs of a query string. *)
Definition parse_qs (pairs : list (pystr * pystr)) : QueryDict :=
  fold_left (fun d kv => appendlist d kv.1 kv.2) pairs [].

(** [MultiValueDict.getlist] *)
Fixpoint getlist (d : QueryDict) (k : pystr) : list pystr :=
  match d with
  | [] => []
  | (k', vs) :: d' => if bool_decide (k' = k) then vs else getlist d' k
  end.

(** [query_params.get(k)]: the last value of the key, [None] without one. *)
Definition get (d : QueryDict) (k : pystr) : option pystr := last (getlist d k).

(** A Python dictionary has each key once. *)
Definition is_dict (d : list item) : Prop := NoDup d.*1.

(** ** The cache key of the list view (stories.py, lines 55-57) *)

(** [json.dumps(sorted(params.items()), sort_keys=True)], where
    [params = dict(request.query_params)] has the keys in the order in which
    they first arrived, each with the list of its values. *)
Definition params_key (params : list item) : pystr := json.dumps (sorted params).

(** [hashlib.md5(s.encode()).hexdigest()] *)
Definition md5_hexdigest (s : pystr) : pystr :=
  hashlib.hexdigest (hashlib.md5 (encode s)).

(** [f"story_list_{...}"] *)
Definition cache_key (params : list item) : pystr :=
  str "story_list_" ++ md5_hexdigest (params_key params).

(** ** Reading the serialisation back

    [unescape] reads one character of a JSON string back from the head of a
    text; on scalar values it is the inverse of [json.replace]. *)

Definition hexval (c : Z) : option Z :=
  if (48 <=? c) && (c <=? 57) then Some (c - 48)
  else if (97 <=? c) && (c <=? 102) then Some (c - 87)
  else None.

Definition unhex4 (t : pystr) : option (Z * pystr) :=
  match t with
  | a :: b :: c :: d :: r =>
      a' ← hexval a; b' ← hexval b; c' ← hexval c; d' ← hexval d;
      Some (4096 * a' + 256 * b' + 16 * c' + d', r)
  | _ => None
  end.

Definition unescape_u (t : pystr) : option (Z * pystr) :=
  match t with
  | a :: b :: r => if (a =? 92) && (b =? 117) then unhex4 r else None
  | _ => None
  end.

Definition named_escape (e : Z) : option Z :=
  if e =? 92 then Some 92
  else if e =? 34 then Some 34
  else if e =? 98 then Some 8
  else if e =? 102 then Some 12
  else if e =? 110 then Some 10
  else if e =? 114 then Some 13
  else if e =? 116 then Some 9
  else None.

Definition unescape (t : pystr) : option (Z * pystr) :=
  match t with
  | [] => None
  | c :: r =>
      if c =? 34 then None
      else if c =? 92 then
        match r with
        | [] => None
        | e :: r' =>
            if e =? 117 then
              '(n, r1) ← unhex4 r';
              if (0xd800 <=? n) && (n <=? 0xdbff) then
                '(m, r2) ← unescape_u r1;
                Some (0x10000 + (n - 0xd800) * 1024 + (m - 0xdc00), r2)
              else Some (n, r1)
            else c' ← named_escape e; Some (c', r')
        end
      else Some (c, r)
  end.

(** ** Exceptions *)

Inductive exn : Type :=
| Http404                  (* NotFound / Http404: a 404 response *)
| ValidationError          (* a rejected filter value: a 400 response *)
| DoesNotExist             (* Model.DoesNotExist *)
| MultipleObjectsReturned
| CacheError.              (* what the cache backend raises when it fails *)

Inductive result (A : Type) : Type :=
| Ok (a : A)
| Raise (e : exn).

Arguments Ok {A} a.
Arguments Raise {A} e.

Definition bind {A B} (c : result A) (k : A -> result B) : result B :=
  match c with
  | Ok a => k a
  | Raise e => Raise e
  end.

Notation "'let*' x ':=' c 'in' k" := (bind c (fun x => k))
  (at level 10, x pattern, c at level 100, k at level 200).

(** ** The models the views read

    Of a story and of a user, the fields on which the read path depends; the
    media descriptors and the profile counters are carried through the
    serialisers unchanged and are left out. *)

Record User := {
  uuid : Z;                (* the primary key: a UUID, as the number it is *)
  username : pystr;
  full_name : pystr;
  biography : pystr
}.

Record Story := {
  story_id : pystr;
  user : Z;                (* user_id: the owner's primary key *)
  created_at : Z;
  embedding : option (list Q)
}.

#[export] Instance Q_eq_dec : EqDecision Q.
Proof. solve_decision. Defined.

#[export] Instance Story_eq_dec : EqDecision Story.
Proof. solve_decision. Defined.

(** A row of [InstagramUser.history.model]; [h_uuid] is its [uuid] field. *)
Record HistoricalUser := {
  history_id : Z;
  h_uuid : Z
}.

Record Database := {
  stories : list Story;
  users : list User;
  user_history : list HistoricalUser
}.

(** The case folding of the ASCII letters. *)
Definition upper (c : Z) : Z := if (97 <=? c) && (c <=? 122) then c - 32 else c.

(** ** The datastore

    What the views leave to the database server and to the layer that talks
    to it, and what is taken of it here.
    - [ORDER BY key DESC] returns the rows in some order that is sorted by
      the key; nothing more is promised of it.
    - [L2Distance] is the distance operator of the vector extension; its
      result is a [float8].
    - [float8 x] is the [float8] that the server's arithmetic gives for the
      exact result [x]: rounding never turns the order of two results over,
      but it may make them equal.
    - [UPPER] is the upper-casing of the server, which [icontains] applies to
      the field and to the term; it depends on the locale of the database,
      of which only this is taken: an ASCII letter is folded like its
      capital, and nothing comes of nothing.
    - [UUIDField_to_python] reads the text of a key ([uuid.UUID]): [None] for
      a text that is no UUID. *)

Definition sorted_desc {A} (key : A -> Q) (l : list A) : Prop :=
  StronglySorted (fun a b => (key b <= key a)%Q) l.

Class Datastore := {
  order_by_desc : (Story -> Q) -> list Story -> list Story;
  order_by_desc_Permutation : forall key l, order_by_desc key l ≡ₚ l;
  order_by_desc_sorted : forall key l, sorted_desc key (order_by_desc key l);
  L2Distance : list Q -> list Q -> Q;
  float8 : Q -> Q;
  float8_monotone : forall x y, (x <= y)%Q -> (float8 x <= float8 y)%Q;
  UPPER : pystr -> pystr;
  UPPER_upper : forall s, UPPER (map upper s) = UPPER s;
  UPPER_nil : UPPER [] = [];
  UUIDField_to_python : pystr -> option Z
}.

(** [Story.objects.get(story_id=...)] *)
Definition Story_objects_get (db : Database) (sid : pystr) : result Story :=
  match filter (fun s => story_id s = sid) (stories db) with
  | [] => Raise DoesNotExist
  | [s] => Ok s
  | _ => Raise MultipleObjectsReturned
  end.

(** ** The annotated users (stories.py, lines 38-43, 76-81 and 124-129) *)

Record AnnotatedUser := {
  au_user : User;
  has_stories : bool;
  has_history : bool
}.

(** [Exists(Story.objects.filter(user=OuterRef("pk")))] and
    [Exists(InstagramUser.history.model.objects.filter(uuid=OuterRef("pk")))] *)
Definition annotate (db : Database) (u : User) : AnnotatedUser :=
  {| au_user := u;
     has_stories := bool_decide (Exists (fun s => user s = uuid u) (stories db));
     has_history :=
       bool_decide (Exists (fun h => h_uuid h = uuid u) (user_history db)) |}.

Definition annotated_users (db : Database) : list AnnotatedUser :=
  map (annotate db) (users db).

(** A serialised story: the story with its prefetched, annotated owner. *)
Record StoryData := {
  sd_story : Story;
  sd_user : option AnnotatedUser
}.

(** [Prefetch("user", queryset=annotated_users)], then the serialiser. *)
Definition serialize (db : Database) (s : Story) : StoryData :=
  {| sd_story := s;
     sd_user :=
       List.find (fun au => bool_decide (uuid (au_user au) = user s))
                 (annotated_users db) |}.

(** ** [filters.SearchFilter] with the view's [search_fields]

    The filter of rest_framework from 3.15 on: [get_search_terms] validates
    the search string as a [CharField] and hands it to [search_smart_split],
    which keeps a quoted phrase together. *)

(** What [str.strip] and the pattern [\s] take for white space. *)
Definition is_space (c : Z) : bool :=
  ((9 <=? c) && (c <=? 13)) || ((28 <=? c) && (c <=? 32))
  || (c =? 0x85) || (c =? 0xa0) || (c =? 0x1680)
  || ((0x2000 <=? c) && (c <=? 0x200a))
  || (c =? 0x2028) || (c =? 0x2029) || (c =? 0x202f) || (c =? 0x205f)
  || (c =? 0x3000).

Definition is_quote (c : Z) : bool := (c =? 34) || (c =? 39).

Definition is_comma (c : Z) : bool := c =? 44.

(** One more character of the piece that is being read. *)
Definition push (c : Z) (l : list pystr) : list pystr :=
  match l with
  | w :: ws => (c :: w) :: ws
  | [] => [[c]]
  end.

(** [s.split(sep)], for a separator of one character: the pieces between
    the separators, the empty ones too. *)
Fixpoint pieces (sep : Z -> bool) (s : pystr) : list pystr :=
  match s with
  | [] => [[]]
  | c :: s' => if sep c then [] :: pieces sep s' else push c (pieces sep s')
  end.

(** [s.lstrip(chars)], [s.rstrip(chars)], [s.strip(chars)] *)
Fixpoint lstrip (chars : Z -> bool) (s : pystr) : pystr :=
  match s with
  | c :: s' => if chars c then lstrip chars s' else s
  | [] => []
  end.

Definition rstrip (chars : Z -> bool) (s : pystr) : pystr :=
  rev (lstrip chars (rev s)).

Definition strip (chars : Z -> bool) (s : pystr) : pystr :=
  rstrip chars (lstrip chars s).

(** [s.replace(old, new)] for an [old] of two characters [a], [b]. *)
Fixpoint replace2 (a b : Z) (new : pystr) (s : pystr) : pystr :=
  match s with
  | x :: s' =>
      match s' with
      | y :: s'' =>
          if (x =? a) && (y =? b) then new ++ replace2 a b new s''
          else x :: replace2 a b new s'
      | [] => [x]
      end
  | [] => []
  end.

(** *** [django.utils.text.smart_split]

    The pattern of [smart_split] has two alternatives: a run of characters
    other than white space and quotes around one or more quoted strings, and
    a run of characters other than white space. A quoted string, in double
    or in single quotes, ends at the first quote of its kind that no
    backslash escapes; a backslash takes the next character with it, which
    may not be a line feed. *)

(** The length of the quoted string that [s] continues, the closing quote
    [q] counted; [None] when it is not closed. *)
Fixpoint closing (q : Z) (s : pystr) : option nat :=
  match s with
  | [] => None
  | c :: s' =>
      if c =? q then Some 1%nat
      else if c =? 92 then
        match s' with
        | [] => None
        | d :: s'' =>
            if d =? 10 then None else (fun n => S (S n)) <$> closing q s''
        end
      else S <$> closing q s'
  end.

(** Where the scan of [finditer] is: between two matches; in a match of the
    first alternative, outside its quoted strings ([quoted_before] says
    whether one was read already) or with [togo] characters of a quoted
    string to go; in a match of the second alternative. *)
Inductive scanning : Type :=
| Between
| Plain (quoted_before : bool)
| Quoted (togo : nat)
| NonSpace.

(** The matches from the state [st] on, the first of them the rest of the
    match that is being read. A quote that opens no closed string ends a match
    of the first alternative that has a quoted string, and otherwise lets the
    first alternative fail, so that the second one matches. *)
Fixpoint scan (st : scanning) (s : pystr) : list pystr :=
  match s with
  | [] => match st with Between => [] | _ => [[]] end
  | c :: s' =>
      match st with
      | Between =>
          if is_space c then scan Between s'
          else if is_quote c then
            match closing c s' with
            | Some n => push c (scan (Quoted n) s')
            | None => push c (scan NonSpace s')
            end
          else push c (scan (Plain false) s')
      | Plain quoted_before =>
          if is_space c then [] :: scan Between s'
          else if is_quote c then
            match closing c s' with
            | Some n => push c (scan (Quoted n) s')
            | None =>
                if quoted_before then [] :: push c (scan NonSpace s')
                else push c (scan NonSpace s')
            end
          else push c (scan (Plain quoted_before) s')
      | Quoted togo =>
          match togo with
          | S (S n) => push c (scan (Quoted (S n)) s')
          | _ => push c (scan (Plain true) s')
          end
      | NonSpace =>
          if is_space c then [] :: scan Between s'
          else push c (scan NonSpace s')
      end
  end.

Definition smart_split (text : pystr) : list pystr := scan Between text.

(** [django.utils.text.unescape_string_literal], on a text that starts and
    ends with the same quote. *)
Definition unescape_string_literal (s : pystr) : pystr :=
  match s with
  | quote :: s' =>
      replace2 92 92 [92] (replace2 92 quote [quote] (removelast s'))
  | [] => []
  end.

(** [term] starts with a quote, and [term[0] == term[-1]]. *)
Definition is_quoted (term : pystr) : bool :=
  match term with
  | c :: _ => is_quote c && bool_decide (last term = Some c)
  | [] => false
  end.

Definition nonempty (s : pystr) : bool :=
  match s with [] => false | _ => true end.

(** What [search_smart_split] makes of one match of [smart_split]: the
    commas at its ends are dropped; a quoted phrase is kept together, without
    its quotes; anything else is split at its commas, and of the pieces that
    are not empty the white space at the ends is dropped. *)
Definition sanitize (term : pystr) : list pystr :=
  let term := strip is_comma term in
  if is_quoted term then [unescape_string_literal term]
  else map (strip is_space) (List.filter nonempty (pieces is_comma term)).

(** [rest_framework.filters.search_smart_split] *)
Definition search_smart_split (search_terms : pystr) : list pystr :=
  flat_map sanitize (smart_split search_terms).

Definition is_surrogate (c : Z) : bool := (0xd800 <=? c) && (c <=? 0xdfff).

(** [SearchFilter.get_search_terms]: the value of [search], the empty string
    without one, validated by [CharField(trim_whitespace=False,
    allow_blank=True)], which refuses a null character and a surrogate, and
    split. *)
Definition get_search_terms (query_params : QueryDict) : result (list pystr) :=
  let value := default [] (get query_params (str "search")) in
  if existsb (fun c => c =? 0) value || existsb is_surrogate value
  then Raise ValidationError
  else Ok (search_smart_split value).

Fixpoint startswith (s p : pystr) : bool :=
  match p, s with
  | [], _ => true
  | _ :: _, [] => false
  | a :: p', b :: s' => (a =? b) && startswith s' p'
  end.

Fixpoint contains (s p : pystr) : bool :=
  startswith s p || match s with [] => false | _ :: s' => contains s' p end.

Section Filters.
Context `{Datastore}.

(** [field__icontains=term]: [UPPER(field) LIKE UPPER('%term%')], the
    wildcards of the term escaped: the upper-cased term occurs in the
    upper-cased field. *)
Definition icontains (field term : pystr) : bool :=
  contains (UPPER field) (UPPER term).

(** The owner of a story, as the join on [user_id] finds it. *)
Definition owner (db : Database) (s : Story) : option User :=
  List.find (fun u => bool_decide (uuid u = user s)) (users db).

(** [Q(user__username__icontains=t) | Q(user__full_name__icontains=t)
    | Q(user__biography__icontains=t)] *)
Definition matches_term (db : Database) (s : Story) (term : pystr) : bool :=
  match owner db s with
  | Some u =>
      icontains (username u) term || icontains (full_name u) term
      || icontains (biography u) term
  | None => false
  end.

(** [SearchFilter.filter_queryset]: without a term the query set is left as
    it is; with terms, every one of them has to match. *)
Definition search_filter (db : Database) (query_params : QueryDict)
    (qs : list Story) : result (list Story) :=
  let* search_terms := get_search_terms query_params in
  match search_terms with
  | [] => Ok qs
  | _ => Ok (List.filter (fun s => forallb (matches_term db s) search_terms) qs)
  end.

(** ** [DjangoFilterBackend] with [filterset_fields = ["user"]]

    The filter of a foreign key is a choice among the users: an empty value
    does not filter; any other value is read as a key and looked up, and one
    that is no key, or the key of no user, is not a valid choice: the backend
    raises the validation error. *)
Definition user_filter (db : Database) (query_params : QueryDict)
    (qs : list Story) : result (list Story) :=
  match get query_params (str "user") with
  | None | Some [] => Ok qs
  | Some v =>
      match UUIDField_to_python v with
      | Some key =>
          if bool_decide (Exists (fun u => uuid u = key) (users db))
          then Ok (List.filter (fun s => bool_decide (user s = key)) qs)
          else Raise ValidationError
      | None => Raise ValidationError
      end
  end.

End Filters.

(** ** Pagination (instagram/paginations.py) *)

(** [int(s)] on a decimal numeral with an optional sign. *)
Definition digit (c : Z) : option Z :=
  if (48 <=? c) && (c <=? 57) then Some (c - 48) else None.

Fixpoint digits (acc : Z) (s : pystr) : option Z :=
  match s with
  | [] => Some acc
  | c :: s' => d ← digit c; digits (10 * acc + d) s'
  end.

Definition int (s : pystr) : option Z :=
  match s with
  | [] => None
  | c :: s' =>
      if c =? 45 then match s' with [] => None | _ => Z.opp <$> digits 0 s' end
      else if c =? 43 then match s' with [] => None | _ => digits 0 s' end
      else digits 0 s
  end.

(** Modelled from the spec: the two pagination classes of
    instagram/paginations.py are not among the sources. Both have a default
    page size of 20 and a hard ceiling of 100; a [page_size] below 1 or not
    numeric falls back to the default. *)
Definition default_page_size : Z := 20.

(** Modelled from the spec: the ceiling of both pagination classes. *)
Definition max_page_size : Z := 100.

(** Modelled from the spec: the page size of a request, for both pagination
    classes; the last [page_size] of the query string counts. *)
Definition get_page_size (query_params : QueryDict) : Z :=
  match get query_params (str "page_size") with
  | Some s =>
      match int s with
      | Some n => if 1 <=? n then Z.min n max_page_size else default_page_size
      | None => default_page_size
      end
  | None => default_page_size
  end.

(** What a cursor token stands for. *)
Record Cursor := {
  c_offset : nat;
  c_reverse : bool;
  c_position : option Z
}.

Inductive Link : Type :=
| CursorLink (c : Cursor)
| PageLink (n : Z).

(** A page as the paginator answers it: [count] is only part of a numbered
    page. *)
Record Page (A : Type) := {
  p_count : option nat;
  p_next : option Link;
  p_previous : option Link;
  p_results : list A
}.

Arguments p_count {A} _.
Arguments p_next {A} _.
Arguments p_previous {A} _.
Arguments p_results {A} _.

Definition map_results {A B} (f : A -> B) (p : Page A) : Page B :=
  {| p_count := p_count p; p_next := p_next p; p_previous := p_previous p;
     p_results := map f (p_results p) |}.

Definition Payload := Page StoryData.

Definition created_key (s : Story) : Q := inject_Z (created_at s).

Section Paginators.
Context `{Datastore}.

(** The opaque cursor token of a request, decoded; [None] for a token that
    is not one. *)
Variable decode_cursor : pystr -> option Cursor.

(** Modelled from the spec: cursor pagination of the list endpoint, keyed on
    [created_at] descending. The rows after the cursor's position are taken
    from its offset on, one more than the page holds to learn whether a page
    follows; a link carries the position of the row the page ends on. *)
Definition StoryCursorPagination (qs : list Story) (query_params : QueryDict)
    : result (Page Story) :=
  let page_size := Z.to_nat (get_page_size query_params) in
  let* cursor :=
    match get query_params (str "cursor") with
    | None => Ok {| c_offset := 0; c_reverse := false; c_position := None |}
    | Some token =>
        match decode_cursor token with
        | Some c => Ok c
        | None => Raise Http404
        end
    end in
  let qs :=
    if c_reverse cursor then order_by_desc (fun s => - created_key s)%Q qs
    else order_by_desc created_key qs in
  let qs :=
    match c_position cursor with
    | Some p =>
        if c_reverse cursor then List.filter (fun s => p <? created_at s) qs
        else List.filter (fun s => created_at s <? p) qs
    | None => qs
    end in
  let fetched := firstn (page_size + 1) (skipn (c_offset cursor) qs) in
  let page := firstn page_size fetched in
  let has_following := bool_decide (length page < length fetched)%nat in
  let has_preceding :=
    bool_decide (is_Some (c_position cursor) \/ (0 < c_offset cursor)%nat) in
  let page := if c_reverse cursor then rev page else page in
  let has_next := if c_reverse cursor then has_preceding else has_following in
  let has_previous := if c_reverse cursor then has_following else has_preceding in
  Ok {| p_count := None;
        p_next :=
          if has_next then
            Some (CursorLink {| c_offset := 0; c_reverse := false;
                                c_position := created_at <$> last page |})
          else None;
        p_previous :=
          if has_previous then
            Some (CursorLink {| c_offset := 0; c_reverse := true;
                                c_position := created_at <$> head page |})
          else None;
        p_results := page |}.

(** Modelled from the spec: numbered pagination of the similar endpoint.
    Pages are numbered from 1; an empty result has the one, empty page 1; a
    page past the last one is reported, not clamped. *)
Definition StorySimilarPageNumberPagination (qs : list Story)
    (query_params : QueryDict) : result (Page Story) :=
  let page_size := get_page_size query_params in
  let count := Z.of_nat (length qs) in
  let num_pages := Z.max 1 ((count + page_size - 1) / page_size) in
  let* number :=
    match get query_params (str "page") with
    | None => Ok 1
    | Some s =>
        match int s with
        | Some n => if (1 <=? n) && (n <=? num_pages) then Ok n else Raise Http404
        | None => Raise Http404
        end
    end in
  Ok {| p_count := Some (length qs);
        p_next := if number <? num_pages then Some (PageLink (number + 1)) else None;
        p_previous := if 1 <? number then Some (PageLink (number - 1)) else None;
        p_results :=
          firstn (Z.to_nat page_size)
                 (skipn (Z.to_nat ((number - 1) * page_size)) qs) |}.

End Paginators.

(** ** The cache store

    An entry is live until it expires. The store may fail a call; whether it
    does is what the request meets, not something the view decides. *)

Record CacheEntry := {
  ce_value : Payload;
  ce_expires : Z
}.

Inductive Health : Type := Up | Down.

Definition cache_get (h : Health) (now : Z) (c : gmap string CacheEntry)
    (key : string) : result (option Payload) :=
  match h with
  | Down => Raise CacheError
  | Up =>
      Ok (match c !! key with
          | Some e => if now <? ce_expires e then Some (ce_value e) else None
          | None => None
          end)
  end.

Definition cache_set (h : Health) (now : Z) (c : gmap string CacheEntry)
    (key : string) (value : Payload) (timeout : Z)
    : result (gmap string CacheEntry) :=
  match h with
  | Down => Raise CacheError
  | Up => Ok (<[key := {| ce_value := value; ce_expires := now + timeout |}]> c)
  end.

(** What a request leaves behind: the cache, and how many times a response
    was computed from the datastore. *)
Record World := {
  cache : gmap string CacheEntry;
  computed : nat
}.

(** ** The views (instagram/views/stories.py) *)

Section Views.
Context `{Datastore}.
Variable decode_cursor : pystr -> option Cursor.

(** *** [StoryListView] *)

Definition StoryListView_get_queryset (db : Database) : list Story :=
  order_by_desc created_key (stories db).

(** [filter_backends = [SearchFilter, DjangoFilterBackend]] *)
Definition StoryListView_filter_queryset (db : Database)
    (query_params : QueryDict) (qs : list Story) : result (list Story) :=
  let* qs := search_filter db query_params qs in
  user_filter db query_params qs.

(** [super().list(request)]: [ListModelMixin.list]. *)
Definition ListModelMixin_list (db : Database) (query_params : QueryDict)
    : result Payload :=
  let* qs :=
    StoryListView_filter_queryset db query_params (StoryListView_get_queryset db) in
  let* page := StoryCursorPagination decode_cursor qs query_params in
  Ok (map_results (serialize db) page).

(** [StoryListView.list], lines 53-65. [on_get] and [on_set] say whether the
    store answers the two calls. *)
Definition StoryListView_list (db : Database) (now : Z) (on_get on_set : Health)
    (query_params : QueryDict) (w : World) : result Payload * World :=
  let params := query_params in
  let key := to_string (cache_key params) in
  match cache_get on_get now (cache w) key with
  | Raise e => (Raise e, w)
  | Ok (Some cached_response) => (Ok cached_response, w)
  | Ok None =>
      let w := {| cache := cache w; computed := S (computed w) |} in
      match ListModelMixin_list db query_params with
      | Raise e => (Raise e, w)
      | Ok data =>
          match cache_set on_set now (cache w) key data 30 with
          | Raise e => (Raise e, w)
          | Ok c => (Ok data, {| cache := c; computed := computed w |})
          end
      end
  end.

(** *** [StoryDetailView]: [get_object_or_404] on [lookup_field = "story_id"] *)
Definition StoryDetailView_retrieve (db : Database) (sid : pystr)
    : result StoryData :=
  match Story_objects_get db sid with
  | Ok s => Ok (serialize db s)
  | Raise DoesNotExist => Raise Http404
  | Raise e => Raise e
  end.

(** *** [StorySimilarView] *)

(** [1 - L2Distance("embedding", source)], of a row that has an embedding:
    a subtraction of the server, in [float8]. *)
Definition similarity_score (source : list Q) (s : Story) : Q :=
  match embedding s with
  | Some e => float8 (1 - L2Distance e source)
  | None => 0
  end.

(** [filter(embedding__isnull=False).exclude(story_id=story_id)] *)
Definition candidates (db : Database) (sid : pystr) : list Story :=
  filter (fun s => story_id s <> sid)
         (filter (fun s => is_Some (embedding s)) (stories db)).

(** [StorySimilarView.get_queryset], lines 109-142. *)
Definition StorySimilarView_get_queryset (db : Database) (sid : pystr)
    : result (list Story) :=
  match Story_objects_get db sid with
  | Raise DoesNotExist => Ok []
  | Raise e => Raise e
  | Ok source_story =>
      match embedding source_story with
      | None => Ok []
      | Some source =>
          Ok (order_by_desc (similarity_score source) (candidates db sid))
      end
  end.

(** [StorySimilarView.get]: the list of the query set, paginated. *)
Definition StorySimilarView_get (db : Database) (sid : pystr)
    (query_params : QueryDict) : result Payload :=
  let* qs := StorySimilarView_get_queryset db sid in
  let* page := StorySimilarPageNumberPagination qs query_params in
  Ok (map_results (serialize db) page).

End Views.

(** ** The arithmetic of a server: [float8] (IEEE 754 binary64)

    The result of an operation is the exact result, rounded to the nearest
    number of the format, to the one with an even last place when two are as
    near. *)

Module binary64.

(** [2 ^ k] *)
Definition pow2 (k : Z) : Q := (2 ^ k)%Q.

(** The integer nearest to [q], the even one of two that are as near. *)
Definition nearest_even (q : Q) : Z :=
  let f := Qfloor q in
  match (q - inject_Z f ?= 1 # 2)%Q with
  | Lt => f
  | Gt => f + 1
  | Eq => if Z.even f then f else f + 1
  end.

(** The multiple of [2 ^ k] nearest to [x]. *)
Definition to_grid (k : Z) (x : Q) : Q :=
  (inject_Z (nearest_even (x / pow2 k)) * pow2 k)%Q.

(** The exponent [b] with [2 ^ b <= x < 2 ^ (b + 1)], of a positive [x]. *)
Definition binade (x : Q) : Z :=
  let b := Z.log2 (Qnum x) - Z.log2 (Zpos (Qden x)) in
  if Qle_bool (pow2 b) x then b else b - 1.

(** The exponent of the last place of a positive [x]: 53 bits of precision,
    and the fixed spacing [2 ^ -1074] of the subnormal numbers below
    [2 ^ -1022]. *)
Definition ulp_exponent (x : Q) : Z := Z.max (binade x) (-1022) - 52.

(** Rounding to the nearest [float8], ties to even. The range is not
    bounded above here: a result beyond the largest finite number, which the
    datastore reports as an overflow, is not modelled. *)
Definition round (x : Q) : Q :=
  match Qnum x with
  | Z0 => 0%Q
  | Zpos _ => to_grid (ulp_exponent x) x
  | Zneg _ => (- to_grid (ulp_exponent (- x)) (- x))%Q
  end.

(** The square root of a non-negative rational, correctly rounded. *)
Definition sqrt (x : Q) : Q :=
  match Qnum x with
  | Zpos _ =>
      let k := Z.max (binade x / 2) (-1022) - 52 in
      let m := Z.sqrt (Qfloor (x / (pow2 k * pow2 k))) in
      let half := ((inject_Z m + (1 # 2)) * pow2 k)%Q in
      match (x ?= half * half)%Q with
      | Lt => (inject_Z m * pow2 k)%Q
      | Gt => (inject_Z (m + 1) * pow2 k)%Q
      | Eq => (inject_Z (if Z.even m then m else m + 1) * pow2 k)%Q
      end
  | _ => 0%Q
  end.

End binary64.


Section Binary64.
Import binary64.

Lemma pow2_pos k : (0 < pow2 k)%Q.
Proof. apply Qpower_0_lt. reflexivity. Qed.

Lemma pow2_plus a b : (pow2 (a + b) == pow2 a * pow2 b)%Q.
Proof. apply Qpower_plus. discriminate. Qed.

Lemma pow2_le a b : a <= b -> (pow2 a <= pow2 b)%Q.
Proof. intros. apply Qpower_le_compat_l; [done|discriminate]. Qed.

Lemma pow2_lt_inv a b : (pow2 a < pow2 b)%Q -> a < b.
Proof. intros. by apply (Qpower_lt_compat_l_inv 2). Qed.

Lemma pow2_Z k : 0 <= k -> (pow2 k == inject_Z (2 ^ k))%Q.
Proof. intros. unfold pow2. by rewrite Zpower_Qpower. Qed.

Lemma nearest_even_bounds q :
  Qfloor q <= nearest_even q <= Qfloor q + 1.
Proof.
  unfold nearest_even. destruct (_ ?= _)%Q; [destruct (Z.even _)|..]; lia.
Qed.

Lemma nearest_even_mono x y :
  (x <= y)%Q -> nearest_even x <= nearest_even y.
Proof.
  intros Hxy. pose proof (Qfloor_resp_le _ _ Hxy) as Hf.
  destruct (Z.eq_dec (Qfloor x) (Qfloor y)) as [Heq|Hne].
  - unfold nearest_even. rewrite <- Heq.
    destruct (Qcompare_spec (x - inject_Z (Qfloor x)) (1 # 2)) as [Hx|Hx|Hx];
      destruct (Qcompare_spec (y - inject_Z (Qfloor x)) (1 # 2)) as [Hy|Hy|Hy];
      try (destruct (Z.even (Qfloor x))); try lia; exfalso; lra.
  - pose proof (nearest_even_bounds x). pose proof (nearest_even_bounds y). lia.
Qed.

Lemma nearest_even_Qeq x y : (x == y)%Q -> nearest_even x = nearest_even y.
Proof.
  intros Hxy. apply Z.le_antisymm; apply nearest_even_mono; lra.
Qed.

Lemma nearest_even_Z m : nearest_even (inject_Z m) = m.
Proof.
  unfold nearest_even. rewrite Qfloor_Z.
  assert ((inject_Z m - inject_Z m ?= 1 # 2)%Q = Lt) as ->; [|done].
  apply (proj1 (Qlt_alt _ _)). lra.
Qed.

Lemma to_grid_mono k x y : (x <= y)%Q -> (to_grid k x <= to_grid k y)%Q.
Proof.
  intros Hxy. unfold to_grid. pose proof (pow2_pos k) as Hk.
  apply Qmult_le_compat_r; [|lra].
  rewrite <- Zle_Qle. apply nearest_even_mono.
  apply Qmult_le_compat_r; [done|].
  apply Qlt_le_weak, Qinv_lt_0_compat, Hk.
Qed.

Lemma to_grid_pow2 k j : k <= j -> (to_grid k (pow2 j) == pow2 j)%Q.
Proof.
  intros Hkj. unfold to_grid. pose proof (pow2_pos k) as Hk.
  assert (pow2 j == inject_Z (2 ^ (j - k)) * pow2 k)%Q as Hj.
  { rewrite <- pow2_Z by lia. rewrite <- pow2_plus. by replace (j - k + k) with j by lia. }
  rewrite (nearest_even_Qeq _ (inject_Z (2 ^ (j - k)))).
  - by rewrite nearest_even_Z, Hj.
  - rewrite Hj. field. lra.
Qed.

Lemma to_grid_0 k : (to_grid k 0 == 0)%Q.
Proof.
  unfold to_grid. rewrite (nearest_even_Qeq _ (inject_Z 0)).
  - rewrite nearest_even_Z. change (inject_Z 0) with 0%Q. ring.
  - pose proof (pow2_pos k). field. lra.
Qed.

Lemma Q_of_num_den x : (x * inject_Z (Zpos (Qden x)) == inject_Z (Qnum x))%Q.
Proof. destruct x as [n d]. unfold Qeq, Qmult, inject_Z. simpl. lia. Qed.

Lemma binade_spec x :
  (0 < x)%Q -> (pow2 (binade x) <= x < pow2 (binade x + 1))%Q.
Proof.
  intros Hx. pose proof (Q_of_num_den x) as Hnd.
  set (n := Qnum x) in *. set (d := Zpos (Qden x)) in *.
  assert (0 < n) as Hn.
  { subst n. destruct x as [n' d']. unfold Qlt in Hx. simpl in *. lia. }
  assert (0 < d) as Hd by (subst d; lia).
  destruct (Z.log2_spec n Hn) as [Hn1 Hn2].
  destruct (Z.log2_spec d Hd) as [Hd1 Hd2].
  pose proof (Z.log2_nonneg n). pose proof (Z.log2_nonneg d).
  rewrite Zle_Qle, <- pow2_Z in Hn1, Hd1 by lia.
  rewrite Zlt_Qlt, <- pow2_Z in Hn2, Hd2 by lia.
  assert (0 < inject_Z d)%Q as HdQ by (rewrite <- (Zlt_Qlt 0); lia).
  unfold binade. fold n d. set (b := Z.log2 n - Z.log2 d).
  assert (x < pow2 (b + 1))%Q as Hup.
  { apply (Qmult_lt_r _ _ (inject_Z d)); [done|]. rewrite Hnd.
    eapply Qlt_le_trans; [apply Hn2|].
    replace (Z.succ (Z.log2 n)) with (b + 1 + Z.log2 d) by (subst b; lia).
    rewrite pow2_plus. apply Qmult_le_l; [apply pow2_pos|done]. }
  assert (pow2 (b - 1) <= x)%Q as Hlow.
  { apply (Qmult_le_r _ _ (inject_Z d)); [done|]. rewrite Hnd.
    eapply Qle_trans; [|apply Hn1].
    replace (Z.log2 n) with (b - 1 + Z.succ (Z.log2 d)) by (subst b; lia).
    rewrite pow2_plus. apply Qmult_le_l; [apply pow2_pos|]. lra. }
  destruct (Qle_bool (pow2 b) x) eqn:Hb.
  - apply Qle_bool_iff in Hb. by split.
  - split; [done|]. replace (b - 1 + 1) with b by lia.
    apply Qnot_le_lt. intros Hle. apply Qle_bool_iff in Hle. congruence.
Qed.

Lemma binade_mono x y : (0 < x)%Q -> (x <= y)%Q -> binade x <= binade y.
Proof.
  intros Hx Hxy.
  destruct (binade_spec x Hx) as [Hx1 _].
  destruct (binade_spec y) as [_ Hy2]; [lra|].
  assert (binade x < binade y + 1); [|lia].
  apply pow2_lt_inv. lra.
Qed.

Lemma round_positive_mono x y :
  (0 < x)%Q -> (x <= y)%Q ->
  (to_grid (ulp_exponent x) x <= to_grid (ulp_exponent y) y)%Q.
Proof.
  intros Hx Hxy. pose proof (binade_mono x y Hx Hxy) as Hb.
  destruct (Z.eq_dec (ulp_exponent x) (ulp_exponent y)) as [->|Hne].
  - by apply to_grid_mono.
  - unfold ulp_exponent in *.
    destruct (binade_spec x Hx) as [_ Hx2].
    destruct (binade_spec y) as [Hy1 _]; [lra|].
    pose proof (pow2_le (binade x + 1) (binade y) ltac:(lia)) as Hp.
    apply (Qle_trans _ (pow2 (binade y))).
    + rewrite <- (to_grid_pow2 (Z.max (binade x) (-1022) - 52) (binade y)) by lia.
      apply to_grid_mono. lra.
    + rewrite <- (to_grid_pow2 (Z.max (binade y) (-1022) - 52) (binade y)) at 1 by lia.
      by apply to_grid_mono.
Qed.

Lemma to_grid_nonneg k x : (0 <= x)%Q -> (0 <= to_grid k x)%Q.
Proof. intros. rewrite <- (to_grid_0 k). by apply to_grid_mono. Qed.

Lemma Qnum_sign x :
  match Qnum x with
  | Z0 => (x == 0)%Q
  | Zpos _ => (0 < x)%Q
  | Zneg _ => (x < 0)%Q
  end.
Proof. destruct x as [[|n|n] d]; unfold Qeq, Qlt; simpl; lia. Qed.

Lemma round_mono x y : (x <= y)%Q -> (round x <= round y)%Q.
Proof.
  intros Hxy. unfold round.
  pose proof (Qnum_sign x) as Hx. pose proof (Qnum_sign y) as Hy.
  destruct (Qnum x), (Qnum y); try lra.
  - apply to_grid_nonneg. lra.
  - by apply round_positive_mono.
  - assert (0 <= to_grid (ulp_exponent (- x)) (- x))%Q
      by (apply to_grid_nonneg; lra). lra.
  - assert (0 <= to_grid (ulp_exponent (- x)) (- x))%Q
      by (apply to_grid_nonneg; lra).
    assert (0 <= to_grid (ulp_exponent y) y)%Q
      by (apply to_grid_nonneg; lra). lra.
  - assert (to_grid (ulp_exponent (- y)) (- y)
            <= to_grid (ulp_exponent (- x)) (- x))%Q
      by (apply round_positive_mono; lra). lra.
Qed.

End Binary64.

(** ** The upper-casing of a server

    The letters of ASCII and of Latin-1 are folded, each to its capital
    ([towupper] in a UTF-8 locale that is not Turkic: the small sharp s has
    none; the capitals of the micro sign and of the y with diaeresis lie
    outside Latin-1); a server folds the letters of the other scripts as
    well, which the examples do not use. *)
Definition towupper (c : Z) : Z :=
  if (97 <=? c) && (c <=? 122) then c - 32
  else if (0xe0 <=? c) && (c <=? 0xfe) && negb (c =? 0xf7) then c - 32
  else if c =? 0xff then 0x178
  else if c =? 0xb5 then 0x39c
  else c.

Lemma towupper_upper s : map towupper (map upper s) = map towupper s.
Proof.
  rewrite map_map. apply map_ext. intros c. unfold upper.
  destruct ((97 <=? c) && (c <=? 122)) eqn:Hc; [|done].
  apply andb_true_iff in Hc as [H1%Z.leb_le H2%Z.leb_le].
  unfold towupper.
  repeat match goal with
  | |- context [?a <=? ?b] => destruct (Z.leb_spec a b); try lia
  | |- context [?a =? ?b] => destruct (Z.eqb_spec a b); try lia
  end; simpl; lia.
Qed.

(** ** Reading a key: [uuid.UUID(hex=...)] *)

Module uuidlib.

(** [s.replace(old, "")], for an [old] that is not empty; [skip] characters
    of an occurrence are still to be dropped. *)
Fixpoint remove_from (old : pystr) (skip : nat) (s : pystr) : pystr :=
  match s with
  | [] => []
  | c :: s' =>
      match skip with
      | S n => remove_from old n s'
      | O =>
          if startswith s old then remove_from old (length old - 1) s'
          else c :: remove_from old 0 s'
      end
  end.

Definition remove (old s : pystr) : pystr := remove_from old 0 s.

(** The first code point of each run of ten decimal digits (Unicode 14). *)
Definition zeros : list Z :=
  [0x30; 0x660; 0x6f0; 0x7c0; 0x966; 0x9e6; 0xa66; 0xae6; 0xb66; 0xbe6;
   0xc66; 0xce6; 0xd66; 0xde6; 0xe50; 0xed0; 0xf20; 0x1040; 0x1090; 0x17e0;
   0x1810; 0x1946; 0x19d0; 0x1a80; 0x1a90; 0x1b50; 0x1bb0; 0x1c40; 0x1c50;
   0xa620; 0xa8d0; 0xa900; 0xa9d0; 0xa9f0; 0xaa50; 0xabf0; 0xff10; 0x104a0;
   0x10d30; 0x11066; 0x110f0; 0x11136; 0x111d0; 0x112f0; 0x11450; 0x114d0;
   0x11650; 0x116c0; 0x11730; 0x118e0; 0x11950; 0x11c50; 0x11d50; 0x11da0;
   0x16a60; 0x16ac0; 0x16b50; 0x1d7ce; 0x1d7d8; 0x1d7e2; 0x1d7ec; 0x1d7f6;
   0x1e140; 0x1e2f0; 0x1e950; 0x1fbf0].

(** The value of a decimal digit of any script. *)
Definition decimal (c : Z) : option Z :=
  (fun z => c - z) <$> List.find (fun z => (z <=? c) && (c <=? z + 9)) zeros.

(** What [int] makes of a character before it reads the text: white space
    is a blank, a decimal digit is its ASCII digit, and any other character
    outside ASCII is one that no number holds. *)
Definition to_ascii (c : Z) : Z :=
  if c <? 128 then c
  else if is_space c then 32
  else match decimal c with Some d => 48 + d | None => 63 end.

(** The white space of ASCII. *)
Definition isspace (c : Z) : bool := ((9 <=? c) && (c <=? 13)) || (c =? 32).

Definition hexval (c : Z) : option Z :=
  if (48 <=? c) && (c <=? 57) then Some (c - 48)
  else if (97 <=? c) && (c <=? 102) then Some (c - 87)
  else if (65 <=? c) && (c <=? 70) then Some (c - 55)
  else None.

(** Hexadecimal digits, single underscores between them; [after_underscore]
    holds at the start as well, where no underscore may stand. *)
Fixpoint digits16 (after_underscore : bool) (acc : Z) (s : pystr) : option Z :=
  match s with
  | [] => if after_underscore then None else Some acc
  | c :: s' =>
      if c =? 95 then
        if after_underscore then None else digits16 true acc s'
      else d ← hexval c; digits16 false (16 * acc + d) s'
  end.

(** [int(s, 16)]: blanks around the number, a sign, the prefix [0x] and an
    underscore after it are read over. *)
Definition int16 (s : pystr) : option Z :=
  let s := strip isspace (map to_ascii s) in
  let '(negative, s) :=
    match s with
    | c :: s' => if c =? 43 then (false, s') else if c =? 45 then (true, s') else (false, s)
    | [] => (false, s)
    end in
  let s :=
    match s with
    | a :: b :: s' =>
        if (a =? 48) && ((b =? 120) || (b =? 88)) then
          match s' with
          | c :: s'' => if c =? 95 then s'' else s'
          | [] => s'
          end
        else s
    | _ => s
    end in
  n ← digits16 true 0 s; Some (if negative : bool then - n else n).

(** [uuid.UUID(hex)]: the prefixes [urn:] and [uuid:], the braces around and
    the hyphens are dropped; 32 characters have to remain, which [int] reads
    as a number below [2 ^ 128]. *)
Definition UUID (hex : pystr) : option Z :=
  let hex := remove (str "uuid:") (remove (str "urn:") hex) in
  let hex := strip (fun c => (c =? 123) || (c =? 125)) hex in
  let hex := List.filter (fun c => negb (c =? 45)) hex in
  if bool_decide (length hex = 32%nat) then
    n ← int16 hex; if (0 <=? n) && (n <? 2 ^ 128) then Some n else None
  else None.

End uuidlib.

(** ** Two datastores

    Both sort with a merge sort, one downwards and one upwards before it
    turns the rows over: they agree on everything [ORDER BY] promises, and
    not on the order of two rows with the same key. Their distance is the
    Euclidean distance, correctly rounded (the vector extension sums the
    squares in single precision, in an order of its own: its result may
    differ from this one in the last places). *)

Definition desc (key : Story -> Q) (a b : Story) : Prop := (key b <= key a)%Q.

#[export] Instance desc_dec key a b : Decision (desc key a b).
Proof.
  unfold desc. destruct (Qlt_le_dec (key a) (key b)) as [Hlt|Hle].
  - right. by apply Qlt_not_le.
  - by left.
Defined.

#[export] Instance desc_total key : Total (desc key).
Proof.
  intros a b. unfold desc.
  destruct (Qlt_le_dec (key a) (key b)) as [Hlt|Hle]; [right|left]; [|done].
  by apply Qlt_le_weak.
Qed.

#[export] Instance desc_trans key : Transitive (desc key).
Proof. intros a b c. unfold desc. intros H1 H2. by eapply Qle_trans. Qed.

(** The sum of the squares of the differences. *)
Fixpoint distance2 (a b : list Q) : Q :=
  match a, b with
  | x :: a', y :: b' => ((x - y) * (x - y) + distance2 a' b')%Q
  | _, _ => 0%Q
  end.

Definition l2_distance (a b : list Q) : Q := binary64.sqrt (distance2 a b).

Definition sort_stored : Datastore :=
  {| order_by_desc := fun key l => merge_sort (desc key) l;
     order_by_desc_Permutation := fun key l => merge_sort_Permutation (desc key) l;
     order_by_desc_sorted :=
       fun key l => StronglySorted_merge_sort (desc key) l;
     L2Distance := l2_distance;
     float8 := binary64.round;
     float8_monotone := round_mono;
     UPPER := map towupper;
     UPPER_upper := towupper_upper;
     UPPER_nil := eq_refl;
     UUIDField_to_python := uuidlib.UUID |}.

Definition asc (key : Story -> Q) (a b : Story) : Prop := (key a <= key b)%Q.

#[export] Instance asc_dec key a b : Decision (asc key a b).
Proof. unfold asc. apply desc_dec. Defined.

#[export] Instance asc_total key : Total (asc key).
Proof. intros a b. unfold asc. destruct (desc_total key a b); auto. Qed.

#[export] Instance asc_trans key : Transitive (asc key).
Proof. intros a b c. unfold asc. intros H1 H2. by eapply Qle_trans. Qed.

Lemma StronglySorted_rev {A} (R : relation A) l :
  StronglySorted R l -> StronglySorted (flip R) (rev l).
Proof.
  induction 1 as [|x l Hl IH Hx]; simpl; [constructor|].
  apply StronglySorted_app_2; [|done|repeat constructor].
  intros x1 x2 Hx1 ->%list_elem_of_singleton.
  rewrite Forall_forall in Hx. apply Hx.
  by apply list_elem_of_In, in_rev, list_elem_of_In.
Qed.

Lemma rev_merge_sort_Permutation key (l : list Story) :
  rev (merge_sort (asc key) l) ≡ₚ l.
Proof. rewrite <- Permutation_rev. apply merge_sort_Permutation. Qed.

Lemma rev_merge_sort_sorted key (l : list Story) :
  sorted_desc key (rev (merge_sort (asc key) l)).
Proof.
  apply (StronglySorted_rev (asc key)), StronglySorted_merge_sort; apply _.
Qed.

Definition sort_reversed : Datastore :=
  {| order_by_desc := fun key l => rev (merge_sort (asc key) l);
     order_by_desc_Permutation := rev_merge_sort_Permutation;
     order_by_desc_sorted := rev_merge_sort_sorted;
     L2Distance := l2_distance;
     float8 := binary64.round;
     float8_monotone := round_mono;
     UPPER := map towupper;
     UPPER_upper := towupper_upper;
     UPPER_nil := eq_refl;
     UUIDField_to_python := uuidlib.UUID |}.

(** ** What the properties speak of *)

(** An encoder is self-delimiting when the text it writes tells where it
    ends: what follows it cannot change what is read back. *)
Definition delimited {A} (P : A -> Prop) (enc : A -> pystr) : Prop :=
  forall x y r1 r2, P x -> P y -> enc x ++ r1 = enc y ++ r2 -> x = y /\ r1 = r2.

(** A value never starts with the closing bracket. *)
Definition opens_value {A} (P : A -> Prop) (enc : A -> pystr) : Prop :=
  forall x, P x -> exists c t, enc x = c :: t /\ c <> 93.

(** A parameter whose key and values are decoded text. *)
Definition item_ok (it : item) : Prop := scalar_str it.1 /\ Forall scalar_str it.2.

Definition byte (b : Z) : Prop := 0 <= b < 256.

Definition ascii_text (s : pystr) : Prop := Forall (fun c => 0 <= c < 128) s.

(** The entry under a key is live, or there is none that is. *)
Definition live (c : gmap string CacheEntry) (now : Z) (key : string)
    (v : Payload) : Prop :=
  exists e, c !! key = Some e /\ now < ce_expires e /\ ce_value e = v.

Definition no_live (c : gmap string CacheEntry) (now : Z) (key : string) : Prop :=
  forall e, c !! key = Some e -> ce_expires e <= now.

(** The empty page 1, as the numbered paginator answers it. *)
Definition empty_page : Payload :=
  {| p_count := Some 0%nat; p_next := None; p_previous := None; p_results := [] |}.

(** The request asks for the first page: it names none, or page 1. *)
Definition first_page (query_params : QueryDict) : Prop :=
  match get query_params (str "page") with
  | None => True
  | Some s => int s = Some 1
  end.

(** The flags of an annotated user say what the data hold. *)
Definition flags_current (db : Database) (au : AnnotatedUser) : Prop :=
  (has_stories au = true <->
     exists s, s ∈ stories db /\ user s = uuid (au_user au))
  /\ (has_history au = true <->
        exists h, h ∈ user_history db /\ h_uuid h = uuid (au_user au)).

(** One text occurs in another, as a run of consecutive characters. *)
Definition occurs_in (p s : pystr) : Prop := exists pre suf, s = pre ++ p ++ suf.

(** A character that separates two terms of a search string: white space,
    or a comma. *)
Definition separates (c : Z) : Prop := is_space c = true \/ c = 44.

(** A search string that the filter takes: without a null character and
    without a surrogate. *)
Definition searchable (search : pystr) : Prop :=
  Forall (fun c => c <> 0 /\ ~ (0xd800 <= c <= 0xdfff)) search.

(** A text without a quote of either kind. *)
Definition unquoted (s : pystr) : Prop := Forall (fun c => c <> 34 /\ c <> 39) s.


(** The runs of characters of [s] that are not separators, from left to
    right; the first one is the rest of the run that is being read when
    [inside] is set. *)
Fixpoint words_from (sep : Z -> bool) (inside : bool) (s : pystr) : list pystr :=
  match s with
  | [] => if inside then [[]] else []
  | c :: s' =>
      if sep c then
        if inside then [] :: words_from sep false s' else words_from sep false s'
      else push c (words_from sep true s')
  end.

Definition words (sep : Z -> bool) (s : pystr) : list pystr :=
  words_from sep false s.

Definition is_separator (c : Z) : bool := is_space c || is_comma c.


Section Matching.
Context `{Datastore}.

(** The term is, whatever the case of its letters, a substring of the user
    name, of the full name or of the biography of the owner of the story:
    upper-cased by the server, it occurs in one of the three, upper-cased by
    the server. *)
Definition owner_matches (db : Database) (s : Story) (term : pystr) : Prop :=
  exists u,
    owner db s = Some u
    /\ (occurs_in (UPPER term) (UPPER (username u))
        \/ occurs_in (UPPER term) (UPPER (full_name u))
        \/ occurs_in (UPPER term) (UPPER (biography u))).

End Matching.

(** ** A small archive, for the examples *)

Definition mk_user (key : Z) (name full bio : string) : User :=
  {| uuid := key; username := str name; full_name := str full;
     biography := str bio |}.

Definition mk_story (id : string) (owner : Z) (at_ : Z) (e : option (list Q))
    : Story :=
  {| story_id := str id; user := owner; created_at := at_; embedding := e |}.

(** The keys of the users are the UUIDs [00000000-0000-0000-0000-00000000000n]. *)
Definition johndoe : User := mk_user 1 "johndoe" "John Doe" "I love photography".
Definition janedoe : User := mk_user 2 "janedoe" "Jane Doe" "Photography enthusiast".
Definition alice : User := mk_user 3 "alice" "Alice Liddell" "Food blogger".
Definition testuser : User := mk_user 4 "TestUser" "Test User" "".
Definition john : User := mk_user 5 "john" "A. Smith" "".

Definition s101 : Story := mk_story "101" 1 10 (Some [0%Q; 0%Q]).
Definition s102 : Story := mk_story "102" 2 20 (Some [1%Q; 0%Q]).
Definition s103 : Story := mk_story "103" 3 30 (Some [0%Q; 1%Q]).
Definition s104 : Story := mk_story "104" 4 40 None.
Definition s105 : Story := mk_story "105" 5 50 (Some [3%Q; 4%Q]).

Definition archive : Database :=
  {| stories := [s101; s102; s103; s104; s105];
     users := [johndoe; janedoe; alice; testuser; john];
     user_history := [] |}.

(** Three stories of [johndoe], two of them very near the first. *)
Definition near_story : Story := mk_story "202" 1 20 (Some [1 # 2 ^ 70; 0%Q]).
Definition far_story : Story := mk_story "203" 1 30 (Some [3 # 2 ^ 70; 0%Q]).

Definition close_archive : Database :=
  {| stories := [mk_story "201" 1 10 (Some [0%Q; 0%Q]); near_story; far_story];
     users := [johndoe];
     user_history := [] |}.

(** The archive once the history of [johndoe] has its first record. *)
Definition archive_later : Database :=
  {| stories := stories archive;
     users := users archive;
     user_history := [{| history_id := 1; h_uuid := 1 |}] |}.

(** A cursor codec for the examples: the token is the offset, in decimal. *)
Definition decode_offset (token : pystr) : option Cursor :=
  match int token with
  | Some n =>
      if 0 <=? n then
        Some {| c_offset := Z.to_nat n; c_reverse := false; c_position := None |}
      else None
  | None => None
  end.

Definition empty_world : World := {| cache := ∅; computed := 0 |}.

(** The list of the whole archive, computed. *)
Definition archive_list : Payload :=
  {| p_count := None; p_next := None; p_previous := None;
     p_results := map (serialize archive) [s105; s104; s103; s102; s101] |}.

Definition warm_world : World :=
  {| cache := {[ to_string (cache_key []) :=
                   {| ce_value := archive_list; ce_expires := 30 |} ]};
     computed := 1 |}.

(** ** Further vocabulary *)

(** The values a query string gives a key, in arrival order. *)
Fixpoint values_of (k : pystr) (q : list (pystr * pystr)) : list pystr :=
  match q with
  | [] => []
  | (k', v) :: q' =>
      if bool_decide (k' = k) then v :: values_of k q' else values_of k q'
  end.

(** A query string of decoded text. *)
Definition decoded (q : list (pystr * pystr)) : Prop :=
  Forall (fun kv => scalar_str kv.1 /\ scalar_str kv.2) q.

(** A lower-case hexadecimal digit. *)
Definition is_hex (c : Z) : Prop := 48 <= c <= 57 \/ 97 <= c <= 102.

(** Printable ASCII text. *)
Definition printable (s : pystr) : Prop := Forall (fun c => 32 <= c <= 126) s.

(** [cache.delete(key)], as the tests use it to expire an entry by hand. *)
Definition cache_delete (c : gmap string CacheEntry) (key : string)
    : gmap string CacheEntry :=
  delete key c.

(** ** A run of list requests

    A request comes at a time, with its query parameters, and meets a cache
    store that answers or fails each of the two calls. The data are what
    they are at the time of the request. *)

Record Request := {
  r_now : Z;
  r_params : QueryDict;
  r_get : Health;
  r_set : Health
}.

Section Serving.
Context `{Datastore}.
Variable decode_cursor : pystr -> option Cursor.
Variable database : Z -> Database.

Definition serve (w : World) (r : Request) : result Payload * World :=
  StoryListView_list decode_cursor (database (r_now r)) (r_now r)
    (r_get r) (r_set r) (r_params r) w.

Definition serve_all (rs : list Request) (w : World) : World :=
  fold_left (fun w r => (serve w r).2) rs w.

(** Every entry of the cache holds a response that was computed without
    error, for a request with the key of the entry, from the data as they
    were 30 seconds before the entry expires, and not after the time [T]. *)
Definition cached_from_data (T : Z) (c : gmap string CacheEntry) : Prop :=
  forall key e,
    c !! key = Some e ->
    exists query_params,
      key = to_string (cache_key query_params)
      /\ ce_expires e - 30 <= T
      /\ ListModelMixin_list decode_cursor (database (ce_expires e - 30))
           query_params = Ok (ce_value e).

End Serving.

(** The data of the examples: the history of [johndoe] gets its first record
    at time 5. *)
Definition archive_at (t : Z) : Database :=
  if t <? 5 then archive else archive_later.

(** The list of the whole archive, computed once the history has a record. *)
Definition archive_later_list : Payload :=
  {| p_count := None; p_next := None; p_previous := None;
     p_results := map (serialize archive_later) [s105; s104; s103; s102; s101] |}.

(** The key of [johndoe], as a request writes it. *)
Definition johndoe_key : pystr := str "00000000-0000-0000-0000-000000000001".

(** The archive with one more user, who has no story. *)
Definition guest : User := mk_user 6 "guest" "A Guest" "".

Definition archive_with_guest : Database :=
  {| stories := stories archive;
     users := users archive ++ [guest];
     user_history := user_history archive |}.

(** * The properties *)

(** Linear arithmetic with division by constants. *)
Ltac dlia := Z.to_euclidean_division_equations; lia.

(** Case analysis on the integer tests of the goal. *)
Ltac zbool :=
  repeat match goal with
  | |- context [?a <=? ?b] => destruct (Z.leb_spec a b); try lia
  | |- context [?a <? ?b] => destruct (Z.ltb_spec a b); try lia
  | |- context [?a =? ?b] => destruct (Z.eqb_spec a b); try lia
  end; simpl.

(** ** The model of MD5 on known digests *)

Example md5_empty : to_string (md5_hexdigest []) = "d41d8cd98f00b204e9800998ecf8427e"%string.
Proof. vm_compute. reflexivity. Qed.

Example md5_abc : to_string (md5_hexdigest (str "abc")) = "900150983cd24fb0d6963f7d28e17f72"%string.
Proof. vm_compute. reflexivity. Qed.

Example md5_two_blocks :
  to_string (md5_hexdigest (repeat 97 119)) = "8a7bd0732ed6a28ce75f6dabc90e1613"%string.
Proof. vm_compute. reflexivity. Qed.

Example md5_full_block :
  to_string (md5_hexdigest (repeat 97 64)) = "014842d480b571495a4a0363793f7367"%string.
Proof. vm_compute. reflexivity. Qed.

Example cache_key_no_params :
  to_string (cache_key []) = "story_list_d751713988987e9331980363e24189ce"%string.
Proof. vm_compute. reflexivity. Qed.

Example cache_key_two_params :
  to_string (cache_key [(str "user", [str "x"]); (str "page_size", [str "10"])])
  = "story_list_a3e765674b522a92050ab4f069bc5476"%string.
Proof. vm_compute. reflexivity. Qed.

(** ** [sorted] does not depend on the order of its argument *)

Lemma sorted_Permutation l : sorted l ≡ₚ l.
Proof. apply merge_sort_Permutation. Qed.

Lemma sorted_order_independent l1 l2 : l1 ≡ₚ l2 -> sorted l1 = sorted l2.
Proof.
  intros HP.
  apply (StronglySorted_unique (leb_of item_ltb)).
  - apply StronglySorted_merge_sort; apply _.
  - apply StronglySorted_merge_sort; apply _.
  - by rewrite !sorted_Permutation.
Qed.

(** ** The serialisation can be read back

    [json.dumps] is injective on the parameter lists of a request: a string
    ends at its first unescaped double quote, an array at its bracket. *)

Lemma hexval_hexdigit d : 0 <= d < 16 -> hexval (json.hexdigit d) = Some d.
Proof.
  intros Hd. unfold hexval, json.hexdigit.
  zbool; first [lia | f_equal; lia].
Qed.

Lemma unhex4_hex4 n r : 0 <= n < 65536 -> unhex4 (json.hex4 n ++ r) = Some (n, r).
Proof.
  intros Hn. unfold json.hex4; simpl.
  rewrite !hexval_hexdigit by (apply Z.mod_pos_bound; lia). simpl.
  do 2 f_equal. dlia.
Qed.

Lemma unescape_u_escape_u n r :
  0 <= n < 65536 -> unescape_u (json.escape_u n ++ r) = Some (n, r).
Proof. intros Hn. unfold json.escape_u. simpl. by apply unhex4_hex4. Qed.

(** [hi | x] is [hi + x] when [hi] is a multiple of [2^k] and [x] is below it. *)
Lemma lor_high_low hi x k :
  0 <= k -> 0 <= x < 2 ^ k -> Z.lor (hi * 2 ^ k) x = hi * 2 ^ k + x.
Proof.
  intros Hk Hx.
  rewrite <- Z.shiftl_mul_pow2 by done.
  rewrite <- Z.lxor_lor, <- Z.add_nocarry_lxor; try done.
  - apply Z.bits_inj'. intros i Hi.
    rewrite Z.land_spec, Z.bits_0.
    destruct (Z.lt_ge_cases i k).
    + by rewrite Z.shiftl_spec_low.
    + destruct (Z.eq_dec x 0) as [->|Hx0]; [by rewrite Z.bits_0, andb_false_r|].
      rewrite (Z.bits_above_log2 x i), andb_false_r; [done|lia|].
      apply Z.log2_lt_pow2; [lia|].
      apply Z.lt_le_trans with (2 ^ k); [lia|].
      apply Z.pow_le_mono_r; lia.
  - apply Z.bits_inj'. intros i Hi.
    rewrite Z.land_spec, Z.bits_0.
    destruct (Z.lt_ge_cases i k).
    + by rewrite Z.shiftl_spec_low.
    + destruct (Z.eq_dec x 0) as [->|Hx0]; [by rewrite Z.bits_0, andb_false_r|].
      rewrite (Z.bits_above_log2 x i), andb_false_r; [done|lia|].
      apply Z.log2_lt_pow2; [lia|].
      apply Z.lt_le_trans with (2 ^ k); [lia|].
      apply Z.pow_le_mono_r; lia.
Qed.

Lemma high_surrogate n :
  0 <= n < 0x100000 ->
  Z.lor 0xd800 (Z.land (Z.shiftr n 10) 0x3ff) = 0xd800 + n / 1024.
Proof.
  intros Hn.
  change 0x3ff with (Z.ones 10). rewrite Z.land_ones, Z.shiftr_div_pow2 by lia.
  change (2 ^ 10) with 1024.
  rewrite (Z.mod_small (n / 1024) 1024) by dlia.
  change 0xd800 with (54 * 2 ^ 10).
  apply lor_high_low; [lia | change (2 ^ 10) with 1024; dlia].
Qed.

Lemma low_surrogate n :
  0 <= n -> Z.lor 0xdc00 (Z.land n 0x3ff) = 0xdc00 + n mod 1024.
Proof.
  intros Hn.
  change 0x3ff with (Z.ones 10). rewrite Z.land_ones by lia.
  change (2 ^ 10) with 1024.
  change 0xdc00 with (55 * 2 ^ 10). apply lor_high_low; [lia|].
  apply Z.mod_pos_bound. lia.
Qed.

Lemma unescape_escape_u n t :
  0 <= n < 65536 ->
  unescape (json.escape_u n ++ t)
  = if (0xd800 <=? n) && (n <=? 0xdbff) then
      '(m, r2) ← unescape_u t;
      Some (0x10000 + (n - 0xd800) * 1024 + (m - 0xdc00), r2)
    else Some (n, t).
Proof.
  intros Hn. unfold json.escape_u. rewrite <- app_assoc.
  pose proof (unhex4_hex4 n t Hn) as Hx.
  remember (json.hex4 n ++ t) as u. simpl. by rewrite Hx.
Qed.

Lemma unescape_replace c r :
  scalar c -> unescape (json.replace c ++ r) = Some (c, r).
Proof.
  intros [Hc Hs]. unfold json.replace.
  repeat (case_match; [match goal with H : (_ =? _) = true |- _ =>
                         apply Z.eqb_eq in H; subst; reflexivity end|]).
  repeat match goal with H : (_ =? _) = false |- _ => apply Z.eqb_neq in H end.
  case_match.
  - simpl. by zbool.
  - case_match.
    + rewrite unescape_escape_u by lia. by zbool.
    + assert (0 <= c - 65536 < 0x100000) as Hn by lia.
      assert (0 <= (c - 65536) / 1024 < 1024) by dlia.
      assert (0 <= (c - 65536) mod 1024 < 1024) by dlia.
      cbv zeta. rewrite high_surrogate, low_surrogate by lia.
      rewrite <- app_assoc, unescape_escape_u by lia.
      rewrite unescape_u_escape_u by lia.
      zbool. do 2 f_equal. dlia.
Qed.

Lemma unescape_quote r : unescape (34 :: r) = None.
Proof. reflexivity. Qed.

(** The escaped body of a string ends at the first unescaped double quote. *)
Lemma string_body_delimited s1 s2 r1 r2 :
  scalar_str s1 -> scalar_str s2 ->
  concat (map json.replace s1) ++ 34 :: r1
  = concat (map json.replace s2) ++ 34 :: r2 ->
  s1 = s2 /\ r1 = r2.
Proof.
  intros H1. revert s2.
  induction H1 as [|c s1 Hc H1 IH]; intros s2 H2 Heq; destruct H2 as [|d s2 Hd H2].
  - simpl in Heq. by inversion Heq.
  - simpl in Heq. rewrite <- app_assoc in Heq.
    apply (f_equal unescape) in Heq.
    by rewrite unescape_replace, unescape_quote in Heq.
  - simpl in Heq. rewrite <- app_assoc in Heq.
    apply (f_equal unescape) in Heq.
    by rewrite unescape_replace, unescape_quote in Heq.
  - simpl in Heq. rewrite <- !app_assoc in Heq.
    pose proof (f_equal unescape Heq) as Hu.
    rewrite !unescape_replace in Hu by done.
    inversion Hu; subst.
    destruct (IH s2 H2 H3) as [-> ->]. done.
Qed.

Section Arrays.
Context {A : Type} (P : A -> Prop) (enc : A -> pystr).
Hypothesis enc_delimited : delimited P enc.
Hypothesis enc_opens : opens_value P enc.

Lemma dumps_rest_delimited : delimited (Forall P) (json.dumps_rest enc).
Proof.
  intros l1 l2 r1 r2 H1. revert l2.
  induction H1 as [|x l1 Hx H1 IH]; intros l2 H2 Heq;
    destruct H2 as [|y l2 Hy H2]; unfold json.dumps_rest in *; simpl in *.
  - by inversion Heq.
  - by inversion Heq.
  - by inversion Heq.
  - injection Heq as Heq. rewrite <- !app_assoc in Heq.
    destruct (enc_delimited _ _ _ _ Hx Hy Heq) as [-> Heq'].
    rewrite !app_assoc in Heq'.
    destruct (IH l2 H2 Heq') as [-> ->]. done.
Qed.

Lemma dumps_list_delimited : delimited (Forall P) (json.dumps_list enc).
Proof.
  intros l1 l2 r1 r2 H1 H2 Heq.
  destruct H1 as [|x l1 Hx H1], H2 as [|y l2 Hy H2]; simpl in Heq.
  - by inversion Heq.
  - destruct (enc_opens y Hy) as (c & t & Hc & Hne). rewrite Hc in Heq.
    simpl in Heq. inversion Heq. congruence.
  - destruct (enc_opens x Hx) as (c & t & Hc & Hne). rewrite Hc in Heq.
    simpl in Heq. inversion Heq. congruence.
  - injection Heq as Heq. rewrite <- !app_assoc in Heq.
    destruct (enc_delimited _ _ _ _ Hx Hy Heq) as [-> Heq'].
    destruct (dumps_rest_delimited _ _ _ _ H1 H2 Heq') as [-> ->]. done.
Qed.
End Arrays.

Lemma string_delimited : delimited scalar_str json.encode_basestring_ascii.
Proof.
  intros s1 s2 r1 r2 H1 H2. unfold json.encode_basestring_ascii. simpl.
  rewrite <- !app_assoc. simpl. intros Heq. injection Heq as Heq.
  by apply string_body_delimited.
Qed.

Lemma string_opens : opens_value scalar_str json.encode_basestring_ascii.
Proof. intros s _. unfold json.encode_basestring_ascii. by eexists _, _. Qed.

Lemma dumps_item_delimited : delimited item_ok json.dumps_item.
Proof.
  intros [k1 v1] [k2 v2] r1 r2 [Hk1 Hv1] [Hk2 Hv2]. unfold json.dumps_item.
  simpl in *. rewrite <- !app_assoc. intros Heq. injection Heq as Heq.
  destruct (string_body_delimited _ _ _ _ Hk1 Hk2 Heq) as [-> Heq'].
  injection Heq' as Heq'. rewrite <- !app_assoc in Heq'.
  destruct (dumps_list_delimited _ _ string_delimited string_opens
              _ _ _ _ Hv1 Hv2 Heq') as [-> Heq2].
  by inversion Heq2.
Qed.

Lemma dumps_item_opens : opens_value item_ok json.dumps_item.
Proof. intros it _. unfold json.dumps_item. by eexists _, _. Qed.

Lemma dumps_inj l1 l2 :
  Forall item_ok l1 -> Forall item_ok l2 -> json.dumps l1 = json.dumps l2 ->
  l1 = l2.
Proof.
  intros H1 H2 Heq.
  destruct (dumps_list_delimited _ _ dumps_item_delimited dumps_item_opens
              l1 l2 [] [] H1 H2) as [-> _]; [|done].
  by rewrite !app_nil_r.
Qed.

Lemma params_key_inj p1 p2 :
  Forall item_ok p1 -> Forall item_ok p2 -> params_key p1 = params_key p2 ->
  p1 ≡ₚ p2.
Proof.
  intros H1 H2 Heq. unfold params_key in Heq.
  apply dumps_inj in Heq.
  - by rewrite <- (sorted_Permutation p1), Heq, sorted_Permutation.
  - by rewrite sorted_Permutation.
  - by rewrite sorted_Permutation.
Qed.

(** ** The digest as text, and the bytes that are digested *)

Section Digest.

Lemma hexdigit_inj d1 d2 :
  0 <= d1 < 16 -> 0 <= d2 < 16 -> json.hexdigit d1 = json.hexdigit d2 -> d1 = d2.
Proof.
  unfold json.hexdigit. intros H1 H2.
  destruct (Z.ltb_spec d1 10), (Z.ltb_spec d2 10); lia.
Qed.

Lemma hex2_inj a b : byte a -> byte b -> hashlib.hex2 a = hashlib.hex2 b -> a = b.
Proof.
  unfold byte, hashlib.hex2. intros Ha Hb Heq. injection Heq as H1 H2.
  apply hexdigit_inj in H1; [|dlia..].
  apply hexdigit_inj in H2; [|dlia..].
  dlia.
Qed.

Lemma hexdigest_inj d1 d2 :
  Forall byte d1 -> Forall byte d2 ->
  hashlib.hexdigest d1 = hashlib.hexdigest d2 -> d1 = d2.
Proof.
  intros H1. revert d2.
  induction H1 as [|a d1 Ha H1 IH]; intros d2 H2 Heq;
    destruct H2 as [|b d2 Hb H2]; try done.
  unfold hashlib.hexdigest in *. simpl in Heq.
  injection Heq as E1 E2 E3.
  rewrite (hex2_inj a b Ha Hb) by (unfold hashlib.hex2; congruence).
  f_equal. by apply IH.
Qed.

Lemma le_bytes_byte n x : Forall byte (hashlib.le_bytes n x).
Proof.
  revert x. induction n as [|n IH]; intros x; simpl; constructor; [|done].
  unfold byte. dlia.
Qed.

Lemma md5_bytes msg : Forall byte (hashlib.md5 msg).
Proof.
  unfold hashlib.md5.
  destruct (hashlib.blocks _ _ _) as [[[a b] c] d].
  rewrite !Forall_app. repeat split; apply le_bytes_byte.
Qed.

Lemma hexdigit_ascii d : 0 <= d < 16 -> 0 <= json.hexdigit d < 128.
Proof. unfold json.hexdigit. intros Hd. destruct (Z.ltb_spec d 10); lia. Qed.

Lemma escape_u_ascii n : ascii_text (json.escape_u n).
Proof.
  unfold json.escape_u, json.hex4.
  repeat constructor; try lia; apply hexdigit_ascii; dlia.
Qed.

Lemma replace_ascii c : ascii_text (json.replace c).
Proof.
  unfold json.replace.
  repeat case_match; try apply escape_u_ascii;
    try (apply Forall_app; split; apply escape_u_ascii);
    repeat constructor; lia.
Qed.

Lemma encode_basestring_ascii_ascii s : ascii_text (json.encode_basestring_ascii s).
Proof.
  unfold json.encode_basestring_ascii. constructor; [lia|].
  apply Forall_app; split; [|repeat constructor; lia].
  induction s as [|c s IH]; simpl; [constructor|].
  apply Forall_app; split; [apply replace_ascii | done].
Qed.

Lemma dumps_list_ascii {A} (enc : A -> pystr) l :
  (forall x, ascii_text (enc x)) -> ascii_text (json.dumps_list enc l).
Proof.
  intros Henc.
  assert (forall xs, ascii_text (json.dumps_rest enc xs)) as Hrest.
  { intros xs. unfold json.dumps_rest.
    apply Forall_app; split; [|repeat constructor; lia].
    induction xs as [|y xs IH]; simpl; [constructor|].
    repeat (constructor; [lia|]). apply Forall_app; split; [apply Henc | done]. }
  destruct l as [|x xs]; simpl.
  - repeat constructor; lia.
  - constructor; [lia|]. apply Forall_app; split; [apply Henc | apply Hrest].
Qed.

Lemma dumps_ascii l : ascii_text (json.dumps l).
Proof.
  apply dumps_list_ascii. intros [k vs]. unfold json.dumps_item.
  constructor; [lia|].
  apply Forall_app; split; [apply encode_basestring_ascii_ascii|].
  apply Forall_app; split; [repeat constructor; lia|].
  apply Forall_app; split; [|repeat constructor; lia].
  apply dumps_list_ascii, encode_basestring_ascii_ascii.
Qed.

(** ASCII text is its own UTF-8 encoding. *)
Lemma encode_ascii s : ascii_text s -> encode s = s.
Proof.
  induction 1 as [|c s Hc Hs IH]; [done|].
  unfold encode in *. simpl. rewrite IH. unfold encode_char.
  by destruct (Z.ltb_spec c 128); [|lia].
Qed.

End Digest.

(** ** Dictionaries *)

Lemma appendlist_keys d k v :
  (appendlist d k v).*1 = if bool_decide (k ∈ d.*1) then d.*1 else d.*1 ++ [k].
Proof.
  induction d as [|[k' vs] d IH]; csimpl; [done|].
  destruct (decide (k' = k)) as [->|Hne].
  - rewrite bool_decide_eq_true_2 by done.
    by rewrite bool_decide_eq_true_2 by (apply list_elem_of_here).
  - rewrite (bool_decide_eq_false_2 (k' = k)) by done. csimpl. rewrite IH.
    destruct (decide (k ∈ d.*1)) as [Hin|Hin].
    + rewrite !bool_decide_eq_true_2; [done | by apply list_elem_of_further | done].
    + rewrite !bool_decide_eq_false_2; [done | | done].
      rewrite elem_of_cons. intros [?|?]; congruence.
Qed.

Lemma appendlist_is_dict d k v : is_dict d -> is_dict (appendlist d k v).
Proof.
  unfold is_dict. rewrite appendlist_keys. intros Hd.
  case_bool_decide; [done|].
  apply NoDup_app. repeat split; [done | | apply NoDup_singleton].
  intros x Hx Hx'. apply list_elem_of_singleton in Hx'. congruence.
Qed.

Lemma parse_qs_is_dict pairs : is_dict (parse_qs pairs).
Proof.
  unfold parse_qs.
  assert (is_dict []) as H0 by constructor.
  revert H0. generalize (@nil item).
  induction pairs as [|kv pairs IH]; intros d Hd; simpl; [done|].
  by apply IH, appendlist_is_dict.
Qed.

(** Two dictionaries with the same items hold them in some order each. *)
Lemma same_items_Permutation (p1 p2 : list item) :
  is_dict p1 -> is_dict p2 -> (forall it, it ∈ p1 <-> it ∈ p2) -> p1 ≡ₚ p2.
Proof.
  intros H1 H2 Hsame.
  apply NoDup_Permutation; [by eapply NoDup_fmap_1 | by eapply NoDup_fmap_1 | done].
Qed.

(** ** The cache key *)

Lemma cache_key_Permutation p1 p2 : p1 ≡ₚ p2 -> cache_key p1 = cache_key p2.
Proof.
  intros HP. unfold cache_key, params_key.
  by rewrite (sorted_order_independent p1 p2).
Qed.

Lemma cache_key_digest p1 p2 :
  cache_key p1 = cache_key p2 ->
  hashlib.md5 (encode (params_key p1)) = hashlib.md5 (encode (params_key p2)).
Proof.
  unfold cache_key, md5_hexdigest. intros Heq.
  apply app_inv_head in Heq.
  apply hexdigest_inj in Heq; [done | apply md5_bytes..].
Qed.

(** C1, as the code has it. The cache key of the list endpoint does not
    depend on the order in which the keys arrived: two parameter dictionaries
    with the same items, an item being a key with the list of its values in
    arrival order, have the same cache key. Two dictionaries that differ in
    an item are digested from different byte strings, and their cache keys
    differ exactly when MD5 gives the two strings different digests. *)
Theorem cache_key_of_parameter_set (p1 p2 : list item) :
  is_dict p1 -> is_dict p2 -> Forall item_ok p1 -> Forall item_ok p2 ->
  ((forall it, it ∈ p1 <-> it ∈ p2) -> cache_key p1 = cache_key p2)
  /\ (~ (forall it, it ∈ p1 <-> it ∈ p2) ->
      encode (params_key p1) <> encode (params_key p2)
      /\ (hashlib.md5 (encode (params_key p1))
          <> hashlib.md5 (encode (params_key p2))
          <-> cache_key p1 <> cache_key p2)).
Proof.
  intros Hd1 Hd2 Hok1 Hok2. split.
  - intros Hsame. by apply cache_key_Permutation, same_items_Permutation.
  - intros Hdiff. split.
    + rewrite !encode_ascii by apply dumps_ascii.
      intros Heq. apply Hdiff. intros it.
      by rewrite (params_key_inj p1 p2 Hok1 Hok2 Heq).
    + split; intros Hne Heq; apply Hne.
      * by apply cache_key_digest.
      * unfold cache_key, md5_hexdigest. by rewrite Heq.
Qed.

Lemma cache_key_of_parameter_set_witness :
  let p1 := [(str "search", [str "doe"]); (str "cursor", [str "abc"])] in
  let p2 := [(str "cursor", [str "abc"]); (str "search", [str "doe"])] in
  let p3 := [(str "cursor", [str "abd"]); (str "search", [str "doe"])] in
  cache_key p1 = cache_key p2
  /\ cache_key p1 <> cache_key p3
  /\ to_string (cache_key p1)
     = "story_list_d40c7b226ce1b43e18d20d74c8562254"%string
  /\ to_string (cache_key p3)
     = "story_list_8b18c8b3bea416bcea50fc4daa975e0a"%string.
Proof.
  cbv zeta.
  assert (forall p : list item,
            bool_decide (NoDup p.*1) = true -> is_dict p) as Hdict
    by (intros p; apply bool_decide_eq_true_1).
  assert (forall k v : string, item_ok (str k, [str v])) as Hok.
  { intros k v. split; [|constructor; [|constructor]];
      apply Forall_forall; intros c Hc;
      apply list_elem_of_In, in_map_iff in Hc as (a & <- & _);
      pose proof (N_ascii_bounded a); unfold scalar; lia. }
  split; [|split; [|split; vm_compute; reflexivity]].
  - apply (cache_key_of_parameter_set
             [(str "search", [str "doe"]); (str "cursor", [str "abc"])]
             [(str "cursor", [str "abc"]); (str "search", [str "doe"])]);
      [by apply Hdict | by apply Hdict | | |];
      try (repeat (apply List.Forall_cons; [apply Hok|]); apply List.Forall_nil).
    intros it. rewrite !elem_of_cons. tauto.
  - apply (cache_key_of_parameter_set
             [(str "search", [str "doe"]); (str "cursor", [str "abc"])]
             [(str "cursor", [str "abd"]); (str "search", [str "doe"])]);
      [by apply Hdict | by apply Hdict | | | |];
      try (repeat (apply List.Forall_cons; [apply Hok|]); apply List.Forall_nil).
    + intros Hsame.
      assert ((str "cursor", [str "abc"])
              ∈ [(str "cursor", [str "abd"]); (str "search", [str "doe"])])
        as Hin by (apply Hsame; rewrite !elem_of_cons; tauto).
      rewrite !elem_of_cons in Hin.
      destruct Hin as [Hin|[Hin|Hin%elem_of_nil]]; [discriminate..|done].
    + vm_compute. discriminate.
Defined.

(** C1, as the spec has it, fails for a key that comes more than once: the
    two query strings [tag=a&tag=b] and [tag=b&tag=a] hold the same key/value
    pairs, in another order, and have different cache keys, because the
    values of a key are digested in the order of their arrival. *)
Lemma repeated_key_changes_cache_key :
  let q1 := [(str "tag", str "a"); (str "tag", str "b")] in
  let q2 := [(str "tag", str "b"); (str "tag", str "a")] in
  q1 ≡ₚ q2
  /\ (forall kv, kv ∈ q1 <-> kv ∈ q2)
  /\ parse_qs q1 = [(str "tag", [str "a"; str "b"])]
  /\ parse_qs q2 = [(str "tag", [str "b"; str "a"])]
  /\ to_string (cache_key (parse_qs q1))
     = "story_list_f1840cad846e3f996b897c3580185320"%string
  /\ to_string (cache_key (parse_qs q2))
     = "story_list_c32f106642628085b68d7a81b3a758d2"%string
  /\ cache_key (parse_qs q1) <> cache_key (parse_qs q2).
Proof.
  cbv zeta. split; [apply perm_swap|]. split.
  { intros kv. rewrite !elem_of_cons. tauto. }
  repeat (split; [vm_compute; reflexivity|]).
  vm_compute. discriminate.
Qed.

(** The same holds from the query string on: the order of the keys is
    immaterial, the order of the values of a repeated key is kept. *)
Lemma cache_key_getlist q1 q2 :
  (forall k, getlist (parse_qs q1) k = getlist (parse_qs q2) k) ->
  (forall k, k ∈ (parse_qs q1).*1 <-> k ∈ (parse_qs q2).*1) ->
  cache_key (parse_qs q1) = cache_key (parse_qs q2).
Proof.
  intros Hget Hkeys.
  assert (forall d k vs, is_dict d -> (k, vs) ∈ d <-> k ∈ d.*1 /\ getlist d k = vs)
    as Hitem.
  { induction d as [|[k' vs'] d IH]; intros k vs Hd; csimpl.
    - split; [by intros ?%elem_of_nil | by intros [?%elem_of_nil _]].
    - apply NoDup_cons in Hd as [Hk' Hd]. rewrite !elem_of_cons, (IH _ _ Hd).
      destruct (decide (k' = k)) as [->|Hne].
      + rewrite bool_decide_eq_true_2 by done. split.
        * intros [[= -> ]|[Hin _]]; [auto | done].
        * intros [_ ->]. by left.
      + rewrite bool_decide_eq_false_2 by done. split.
        * intros [[= ? ?]|[Hin Hg]]; [congruence | auto].
        * intros [[?|Hin] Hg]; [congruence | auto]. }
  apply cache_key_Permutation, same_items_Permutation; try apply parse_qs_is_dict.
  intros [k vs]. rewrite !Hitem by apply parse_qs_is_dict.
  by rewrite Hget, Hkeys.
Qed.

(** Decoded text is needed: a pair of surrogate code points, which no
    decoded query string holds, is escaped like the character they encode. *)
Example surrogates_collide :
  params_key [([0xd83d; 0xde00], [])] = params_key [([0x1f600], [])].
Proof. vm_compute. reflexivity. Qed.

(** ** The read-through cache of the list endpoint *)

Section ListCache.
Context `{Datastore}.
Variable decode_cursor : pystr -> option Cursor.

Lemma cache_get_live c now key v : live c now key v -> cache_get Up now c key = Ok (Some v).
Proof.
  intros (e & He & Hlt & <-). unfold cache_get. rewrite He.
  by destruct (Z.ltb_spec now (ce_expires e)); [|lia].
Qed.

Lemma cache_get_no_live c now key : no_live c now key -> cache_get Up now c key = Ok None.
Proof.
  intros Hno. unfold cache_get. destruct (c !! key) as [e|] eqn:He; [|done].
  specialize (Hno e He). by destruct (Z.ltb_spec now (ce_expires e)); [lia|].
Qed.

Lemma list_hit db now on_set query_params w v :
  live (cache w) now (to_string (cache_key query_params)) v ->
  StoryListView_list decode_cursor db now Up on_set query_params w = (Ok v, w).
Proof. intros Hl. unfold StoryListView_list. by rewrite (cache_get_live _ _ _ v). Qed.

Lemma list_miss db now query_params w data :
  no_live (cache w) now (to_string (cache_key query_params)) ->
  ListModelMixin_list decode_cursor db query_params = Ok data ->
  StoryListView_list decode_cursor db now Up Up query_params w
  = (Ok data,
     {| cache := <[to_string (cache_key query_params) :=
                     {| ce_value := data; ce_expires := now + 30 |}]> (cache w);
        computed := S (computed w) |}).
Proof.
  intros Hno Hdata. unfold StoryListView_list.
  by rewrite cache_get_no_live, Hdata.
Qed.

Lemma list_miss_raise db now on_set query_params w e :
  no_live (cache w) now (to_string (cache_key query_params)) ->
  ListModelMixin_list decode_cursor db query_params = Raise e ->
  StoryListView_list decode_cursor db now Up on_set query_params w
  = (Raise e, {| cache := cache w; computed := S (computed w) |}).
Proof.
  intros Hno Hdata. unfold StoryListView_list.
  by rewrite cache_get_no_live, Hdata.
Qed.

Lemma list_get_down db now on_set query_params w :
  StoryListView_list decode_cursor db now Down on_set query_params w
  = (Raise CacheError, w).
Proof. reflexivity. Qed.

Lemma list_set_down db now query_params w data :
  no_live (cache w) now (to_string (cache_key query_params)) ->
  ListModelMixin_list decode_cursor db query_params = Ok data ->
  StoryListView_list decode_cursor db now Up Down query_params w
  = (Raise CacheError, {| cache := cache w; computed := S (computed w) |}).
Proof.
  intros Hno Hdata. unfold StoryListView_list.
  by rewrite cache_get_no_live, Hdata.
Qed.

(** C2. With a live entry under the key of the request, the list endpoint
    answers the stored payload as it is and computes nothing; the cache is
    left as it was. Without one, it computes the response, stores it under
    the key for 30 seconds and answers it: the entry is read back at every
    time before [now + 30], and at none from then on, and until then the same
    request is answered the stored response, whatever the data have become. *)
Theorem list_reads_through_cache (db : Database) (now : Z)
    (query_params : QueryDict) (w : World) :
  let key := to_string (cache_key query_params) in
  (forall v, live (cache w) now key v ->
     StoryListView_list decode_cursor db now Up Up query_params w = (Ok v, w))
  /\ (forall data, no_live (cache w) now key ->
        ListModelMixin_list decode_cursor db query_params = Ok data ->
        exists w',
          StoryListView_list decode_cursor db now Up Up query_params w
          = (Ok data, w')
          /\ computed w' = S (computed w)
          /\ cache w' !! key = Some {| ce_value := data; ce_expires := now + 30 |}
          /\ (forall k, k <> key -> cache w' !! k = cache w !! k)
          /\ (forall t, cache_get Up t (cache w') key
                        = Ok (if t <? now + 30 then Some data else None))
          /\ (forall db' t, now <= t < now + 30 ->
                StoryListView_list decode_cursor db' t Up Up query_params w'
                = (Ok data, w'))).
Proof.
  intros key. split.
  - intros v Hl. by apply list_hit.
  - intros data Hno Hdata. eexists. split; [by apply list_miss|].
    simpl. fold key. split; [done|]. split; [apply lookup_insert_eq|].
    split; [intros k Hk; by apply lookup_insert_ne|].
    split; [intros t; unfold cache_get; by rewrite lookup_insert_eq|].
    intros db' t Ht. apply list_hit. eexists. simpl. fold key.
    split; [apply lookup_insert_eq|]. simpl. split; [lia | done].
Qed.

(** C3, as the code has it. A failure of the cache store is not caught: when
    the read fails the request fails with the store's error and nothing is
    computed; when the write fails the response has been computed and the
    request fails all the same. The cache is left as it was. *)
Theorem cache_failure_propagates (db : Database) (now : Z)
    (query_params : QueryDict) (w : World) :
  (forall on_set,
     StoryListView_list decode_cursor db now Down on_set query_params w
     = (Raise CacheError, w))
  /\ (forall data,
        no_live (cache w) now (to_string (cache_key query_params)) ->
        ListModelMixin_list decode_cursor db query_params = Ok data ->
        StoryListView_list decode_cursor db now Up Down query_params w
        = (Raise CacheError, {| cache := cache w; computed := S (computed w) |})).
Proof.
  split.
  - intros on_set. apply list_get_down.
  - intros data. apply list_set_down.
Qed.

(** C10. On a miss, when computing the response raises, the list endpoint
    raises the same error and writes nothing: the cache is the one the
    request found, whatever the store would have done with the write. *)
Theorem no_write_on_error (db : Database) (now : Z) (on_set : Health)
    (query_params : QueryDict) (w : World) (e : exn) :
  no_live (cache w) now (to_string (cache_key query_params)) ->
  ListModelMixin_list decode_cursor db query_params = Raise e ->
  exists w',
    StoryListView_list decode_cursor db now Up on_set query_params w = (Raise e, w')
    /\ cache w' = cache w.
Proof.
  intros Hno He. eexists. split; [by apply list_miss_raise|done].
Qed.

(** The search filter raises nothing but the validation error, and nothing
    without a search string. *)
Lemma get_search_terms_Raise query_params e :
  get_search_terms query_params = Raise e -> e = ValidationError.
Proof.
  unfold get_search_terms. destruct (_ || _); [|done]. by intros [= <-].
Qed.

Lemma get_search_terms_None query_params :
  get query_params (str "search") = None -> get_search_terms query_params = Ok [].
Proof. unfold get_search_terms. by intros ->. Qed.

Lemma search_filter_None db query_params qs :
  get query_params (str "search") = None ->
  search_filter db query_params qs = Ok qs.
Proof.
  intros Hs. unfold search_filter. by rewrite (get_search_terms_None _ Hs).
Qed.

Lemma search_filter_Raise db query_params qs e :
  search_filter db query_params qs = Raise e -> e = ValidationError.
Proof.
  unfold search_filter.
  destruct (get_search_terms query_params) as [[|t ts]|e'] eqn:Hts; try done.
  simpl. intros [= <-]. by apply get_search_terms_Raise in Hts.
Qed.

(** A value of the [user] filter that is not the key of a user is
    rejected. *)
Lemma invalid_user_raises db query_params v :
  get query_params (str "user") = Some v -> v <> [] ->
  (forall key, UUIDField_to_python v = Some key ->
               ~ Exists (fun u => uuid u = key) (users db)) ->
  ListModelMixin_list decode_cursor db query_params = Raise ValidationError.
Proof.
  intros Hget Hv Hnone.
  unfold ListModelMixin_list, StoryListView_filter_queryset.
  destruct (search_filter db query_params _) as [qs|e] eqn:Hs; simpl.
  - unfold user_filter. rewrite Hget. destruct v as [|c v]; [done|].
    destruct (UUIDField_to_python (c :: v)) as [key|]; [|done].
    by rewrite bool_decide_eq_false_2 by (by apply Hnone).
  - by rewrite (search_filter_Raise _ _ _ _ Hs).
Qed.

(** A cursor that does not decode is rejected. *)
Lemma invalid_cursor_raises db query_params token :
  get query_params (str "search") = None ->
  get query_params (str "user") = None ->
  get query_params (str "cursor") = Some token ->
  decode_cursor token = None ->
  ListModelMixin_list decode_cursor db query_params = Raise Http404.
Proof.
  intros Hs Hu Hc Hd.
  unfold ListModelMixin_list, StoryListView_filter_queryset, user_filter.
  rewrite (search_filter_None _ _ _ Hs), Hu. simpl.
  unfold StoryCursorPagination. by rewrite Hc, Hd.
Qed.

End ListCache.

(** ** Lookup by [story_id] *)

Lemma Story_objects_get_unknown db sid :
  (forall s, s ∈ stories db -> story_id s <> sid) ->
  Story_objects_get db sid = Raise DoesNotExist.
Proof.
  intros Hno. unfold Story_objects_get.
  destruct (filter _ (stories db)) as [|s l] eqn:E; [done|].
  assert (s ∈ filter (fun s => story_id s = sid) (stories db)) as Hs
    by (rewrite E; apply list_elem_of_here).
  apply list_elem_of_filter in Hs as [Hid Hin]. by destruct (Hno s Hin).
Qed.

Lemma Story_objects_get_Ok db sid source :
  Story_objects_get db sid = Ok source ->
  source ∈ stories db /\ story_id source = sid
  /\ forall s, s ∈ stories db -> story_id s = sid -> s = source.
Proof.
  unfold Story_objects_get.
  destruct (filter _ (stories db)) as [|s [|s' l]] eqn:E; try done.
  intros [= ->].
  assert (forall x, x ∈ stories db /\ story_id x = sid <-> x = source) as Hx.
  { intros x. rewrite <- (list_elem_of_singleton x source), <- E, list_elem_of_filter.
    tauto. }
  destruct (proj2 (Hx source) eq_refl) as [Hin Hid].
  repeat split; [done..|]. intros x Hxin Hxid. by apply Hx.
Qed.

Lemma filter_ext_elem_of {A} (P1 P2 : A -> Prop)
    `{!forall x, Decision (P1 x), !forall x, Decision (P2 x)} (l : list A) :
  (forall x, x ∈ l -> P1 x <-> P2 x) -> filter P1 l = filter P2 l.
Proof.
  induction l as [|a l IH]; intros Hiff; [done|].
  rewrite !filter_cons.
  rewrite IH by (intros x Hx; apply Hiff; by apply list_elem_of_further).
  apply decide_ext, Hiff, list_elem_of_here.
Qed.

Lemma StronglySorted_lookup {A} (R : relation A) l i j a b :
  StronglySorted R l -> (i < j)%nat -> l !! i = Some a -> l !! j = Some b -> R a b.
Proof.
  intros Hs. revert i j. induction Hs as [|x l Hs IH Hx]; intros i j Hij Hi Hj.
  - done.
  - destruct j as [|j]; [lia|]. simpl in Hj. destruct i as [|i]; simpl in Hi.
    + injection Hi as <-. rewrite Forall_forall in Hx. apply Hx.
      by eapply list_elem_of_lookup_2.
    + apply (IH i j); [lia | done..].
Qed.

(** ** The detail and the similar endpoint *)

Section Similar.
Context `{Datastore}.

Lemma empty_first_page db query_params :
  first_page query_params ->
  (let* page := StorySimilarPageNumberPagination [] query_params in
   Ok (map_results (serialize db) page)) = Ok empty_page.
Proof.
  unfold first_page, StorySimilarPageNumberPagination. intros Hp.
  assert (1 <= get_page_size query_params) as Hsize.
  { unfold get_page_size, default_page_size, max_page_size.
    repeat case_match; lia. }
  change (length (@nil Story)) with 0%nat. change (Z.of_nat 0) with 0.
  rewrite Z.add_0_l, Z.div_small by lia. change (Z.max 1 0) with 1.
  destruct (get query_params (str "page")) as [s|]; [rewrite Hp|]; simpl;
    by rewrite take_nil.
Qed.

(** C4. A [story_id] that no story has: the detail endpoint answers
    NotFound; the query set of the similar endpoint is empty, the endpoint
    answers what it answers for an empty result, and that is the successful
    empty page for a request of the first page. The same holds of the similar
    endpoint when the source story exists and has no embedding. *)
Theorem unknown_or_bare_source (db : Database) (sid : pystr)
    (query_params : QueryDict) :
  ((forall s, s ∈ stories db -> story_id s <> sid) ->
     StoryDetailView_retrieve db sid = Raise Http404
     /\ StorySimilarView_get_queryset db sid = Ok []
     /\ (first_page query_params ->
         StorySimilarView_get db sid query_params = Ok empty_page))
  /\ (forall source,
        Story_objects_get db sid = Ok source -> embedding source = None ->
        StorySimilarView_get_queryset db sid = Ok []
        /\ (first_page query_params ->
            StorySimilarView_get db sid query_params = Ok empty_page)).
Proof.
  split.
  - intros Hno. apply Story_objects_get_unknown in Hno.
    unfold StoryDetailView_retrieve, StorySimilarView_get,
      StorySimilarView_get_queryset.
    rewrite Hno. repeat split. intros Hp. by apply empty_first_page.
  - intros source Hsrc Hemb.
    unfold StorySimilarView_get, StorySimilarView_get_queryset.
    rewrite Hsrc, Hemb. split; [done|]. intros Hp. by apply empty_first_page.
Qed.

(** The query set of the similar endpoint, for a source with an embedding. *)
Lemma similar_queryset db sid source e :
  Story_objects_get db sid = Ok source -> embedding source = Some e ->
  StorySimilarView_get_queryset db sid
  = Ok (order_by_desc (similarity_score e) (candidates db sid))
  /\ candidates db sid
     = filter (fun s => s <> source /\ is_Some (embedding s)) (stories db).
Proof.
  intros Hsrc Hemb.
  destruct (Story_objects_get_Ok _ _ _ Hsrc) as (Hin & Hid & Huniq).
  unfold StorySimilarView_get_queryset. rewrite Hsrc, Hemb. split; [done|].
  unfold candidates. rewrite list_filter_filter.
  apply filter_ext_elem_of. intros s Hs. simpl.
  split; intros [Hne Hsome]; (split; [|done]).
  - intros ->. auto.
  - intros Hsid. by apply Hne, Huniq.
Qed.

(** C5. With a source story that has an embedding, the query set of the
    similar endpoint holds exactly the stories other than the source that
    have an embedding, each as often as it is stored: never the source,
    never a story without an embedding. *)
Theorem similar_result_set (db : Database) (sid : pystr) (source : Story)
    (e : list Q) :
  Story_objects_get db sid = Ok source -> embedding source = Some e ->
  exists qs,
    StorySimilarView_get_queryset db sid = Ok qs
    /\ qs ≡ₚ filter (fun s => s <> source /\ is_Some (embedding s)) (stories db)
    /\ (forall s, s ∈ qs <->
                  s ∈ stories db /\ s <> source /\ is_Some (embedding s))
    /\ (source ∉ qs)
    /\ (forall s, s ∈ qs -> embedding s <> None).
Proof.
  intros Hsrc Hemb.
  destruct (similar_queryset db sid source e Hsrc Hemb) as [Hqs Hcand].
  eexists. split; [exact Hqs|].
  assert (order_by_desc (similarity_score e) (candidates db sid)
          ≡ₚ filter (fun s => s <> source /\ is_Some (embedding s)) (stories db))
    as HP by (by rewrite order_by_desc_Permutation, Hcand).
  assert (forall s, s ∈ order_by_desc (similarity_score e) (candidates db sid)
                    <-> s ∈ stories db /\ s <> source /\ is_Some (embedding s))
    as Hmem.
  { intros s. rewrite HP, list_elem_of_filter. tauto. }
  split; [done|]. split; [done|]. split.
  - rewrite Hmem. tauto.
  - intros s [_ [_ [x Hx]]]%Hmem. congruence.
Qed.

(** C6, as the code has it. The query set is in descending order of
    [similarity_score], the server's [1 - L2Distance]. A candidate that is no
    farther than another has a score that is no smaller, and one with a
    larger score is nearer: but two candidates at different distances may
    have the same score, since the subtraction is rounded. So a candidate
    comes before a nearer one only when the two have the same score; nothing
    orders two candidates of the same score: the query names no second
    key. *)
Theorem similar_ranking (db : Database) (sid : pystr) (source : Story)
    (e : list Q) :
  Story_objects_get db sid = Ok source -> embedding source = Some e ->
  (forall a b ea eb,
     embedding a = Some ea -> embedding b = Some eb ->
     ((L2Distance ea e <= L2Distance eb e)%Q ->
      (similarity_score e b <= similarity_score e a)%Q)
     /\ ((similarity_score e b < similarity_score e a)%Q ->
         (L2Distance ea e < L2Distance eb e)%Q))
  /\ exists qs,
       StorySimilarView_get_queryset db sid = Ok qs
       /\ sorted_desc (similarity_score e) qs
       /\ forall i j a b,
            (i < j)%nat -> qs !! i = Some a -> qs !! j = Some b ->
            exists ea eb,
              embedding a = Some ea /\ embedding b = Some eb
              /\ (similarity_score e b <= similarity_score e a)%Q
              /\ ((L2Distance eb e < L2Distance ea e)%Q ->
                  (similarity_score e a == similarity_score e b)%Q).
Proof.
  intros Hsrc Hemb.
  assert (forall a b ea eb,
            embedding a = Some ea -> embedding b = Some eb ->
            (L2Distance ea e <= L2Distance eb e)%Q ->
            (similarity_score e b <= similarity_score e a)%Q) as Hmono.
  { intros a b ea eb Ha Hb Hle. unfold similarity_score. rewrite Ha, Hb.
    apply float8_monotone. lra. }
  split.
  { intros a b ea eb Ha Hb. split; [by apply (Hmono a b)|].
    intros Hlt. apply Qnot_le_lt. intros Hle.
    pose proof (Hmono b a eb ea Hb Ha Hle). lra. }
  destruct (similar_queryset db sid source e Hsrc Hemb) as [Hqs Hcand].
  eexists. split; [exact Hqs|].
  split; [apply order_by_desc_sorted|].
  pose proof (order_by_desc_sorted (similarity_score e) (candidates db sid))
    as Hsorted.
  assert (forall s, s ∈ order_by_desc (similarity_score e) (candidates db sid) ->
                    embedding s <> None) as Hsome.
  { intros s. rewrite order_by_desc_Permutation, Hcand, list_elem_of_filter.
    intros [[_ [x Hx]] _]. congruence. }
  intros i j a b Hij Hi Hj.
  pose proof (StronglySorted_lookup _ _ _ _ _ _ Hsorted Hij Hi Hj) as Hab.
  simpl in Hab.
  destruct (embedding a) as [ea|] eqn:Ha;
    [|by destruct (Hsome a (list_elem_of_lookup_2 _ _ _ Hi))].
  destruct (embedding b) as [eb|] eqn:Hb;
    [|by destruct (Hsome b (list_elem_of_lookup_2 _ _ _ Hj))].
  exists ea, eb. split; [done|]. split; [done|]. split; [done|].
  intros Hlt. apply Qle_antisym; [|done].
  apply (Hmono b a eb ea Hb Ha). lra.
Qed.

End Similar.

(** ** Page sizes *)

Lemma get_page_size_bounds query_params : 1 <= get_page_size query_params <= 100.
Proof.
  unfold get_page_size, default_page_size, max_page_size.
  repeat case_match; lia.
Qed.

Section PageSize.
Context `{Datastore}.
Variable decode_cursor : pystr -> option Cursor.

Lemma cursor_page_length qs query_params page :
  StoryCursorPagination decode_cursor qs query_params = Ok page ->
  Z.of_nat (length (p_results page)) <= get_page_size query_params.
Proof.
  unfold StoryCursorPagination. intros Hp.
  destruct (match get query_params (str "cursor") with
            | Some token => _ | None => _ end) as [c|]; [|done].
  simpl in Hp. injection Hp as <-. simpl.
  pose proof (get_page_size_bounds query_params).
  destruct (c_reverse c); rewrite ?length_rev, !length_take; lia.
Qed.

Lemma numbered_page_length qs query_params page :
  StorySimilarPageNumberPagination qs query_params = Ok page ->
  Z.of_nat (length (p_results page)) <= get_page_size query_params.
Proof.
  unfold StorySimilarPageNumberPagination. intros Hp.
  destruct (match get query_params (str "page") with
            | Some s => _ | None => _ end) as [n|]; [|done].
  simpl in Hp. injection Hp as <-. simpl.
  pose proof (get_page_size_bounds query_params).
  rewrite length_take. lia.
Qed.

(** C7. For the list and for the similar endpoint: without a [page_size]
    the page size is the default of 20; a [page_size] that reads as an
    integer [n >= 1] gives [min n 100], so 200 gives 100; and a page never
    holds more results than the page size. *)
Theorem page_size_default_and_ceiling (db : Database) (sid : pystr)
    (query_params : QueryDict) :
  (get query_params (str "page_size") = None -> get_page_size query_params = 20)
  /\ (forall s n,
        get query_params (str "page_size") = Some s -> int s = Some n -> 1 <= n ->
        get_page_size query_params = Z.min n 100)
  /\ (get query_params (str "page_size") = Some (str "200") ->
      get_page_size query_params = 100)
  /\ (forall data,
        ListModelMixin_list decode_cursor db query_params = Ok data ->
        Z.of_nat (length (p_results data)) <= get_page_size query_params)
  /\ (forall data,
        StorySimilarView_get db sid query_params = Ok data ->
        Z.of_nat (length (p_results data)) <= get_page_size query_params).
Proof.
  repeat split.
  - intros Hget. unfold get_page_size. by rewrite Hget.
  - intros s n Hget Hint Hn. unfold get_page_size. rewrite Hget, Hint.
    by destruct (Z.leb_spec 1 n); [|lia].
  - intros Hget. unfold get_page_size. by rewrite Hget.
  - intros data. unfold ListModelMixin_list.
    destruct (StoryListView_filter_queryset _ _ _) as [qs|]; [|done]. simpl.
    destruct (StoryCursorPagination _ _ _) as [page|] eqn:Hp; [|done]. simpl.
    intros [= <-]. simpl. rewrite length_map. by eapply cursor_page_length.
  - intros data. unfold StorySimilarView_get.
    destruct (StorySimilarView_get_queryset _ _) as [qs|]; [|done]. simpl.
    destruct (StorySimilarPageNumberPagination _ _) as [page|] eqn:Hp; [|done].
    simpl. intros [= <-]. simpl. rewrite length_map. by eapply numbered_page_length.
Qed.

End PageSize.

(** ** The user flags *)

Lemma annotate_flags db u : flags_current db (annotate db u).
Proof.
  unfold flags_current, annotate; simpl.
  by rewrite !bool_decide_eq_true, !Exists_exists.
Qed.

Lemma serialize_flags db s au :
  sd_user (serialize db s) = Some au -> flags_current db au.
Proof.
  unfold serialize; simpl. intros Hf. apply find_some in Hf as [Hin _].
  unfold annotated_users in Hin. apply in_map_iff in Hin as (u & <- & _).
  apply annotate_flags.
Qed.

Lemma map_results_flags db (page : Page Story) d au :
  d ∈ p_results (map_results (serialize db) page) -> sd_user d = Some au ->
  flags_current db au.
Proof.
  simpl. intros (s & -> & _)%list_elem_of_fmap. apply serialize_flags.
Qed.

Section Flags.
Context `{Datastore}.
Variable decode_cursor : pystr -> option Cursor.

(** C8, as the code has it. The flags of every user attached to a result of
    the detail endpoint, of the similar endpoint, and of a list response that
    is computed (no live cache entry) say what the data hold when the request
    is served. A list response served from the cache is the stored payload,
    with the flags it was stored with, whatever the data hold by then. *)
Theorem user_flags (db : Database) (now : Z) (sid : pystr)
    (query_params : QueryDict) (w : World) :
  (forall d au,
     StoryDetailView_retrieve db sid = Ok d -> sd_user d = Some au ->
     flags_current db au)
  /\ (forall page d au,
        StorySimilarView_get db sid query_params = Ok page ->
        d ∈ p_results page -> sd_user d = Some au -> flags_current db au)
  /\ (forall page w' d au,
        no_live (cache w) now (to_string (cache_key query_params)) ->
        StoryListView_list decode_cursor db now Up Up query_params w
        = (Ok page, w') ->
        d ∈ p_results page -> sd_user d = Some au -> flags_current db au)
  /\ (forall v,
        live (cache w) now (to_string (cache_key query_params)) v ->
        StoryListView_list decode_cursor db now Up Up query_params w = (Ok v, w)).
Proof.
  split; [|split; [|split]].
  - intros d au. unfold StoryDetailView_retrieve.
    destruct (Story_objects_get db sid) as [s|[]]; try done.
    intros [= <-]. apply serialize_flags.
  - intros page d au. unfold StorySimilarView_get.
    destruct (StorySimilarView_get_queryset _ _) as [qs|]; [|done]. simpl.
    destruct (StorySimilarPageNumberPagination _ _) as [p|]; [|done]. simpl.
    intros [= <-] Hd Hu. by eapply map_results_flags.
  - intros page w' d au Hno. unfold StoryListView_list.
    rewrite cache_get_no_live by done. unfold ListModelMixin_list.
    destruct (StoryListView_filter_queryset _ _ _) as [qs|]; [|done]. simpl.
    destruct (StoryCursorPagination _ _ _) as [p|]; [|done]. simpl.
    intros [= <- _] Hd Hu. by eapply map_results_flags.
  - intros v Hl. by apply list_hit.
Qed.

End Flags.

(** ** Search *)

(** *** A term occurs in a field *)

Lemma startswith_spec s p : startswith s p = true <-> exists suf, s = p ++ suf.
Proof.
  revert s. induction p as [|a p IH]; intros s; simpl.
  - destruct s; simpl; (split; [intros _; by eexists | done]).
  - destruct s as [|b s]; [split; [done | by intros [suf ?]]|].
    simpl. destruct (Z.eqb_spec a b) as [->|Hne]; simpl.
    + rewrite IH. split.
      * intros [suf ->]. by exists suf.
      * intros [suf [= ->]]. by exists suf.
    + split; [done|]. intros [suf [= -> _]]. done.
Qed.

Lemma contains_spec s p : contains s p = true <-> occurs_in p s.
Proof.
  unfold occurs_in. induction s as [|b s IH].
  - change (contains [] p) with (startswith [] p || false).
    rewrite orb_false_r, startswith_spec. split.
    + intros [suf Hs]. by exists [], suf.
    + intros (pre & suf & Hs). destruct pre; [by exists suf | done].
  - change (contains (b :: s) p) with (startswith (b :: s) p || contains s p).
    rewrite orb_true_iff, startswith_spec, IH. split.
    + intros [[suf Hs]|(pre & suf & ->)]; [by exists [], suf|].
      by exists (b :: pre), suf.
    + intros (pre & suf & Hs). destruct pre as [|c pre].
      * left. by exists suf.
      * injection Hs as -> ->. right. by exists pre, suf.
Qed.

(** *** Pieces, words and strips *)

Lemma push_app c l l' : l <> [] -> push c (l ++ l') = push c l ++ l'.
Proof. by destruct l. Qed.

Lemma push_nonempty c l : push c l <> [].
Proof. by destruct l. Qed.

Lemma words_from_inside sep s : words_from sep true s <> [].
Proof. destruct s as [|c s]; simpl; [done|]. destruct (sep c); [done|apply push_nonempty]. Qed.

Lemma pieces_nonempty sep s : pieces sep s <> [].
Proof. destruct s as [|c s]; simpl; [done|]. destruct (sep c); [done|apply push_nonempty]. Qed.

(** The words are the pieces that are not empty. *)
Lemma pieces_words sep s :
  exists w ws,
    pieces sep s = w :: ws
    /\ words_from sep true s = w :: List.filter nonempty ws
    /\ words_from sep false s = List.filter nonempty (w :: ws).
Proof.
  induction s as [|c s (w & ws & Hp & Ht & Hf)]; simpl.
  - by exists [], [].
  - destruct (sep c).
    + exists [], (w :: ws). by rewrite Hp, Hf.
    + exists (c :: w), ws. by rewrite Hp, Ht.
Qed.

Lemma words_pieces sep s : words sep s = List.filter nonempty (pieces sep s).
Proof.
  destruct (pieces_words sep s) as (w & ws & Hp & _ & Hf).
  unfold words. by rewrite Hf, Hp.
Qed.

(** Separators at either end add empty pieces only. *)
Lemma words_lstrip sep s : words sep (lstrip sep s) = words sep s.
Proof.
  unfold words. induction s as [|c s IH]; [done|]. simpl.
  destruct (sep c) eqn:Hc; [done|]. simpl. by rewrite Hc.
Qed.

Lemma words_from_trailing sep b s junk :
  Forall (fun c => sep c = true) junk ->
  words_from sep b (s ++ junk) = words_from sep b s.
Proof.
  intros Hj. revert b. induction s as [|c s IH]; intros b; simpl.
  - revert b. induction Hj as [|c junk Hc Hj IH]; intros b; [done|]. simpl.
    rewrite Hc, IH. by destruct b.
  - by rewrite !IH.
Qed.

Lemma lstrip_split chars s :
  exists junk, s = junk ++ lstrip chars s /\ Forall (fun c => chars c = true) junk.
Proof.
  induction s as [|c s (junk & Hs & Hj)]; simpl.
  - by exists [].
  - destruct (chars c) eqn:Hc.
    + exists (c :: junk). split; [simpl; by f_equal | by constructor].
    + by exists [].
Qed.

Lemma rstrip_split chars s :
  exists junk, s = rstrip chars s ++ junk /\ Forall (fun c => chars c = true) junk.
Proof.
  unfold rstrip. destruct (lstrip_split chars (rev s)) as (junk & Hs & Hj).
  exists (rev junk). split.
  - by rewrite <- rev_app_distr, <- Hs, rev_involutive.
  - apply Forall_forall. intros c Hc. rewrite Forall_forall in Hj.
    by apply Hj, list_elem_of_In, in_rev, list_elem_of_In.
Qed.

Lemma words_strip sep s : words sep (strip sep s) = words sep s.
Proof.
  unfold strip. destruct (rstrip_split sep (lstrip sep s)) as (junk & Hs & Hj).
  rewrite <- (words_lstrip sep s). rewrite Hs at 2.
  unfold words. by rewrite words_from_trailing.
Qed.

Lemma lstrip_none chars s :
  Forall (fun c => chars c = false) s -> lstrip chars s = s.
Proof. destruct 1 as [|c s Hc Hs]; [done|]. simpl. by rewrite Hc. Qed.

Lemma strip_none chars s :
  Forall (fun c => chars c = false) s -> strip chars s = s.
Proof.
  intros Hs. unfold strip, rstrip. rewrite (lstrip_none _ _ Hs).
  rewrite lstrip_none; [apply rev_involutive|].
  apply Forall_forall. intros c Hc. rewrite Forall_forall in Hs.
  by apply Hs, list_elem_of_In, in_rev, list_elem_of_In.
Qed.

(** Every word is made of characters of the text that are no separators. *)
Lemma words_from_Forall (P : Z -> Prop) sep b s :
  Forall P s ->
  Forall (Forall (fun c => P c /\ sep c = false)) (words_from sep b s).
Proof.
  intros Hs. revert b. induction Hs as [|c s Hc Hs IH]; intros b; simpl.
  - destruct b; repeat constructor.
  - destruct (sep c) eqn:Hsep.
    + destruct b; [constructor; [constructor|]|]; apply IH.
    + specialize (IH true). destruct (words_from sep true s) as [|w ws] eqn:Hw.
      * by destruct (words_from_inside sep s).
      * simpl. apply Forall_cons in IH as [Hw1 Hws]. by repeat constructor.
Qed.

(** Splitting at one kind of separator and then at another is splitting at
    both. *)
Lemma words_of_words sep1 sep2 s :
  flat_map (words sep2) (words_from sep1 false s)
  = words_from (fun c => sep1 c || sep2 c) false s
  /\ forall b,
       match words_from sep1 true s with
       | w :: ws => words_from sep2 b w ++ flat_map (words sep2) ws
       | [] => []
       end = words_from (fun c => sep1 c || sep2 c) b s.
Proof.
  induction s as [|c s [IH1 IH2]]; simpl.
  - split; [done|]. by intros [].
  - destruct (sep1 c) eqn:H1; simpl.
    + split; [done|]. intros b. rewrite IH1. by destruct b.
    + specialize (IH2 true) as IH2t. pose proof (IH2 false) as IH2f.
      destruct (words_from sep1 true s) as [|w ws] eqn:Hw;
        [by destruct (words_from_inside sep1 s)|].
      simpl. unfold words at 1. simpl. destruct (sep2 c) eqn:H2; simpl.
      * split; [by rewrite <- IH2f|].
        intros b. rewrite <- IH2f. by destruct b.
      * assert (push c (words_from sep2 true w) ++ flat_map (words sep2) ws
                = push c (words_from (fun c => sep1 c || sep2 c) true s)) as Hp.
        { rewrite <- IH2t. rewrite push_app; [done|]. apply words_from_inside. }
        split; [done|]. by intros b.
Qed.

(** The words are the terms between the separators. *)
Lemma separates_spec c : separates c <-> is_separator c = true.
Proof.
  unfold separates, is_separator, is_comma. rewrite orb_true_iff, Z.eqb_eq. tauto.
Qed.



(** *** A search string without quotes *)

Lemma not_quote c : c <> 34 /\ c <> 39 -> is_quote c = false.
Proof.
  intros [H1 H2]. unfold is_quote.
  destruct (Z.eqb_spec c 34), (Z.eqb_spec c 39); done.
Qed.

Lemma scan_unquoted s :
  unquoted s ->
  scan Between s = words_from is_space false s
  /\ forall b, scan (Plain b) s = words_from is_space true s.
Proof.
  induction 1 as [|c s Hc Hs [IH1 IH2]]; simpl; [done|].
  rewrite (not_quote c Hc). destruct (is_space c); split; intros;
    by rewrite ?IH1, ?IH2.
Qed.

Lemma lstrip_Forall (P : Z -> Prop) chars s : Forall P s -> Forall P (lstrip chars s).
Proof.
  induction 1 as [|c s Hc Hs IH]; simpl; [done|].
  destruct (chars c); [done | by constructor].
Qed.

Lemma strip_Forall (P : Z -> Prop) chars s : Forall P s -> Forall P (strip chars s).
Proof.
  intros Hs. unfold strip, rstrip.
  apply Forall_rev, lstrip_Forall, Forall_rev, lstrip_Forall, Hs.
Qed.

Lemma map_id_Forall {A} (f : A -> A) l : Forall (fun x => f x = x) l -> map f l = l.
Proof. induction 1 as [|x l Hx Hl IH]; simpl; congruence. Qed.

Lemma flat_map_ext_Forall {A B} (f g : A -> list B) l :
  Forall (fun x => f x = g x) l -> flat_map f l = flat_map g l.
Proof. induction 1 as [|x l Hx Hl IH]; simpl; congruence. Qed.

(** A match without a quote and without white space is split at its
    commas. *)
Lemma sanitize_plain term :
  Forall (fun c => (c <> 34 /\ c <> 39) /\ is_space c = false) term ->
  sanitize term = words is_comma term.
Proof.
  intros Hterm. unfold sanitize. cbv zeta.
  assert (is_quoted (strip is_comma term) = false) as ->.
  { pose proof (strip_Forall _ is_comma _ Hterm) as Hs.
    destruct (strip is_comma term) as [|c t]; [done|].
    apply Forall_cons in Hs as [[Hc _] _]. unfold is_quoted.
    by rewrite (not_quote c Hc). }
  rewrite <- words_pieces, words_strip.
  apply map_id_Forall.
  pose proof (words_from_Forall (fun c => is_space c = false) is_comma false term)
    as Hw.
  eapply Forall_impl; [apply Hw|].
  - eapply Forall_impl; [apply Hterm|]. by intros c [_ Hc].
  - intros w Hwc. apply strip_none. eapply Forall_impl; [apply Hwc|].
    by intros c [Hc _].
Qed.

Lemma search_smart_split_unquoted s :
  unquoted s -> search_smart_split s = words is_separator s.
Proof.
  intros Hs. unfold search_smart_split, smart_split.
  rewrite (proj1 (scan_unquoted s Hs)).
  rewrite (flat_map_ext_Forall sanitize (words is_comma)).
  - apply (proj1 (words_of_words is_space is_comma s)).
  - pose proof (words_from_Forall (fun c => c <> 34 /\ c <> 39) is_space false s Hs)
      as Hw.
    eapply Forall_impl; [apply Hw|]. intros w Hwc. by apply sanitize_plain.
Qed.

(** *** A phrase in quotes *)






(** *** The case of the letters does not change how a text is split *)

Lemma upper_is_space c : is_space (upper c) = is_space c.
Proof.
  unfold upper. destruct ((97 <=? c) && (c <=? 122)) eqn:Hc; [|done].
  apply andb_true_iff in Hc as [H1%Z.leb_le H2%Z.leb_le].
  unfold is_space.
  repeat match goal with
  | |- context [?a <=? ?b] => destruct (Z.leb_spec a b); try lia
  | |- context [?a =? ?b] => destruct (Z.eqb_spec a b); try lia
  end; done.
Qed.

(** A character that is no letter of ASCII is the upper case of itself
    alone. *)
Lemma upper_mark c k :
  ~ (65 <= k <= 90) -> ~ (97 <= k <= 122) -> (upper c =? k) = (c =? k).
Proof.
  intros H1 H2. unfold upper.
  destruct ((97 <=? c) && (c <=? 122)) eqn:Hc; [|done].
  apply andb_true_iff in Hc as [H3%Z.leb_le H4%Z.leb_le].
  destruct (Z.eqb_spec (c - 32) k), (Z.eqb_spec c k); lia.
Qed.

Lemma upper_is_quote c : is_quote (upper c) = is_quote c.
Proof. unfold is_quote. by rewrite !upper_mark by lia. Qed.

Lemma upper_is_comma c : is_comma (upper c) = is_comma c.
Proof. unfold is_comma. by rewrite !upper_mark by lia. Qed.

Lemma upper_is_surrogate c : is_surrogate (upper c) = is_surrogate c.
Proof.
  unfold upper. destruct ((97 <=? c) && (c <=? 122)) eqn:Hc; [|done].
  apply andb_true_iff in Hc as [H1%Z.leb_le H2%Z.leb_le].
  unfold is_surrogate.
  destruct (Z.leb_spec 0xd800 (c - 32)), (Z.leb_spec 0xd800 c); simpl; lia.
Qed.

Lemma upper_quote c : is_quote c = true -> upper c = c.
Proof.
  unfold is_quote. intros [->%Z.eqb_eq| ->%Z.eqb_eq]%orb_true_iff; done.
Qed.

Lemma upper_closing q s :
  is_quote q = true -> closing q (map upper s) = closing q s.
Proof.
  intros Hq.
  assert (~ (65 <= q <= 90) /\ ~ (97 <= q <= 122)) as [Hq1 Hq2].
  { unfold is_quote in Hq. apply orb_true_iff in Hq as [->%Z.eqb_eq| ->%Z.eqb_eq]; lia. }
  assert (forall n s, (length s <= n)%nat ->
            closing q (map upper s) = closing q s) as Hn; [|by apply (Hn (length s))].
  clear s. induction n as [|n IH]; intros [|c s] Hlen; simpl in *; try done; [lia|].
  rewrite (upper_mark c q Hq1 Hq2), (upper_mark c 92) by lia.
  destruct (c =? q); [done|]. destruct (c =? 92).
  - destruct s as [|d s]; [done|]. simpl in *.
    rewrite (upper_mark d 10) by lia. destruct (d =? 10); [done|].
    rewrite IH by lia. done.
  - rewrite IH by lia. done.
Qed.

Lemma upper_push c l : push (upper c) (map (map upper) l) = map (map upper) (push c l).
Proof. by destruct l. Qed.

Lemma upper_scan st s : scan st (map upper s) = map (map upper) (scan st s).
Proof.
  revert st. induction s as [|c s IH]; intros st; simpl; [by destruct st|].
  rewrite upper_is_space, upper_is_quote.
  assert (is_quote c = true ->
          forall l, push c (map (map upper) l) = map (map upper) (push c l))
    as Hpush.
  { intros Hq l. by rewrite <- upper_push, (upper_quote c Hq). }
  destruct st as [|b|n|]; simpl.
  - destruct (is_space c); [apply IH|]. destruct (is_quote c) eqn:Hq.
    + rewrite (upper_quote c Hq), (upper_closing c s Hq).
      destruct (closing c s); by rewrite IH, Hpush.
    + by rewrite IH, upper_push.
  - destruct (is_space c); [by rewrite IH|]. destruct (is_quote c) eqn:Hq.
    + rewrite (upper_quote c Hq), (upper_closing c s Hq).
      destruct (closing c s); [|destruct b]; simpl; by rewrite IH, Hpush.
    + by rewrite IH, upper_push.
  - destruct n as [|[|n]]; by rewrite IH, upper_push.
  - destruct (is_space c); by rewrite IH, ?upper_push.
Qed.

Section Strips.
Variable chars : Z -> bool.
Hypothesis upper_chars : forall c, chars (upper c) = chars c.

Lemma upper_lstrip s : lstrip chars (map upper s) = map upper (lstrip chars s).
Proof.
  induction s as [|c s IH]; simpl; [done|]. rewrite upper_chars.
  by destruct (chars c).
Qed.

Lemma upper_strip s : strip chars (map upper s) = map upper (strip chars s).
Proof.
  unfold strip, rstrip. by rewrite upper_lstrip, <- map_rev, upper_lstrip, map_rev.
Qed.

Lemma upper_pieces s : pieces chars (map upper s) = map (map upper) (pieces chars s).
Proof.
  induction s as [|c s IH]; simpl; [done|]. rewrite upper_chars, IH.
  destruct (chars c); [done | apply upper_push].
Qed.

End Strips.

Lemma upper_is_quoted t : is_quoted (map upper t) = is_quoted t.
Proof.
  destruct t as [|c t]; [done|].
  change (is_quoted (map upper (c :: t)))
    with (is_quote (upper c)
          && bool_decide (last (upper <$> (c :: t)) = Some (upper c))).
  change (is_quoted (c :: t))
    with (is_quote c && bool_decide (last (c :: t) = Some c)).
  rewrite upper_is_quote. destruct (is_quote c) eqn:Hq; [|done].
  rewrite (upper_quote c Hq), fmap_last. f_equal. apply bool_decide_ext.
  assert (~ (65 <= c <= 90) /\ ~ (97 <= c <= 122)) as [Hq1 Hq2].
  { unfold is_quote in Hq. apply orb_true_iff in Hq as [->%Z.eqb_eq| ->%Z.eqb_eq]; lia. }
  destruct (last (c :: t)) as [d|]; simpl; [|done].
  pose proof (upper_mark d c Hq1 Hq2) as Hd.
  split; intros [= Heq]; f_equal.
  - apply Z.eqb_eq. rewrite <- Hd. by apply Z.eqb_eq.
  - apply Z.eqb_eq. rewrite Hd. by apply Z.eqb_eq.
Qed.

Lemma upper_replace2 a b new s :
  ~ (65 <= a <= 90) -> ~ (97 <= a <= 122) ->
  ~ (65 <= b <= 90) -> ~ (97 <= b <= 122) -> map upper new = new ->
  replace2 a b new (map upper s) = map upper (replace2 a b new s).
Proof.
  intros Ha1 Ha2 Hb1 Hb2 Hnew.
  assert (forall n s, (length s <= n)%nat ->
            replace2 a b new (map upper s) = map upper (replace2 a b new s))
    as Hn; [|by apply (Hn (length s))].
  clear s. induction n as [|n IH]; intros [|c [|d s]] Hlen; simpl in *;
    try done; try lia.
  rewrite (upper_mark c a), (upper_mark d b) by done.
  destruct ((c =? a) && (d =? b)).
  - rewrite map_app, Hnew. f_equal. apply IH. lia.
  - simpl. f_equal. apply (IH (d :: s)). simpl. lia.
Qed.

Lemma upper_removelast s : removelast (map upper s) = map upper (removelast s).
Proof.
  induction s as [|c s IH]; [done|]. destruct s as [|d s]; [done|].
  change (removelast (map upper (c :: d :: s)))
    with (upper c :: removelast (map upper (d :: s))).
  by rewrite IH.
Qed.

Lemma upper_unescape t :
  is_quoted t = true ->
  unescape_string_literal (map upper t) = map upper (unescape_string_literal t).
Proof.
  destruct t as [|c t]; [done|]. unfold is_quoted.
  intros [Hq _]%andb_true_iff. unfold unescape_string_literal. simpl.
  rewrite (upper_quote c Hq), upper_removelast.
  assert (~ (65 <= c <= 90) /\ ~ (97 <= c <= 122)) as [Hq1 Hq2].
  { unfold is_quote in Hq. apply orb_true_iff in Hq as [->%Z.eqb_eq| ->%Z.eqb_eq]; lia. }
  rewrite (upper_replace2 92 c [c]); try lia; [|simpl; by rewrite (upper_quote c Hq)].
  by rewrite (upper_replace2 92 92 [92]) by (done || lia).
Qed.

Lemma upper_nonempty (l : list pystr) :
  List.filter nonempty (map (map upper) l) = map (map upper) (List.filter nonempty l).
Proof.
  induction l as [|w l IH]; [done|]. simpl. rewrite IH. by destruct w.
Qed.

Lemma upper_sanitize term : sanitize (map upper term) = map (map upper) (sanitize term).
Proof.
  unfold sanitize. cbv zeta.
  rewrite (upper_strip is_comma upper_is_comma), upper_is_quoted.
  destruct (is_quoted (strip is_comma term)) eqn:Hq.
  - by rewrite upper_unescape.
  - rewrite (upper_pieces is_comma upper_is_comma), upper_nonempty, !map_map.
    apply map_ext. intros w. apply (upper_strip is_space upper_is_space).
Qed.

Lemma upper_search_smart_split s :
  search_smart_split (map upper s) = map (map upper) (search_smart_split s).
Proof.
  unfold search_smart_split, smart_split. rewrite upper_scan.
  induction (scan Between s) as [|w l IH]; [done|]. simpl.
  by rewrite map_app, upper_sanitize, IH.
Qed.

Lemma upper_existsb (p : Z -> bool) s :
  (forall c, p (upper c) = p c) -> existsb p (map upper s) = existsb p s.
Proof. intros Hp. induction s as [|c s IH]; simpl; [done|]. by rewrite Hp, IH. Qed.

(** The terms of two search strings that differ in the case of their
    letters differ in the case of their letters. *)
Lemma upper_get_search_terms q1 q2 s1 s2 :
  get q1 (str "search") = Some s1 -> get q2 (str "search") = Some s2 ->
  map upper s1 = map upper s2 ->
  match get_search_terms q1, get_search_terms q2 with
  | Ok t1, Ok t2 => map (map upper) t1 = map (map upper) t2
  | Raise e1, Raise e2 => e1 = e2
  | _, _ => False
  end.
Proof.
  intros H1 H2 Hup. unfold get_search_terms. rewrite H1, H2. simpl default.
  assert (forall s,
            existsb (fun c => c =? 0) s || existsb is_surrogate s
            = existsb (fun c => c =? 0) (map upper s)
              || existsb is_surrogate (map upper s)) as Hvalid.
  { intros s. rewrite !upper_existsb; [done | apply upper_is_surrogate |].
    intros c. apply upper_mark; lia. }
  rewrite (Hvalid s1), (Hvalid s2), Hup.
  destruct (_ || _); [done|].
  by rewrite <- !upper_search_smart_split, Hup.
Qed.

(** *** The search filter *)

Lemma searchable_spec s :
  existsb (fun c => c =? 0) s || existsb is_surrogate s = false <-> searchable s.
Proof.
  unfold searchable. rewrite orb_false_iff. induction s as [|c s IH]; simpl.
  - split; [constructor | done].
  - rewrite !orb_false_iff, Forall_cons, <- IH. unfold is_surrogate.
    rewrite andb_false_iff, Z.eqb_neq, Z.leb_gt, Z.leb_gt.
    split; [intros [[? ?] [? ?]] | intros [[? ?] [? ?]]]; repeat split; try done; lia.
Qed.




Lemma filter_all {A} (l : list A) : List.filter (fun _ => true) l = l.
Proof. induction l as [|x l IH]; simpl; congruence. Qed.

Section Search.
Context `{Datastore}.

Lemma matches_term_spec db s term :
  matches_term db s term = true <-> owner_matches db s term.
Proof.
  unfold matches_term, owner_matches, icontains. destruct (owner db s) as [u|].
  - rewrite !orb_true_iff, !contains_spec. split.
    + intros Hm. exists u. tauto.
    + intros (u' & [= <-] & Hm). tauto.
  - split; [done | by intros (u & Hu & _)].
Qed.

(** The search filter, once the terms are known. *)
Lemma search_filter_Ok db query_params qs terms :
  get_search_terms query_params = Ok terms ->
  search_filter db query_params qs
  = Ok (List.filter (fun s => forallb (matches_term db s) terms) qs).
Proof.
  intros Ht. unfold search_filter. rewrite Ht. simpl.
  destruct terms; [|done]. simpl. by rewrite filter_all.
Qed.

Lemma search_filter_elem_of db query_params qs terms selected s :
  get_search_terms query_params = Ok terms ->
  search_filter db query_params qs = Ok selected ->
  s ∈ selected <->
  s ∈ qs /\ forall term, term ∈ terms -> owner_matches db s term.
Proof.
  intros Ht. rewrite (search_filter_Ok _ _ _ _ Ht). intros [= <-].
  rewrite list_elem_of_In, filter_In, forallb_forall, <- list_elem_of_In.
  split; intros [Hin Hm]; (split; [done|]); intros term Hterm.
  - apply matches_term_spec, Hm. by apply list_elem_of_In.
  - apply matches_term_spec, Hm. by apply list_elem_of_In.
Qed.


End Search.

(** * The properties on the archive *)

Lemma no_live_empty now key : no_live ∅ now key.
Proof. intros e He. by rewrite lookup_empty in He. Qed.

Lemma archive_list_computed :
  @ListModelMixin_list sort_stored decode_offset archive [] = Ok archive_list.
Proof. vm_compute. reflexivity. Qed.

Example search_doe :
  @search_filter sort_stored archive [(str "search", [str "doe"])]
    (stories archive)
  = Ok [s101; s102].
Proof. vm_compute. reflexivity. Qed.

Example search_TESTUSER :
  @search_filter sort_stored archive [(str "search", [str "TESTUSER"])]
    (stories archive)
  = Ok [s104].
Proof. vm_compute. reflexivity. Qed.

(** A phrase in quotes is searched as it stands: the full name of [john]
    holds it, and the user name does not count for a part of it. *)
Example search_phrase :
  @search_filter sort_stored archive [(str "search", [34 :: str "A. Smith" ++ [34]])]
    (stories archive)
  = Ok [s105]
  /\ @search_filter sort_stored archive
       [(str "search", [34 :: str "john smith" ++ [34]])] (stories archive)
     = Ok [].
Proof. split; vm_compute; reflexivity. Qed.

(** The upper-casing of the server folds the letters outside ASCII too. *)
Example icontains_latin1 :
  @icontains sort_stored [90; 111; 233] [90; 79; 201] = true.
Proof. vm_compute. reflexivity. Qed.

Lemma list_reads_through_cache_witness :
  @StoryListView_list sort_stored decode_offset archive_later 10 Up Up [] warm_world
  = (Ok archive_list, warm_world)
  /\ exists w',
       @StoryListView_list sort_stored decode_offset archive 0 Up Up [] empty_world
       = (Ok archive_list, w')
       /\ computed w' = 1%nat
       /\ cache w' !! to_string (cache_key [])
          = Some {| ce_value := archive_list; ce_expires := 0 + 30 |}
       /\ (forall k, k <> to_string (cache_key []) ->
                      cache w' !! k = cache empty_world !! k)
       /\ (forall t, cache_get Up t (cache w') (to_string (cache_key []))
                     = Ok (if t <? 0 + 30 then Some archive_list else None))
       /\ (forall db' t, 0 <= t < 0 + 30 ->
             @StoryListView_list sort_stored decode_offset db' t Up Up [] w'
             = (Ok archive_list, w')).
Proof.
  split.
  - apply (list_reads_through_cache (H := sort_stored)).
    exists {| ce_value := archive_list; ce_expires := 30 |}.
    split; [apply lookup_singleton_eq | split; [simpl; lia | reflexivity]].
  - apply (list_reads_through_cache (H := sort_stored) decode_offset archive 0 []
             empty_world).
    + apply no_live_empty.
    + apply archive_list_computed.
Defined.

(** C3, as the spec has it, fails: the archive lists without error, and yet
    the request fails when the store fails the read, and when it fails the
    write. *)
Lemma cache_failure_fails_request :
  @ListModelMixin_list sort_stored decode_offset archive [] = Ok archive_list
  /\ (@StoryListView_list sort_stored decode_offset archive 0 Down Up []
        empty_world).1 = Raise CacheError
  /\ (@StoryListView_list sort_stored decode_offset archive 0 Up Down []
        empty_world).1 = Raise CacheError.
Proof.
  split; [apply archive_list_computed|]. split; [reflexivity|].
  unfold StoryListView_list.
  rewrite cache_get_no_live by apply no_live_empty.
  by rewrite archive_list_computed.
Qed.

Lemma cache_failure_propagates_witness :
  @StoryListView_list sort_stored decode_offset archive 0 Down Up [] empty_world
  = (Raise CacheError, empty_world)
  /\ @StoryListView_list sort_stored decode_offset archive 0 Up Down [] empty_world
     = (Raise CacheError, {| cache := ∅; computed := 1 |}).
Proof.
  split.
  - apply (proj1 (cache_failure_propagates (H := sort_stored) decode_offset
                    archive 0 [] empty_world)).
  - apply (proj2 (cache_failure_propagates (H := sort_stored) decode_offset
                    archive 0 [] empty_world) archive_list).
    + apply no_live_empty.
    + apply archive_list_computed.
Defined.

Lemma no_write_on_error_witness :
  (exists w',
     @StoryListView_list sort_stored decode_offset archive 0 Up Up
       [(str "user", [str "invalid-uuid"])] empty_world
     = (Raise ValidationError, w')
     /\ cache w' = ∅)
  /\ (exists w',
        @StoryListView_list sort_stored decode_offset archive 0 Up Up
          [(str "cursor", [str "not-a-cursor"])] empty_world
        = (Raise Http404, w')
        /\ cache w' = ∅).
Proof.
  split.
  - apply (no_write_on_error (H := sort_stored)).
    + apply no_live_empty.
    + vm_compute. reflexivity.
  - apply (no_write_on_error (H := sort_stored)).
    + apply no_live_empty.
    + vm_compute. reflexivity.
Defined.

(** A goal that holds of each story of the archive, checked story by story. *)
Ltac each_story :=
  let s := fresh "s" in
  let Hs := fresh "Hs" in
  intros s Hs; revert s Hs; apply Forall_forall;
  repeat constructor; intros; vm_compute; try discriminate; try reflexivity.

Lemma unknown_or_bare_source_witness :
  (@StoryDetailView_retrieve archive (str "999") = Raise Http404
   /\ @StorySimilarView_get_queryset sort_stored archive (str "999") = Ok []
   /\ @StorySimilarView_get sort_stored archive (str "999") [] = Ok empty_page)
  /\ (@StorySimilarView_get_queryset sort_stored archive (str "104") = Ok []
      /\ @StorySimilarView_get sort_stored archive (str "104")
           [(str "page", [str "1"])] = Ok empty_page).
Proof.
  split.
  - destruct (proj1 (unknown_or_bare_source (H := sort_stored) archive
                       (str "999") [])) as (H1 & H2 & H3); [each_story|].
    split; [exact H1 | split; [exact H2 | apply H3; exact I]].
  - destruct (proj2 (unknown_or_bare_source (H := sort_stored) archive
                       (str "104") [(str "page", [str "1"])]) s104)
      as (H1 & H2); [reflexivity | reflexivity |].
    split; [exact H1 | apply H2; reflexivity].
Defined.

Lemma similar_result_set_witness :
  exists qs,
    @StorySimilarView_get_queryset sort_stored archive (str "101") = Ok qs
    /\ qs ≡ₚ filter (fun s => s <> s101 /\ is_Some (embedding s)) (stories archive)
    /\ (forall s, s ∈ qs <->
                  s ∈ stories archive /\ s <> s101 /\ is_Some (embedding s))
    /\ (s101 ∉ qs)
    /\ (forall s, s ∈ qs -> embedding s <> None).
Proof.
  apply (similar_result_set (H := sort_stored) archive (str "101") s101
           [0%Q; 0%Q]); reflexivity.
Defined.

Example similar_to_101 :
  @StorySimilarView_get_queryset sort_stored archive (str "101")
  = Ok [s102; s103; s105].
Proof. vm_compute. reflexivity. Qed.

(** C6, as the spec has it, fails at a tie: the stories 102 and 103 are at
    the same distance of the story 101, and two datastores that both honour
    the ordering of the query rank them in the two possible ways. *)
Lemma tie_order_not_fixed :
  (@L2Distance sort_stored [1%Q; 0%Q] [0%Q; 0%Q]
   == @L2Distance sort_stored [0%Q; 1%Q] [0%Q; 0%Q])%Q
  /\ @StorySimilarView_get_queryset sort_stored archive (str "101")
     = Ok [s102; s103; s105]
  /\ @StorySimilarView_get_queryset sort_reversed archive (str "101")
     = Ok [s103; s102; s105].
Proof. repeat split; vm_compute; reflexivity. Qed.

Lemma similar_ranking_witness :
  (forall a b ea eb,
     embedding a = Some ea -> embedding b = Some eb ->
     ((@L2Distance sort_stored ea [0%Q; 0%Q]
       <= @L2Distance sort_stored eb [0%Q; 0%Q])%Q ->
      (@similarity_score sort_stored [0%Q; 0%Q] b
       <= @similarity_score sort_stored [0%Q; 0%Q] a)%Q)
     /\ ((@similarity_score sort_stored [0%Q; 0%Q] b
          < @similarity_score sort_stored [0%Q; 0%Q] a)%Q ->
         (@L2Distance sort_stored ea [0%Q; 0%Q]
          < @L2Distance sort_stored eb [0%Q; 0%Q])%Q))
  /\ exists qs,
       @StorySimilarView_get_queryset sort_stored archive (str "101") = Ok qs
       /\ sorted_desc (@similarity_score sort_stored [0%Q; 0%Q]) qs
       /\ forall i j a b,
            (i < j)%nat -> qs !! i = Some a -> qs !! j = Some b ->
            exists ea eb,
              embedding a = Some ea /\ embedding b = Some eb
              /\ (@similarity_score sort_stored [0%Q; 0%Q] b
                  <= @similarity_score sort_stored [0%Q; 0%Q] a)%Q
              /\ ((@L2Distance sort_stored eb [0%Q; 0%Q]
                   < @L2Distance sort_stored ea [0%Q; 0%Q])%Q ->
                  (@similarity_score sort_stored [0%Q; 0%Q] a
                   == @similarity_score sort_stored [0%Q; 0%Q] b)%Q).
Proof.
  apply (similar_ranking (H := sort_stored) archive (str "101") s101
           [0%Q; 0%Q]); reflexivity.
Defined.

(** The order of the scores is not the order of the distances: of two
    stories very near the source the one is three times as far as the other,
    both scores are rounded to 1, and a datastore that honours the ordering
    of the query puts the farther one first. *)
Example scores_round_together :
  (@L2Distance sort_reversed [1 # 2 ^ 70; 0%Q] [0%Q; 0%Q] == 1 # 2 ^ 70)%Q
  /\ (@L2Distance sort_reversed [3 # 2 ^ 70; 0%Q] [0%Q; 0%Q] == 3 # 2 ^ 70)%Q
  /\ (@similarity_score sort_reversed [0%Q; 0%Q] near_story == 1)%Q
  /\ (@similarity_score sort_reversed [0%Q; 0%Q] far_story == 1)%Q
  /\ @StorySimilarView_get_queryset sort_reversed close_archive (str "201")
     = Ok [far_story; near_story]
  /\ @StorySimilarView_get_queryset sort_stored close_archive (str "201")
     = Ok [near_story; far_story].
Proof. repeat split; vm_compute; reflexivity. Qed.

Lemma page_size_default_and_ceiling_witness :
  get_page_size [] = 20
  /\ get_page_size [(str "page_size", [str "35"])] = Z.min 35 100
  /\ get_page_size [(str "page_size", [str "200"])] = 100
  /\ Z.of_nat (length (p_results archive_list)) <= get_page_size []
  /\ (forall data,
        @StorySimilarView_get sort_stored archive (str "101")
          [(str "page_size", [str "200"])] = Ok data ->
        Z.of_nat (length (p_results data)) <= 100).
Proof.
  repeat apply conj.
  - apply (proj1 (page_size_default_and_ceiling (H := sort_stored) decode_offset
                    archive (str "101") [])). reflexivity.
  - apply (proj1 (proj2 (page_size_default_and_ceiling (H := sort_stored)
                           decode_offset archive (str "101")
                           [(str "page_size", [str "35"])])) (str "35"));
      [reflexivity | reflexivity | lia].
  - apply (proj1 (proj2 (proj2 (page_size_default_and_ceiling
                                  (H := sort_stored) decode_offset archive
                                  (str "101")
                                  [(str "page_size", [str "200"])])))).
    reflexivity.
  - apply (proj1 (proj2 (proj2 (proj2 (page_size_default_and_ceiling
                                         (H := sort_stored) decode_offset
                                         archive (str "101") []))))).
    apply archive_list_computed.
  - intros data Hdata.
    apply (proj2 (proj2 (proj2 (proj2 (page_size_default_and_ceiling
                                         (H := sort_stored) decode_offset
                                         archive (str "101")
                                         [(str "page_size", [str "200"])])))))
      in Hdata.
    exact Hdata.
Defined.

Lemma user_flags_witness :
  flags_current archive (annotate archive johndoe)
  /\ flags_current archive (annotate archive janedoe)
  /\ flags_current archive (annotate archive john)
  /\ @StoryListView_list sort_stored decode_offset archive_later 10 Up Up []
       warm_world = (Ok archive_list, warm_world).
Proof.
  split; [|split; [|split]].
  - apply (proj1 (user_flags (H := sort_stored) decode_offset archive 0
                    (str "101") [] empty_world) (serialize archive s101));
      reflexivity.
  - destruct (@StorySimilarView_get sort_stored archive (str "101") [])
      as [page|] eqn:Hpage; [|vm_compute in Hpage; discriminate].
    apply (proj1 (proj2 (user_flags (H := sort_stored) decode_offset archive 0
                           (str "101") [] empty_world))
             page (serialize archive s102)); [exact Hpage | | reflexivity].
    vm_compute in Hpage. injection Hpage as <-. apply list_elem_of_here.
  - apply (proj1 (proj2 (proj2 (user_flags (H := sort_stored) decode_offset
                                  archive 0 (str "101") [] empty_world)))
             archive_list
             {| cache := <[to_string (cache_key []) :=
                             {| ce_value := archive_list; ce_expires := 0 + 30 |}]> ∅;
                computed := 1 |}
             (serialize archive s105)).
    + apply no_live_empty.
    + apply (list_miss (H := sort_stored) decode_offset archive 0 [] empty_world);
        [apply no_live_empty | apply archive_list_computed].
    + apply list_elem_of_here.
    + reflexivity.
  - apply (proj2 (proj2 (proj2 (user_flags (H := sort_stored) decode_offset
                                  archive_later 10 (str "101") [] warm_world)))).
    exists {| ce_value := archive_list; ce_expires := 30 |}.
    split; [apply lookup_singleton_eq | split; [simpl; lia | reflexivity]].
Defined.

(** C8, as the spec has it, fails on a cache hit. The list of the archive is
    computed at time 0, while [johndoe] has no history; a record is written
    to the history; the list asked again at time 10 is served from the cache
    and still says that [johndoe] has none. *)
Lemma stale_flags_from_cache :
  let w1 := (@StoryListView_list sort_stored decode_offset archive 0 Up Up []
               empty_world).2 in
  exists page d au,
    (@StoryListView_list sort_stored decode_offset archive_later 10 Up Up []
       w1).1 = Ok page
    /\ d ∈ p_results page /\ sd_user d = Some au
    /\ has_history au = false
    /\ (exists h, h ∈ user_history archive_later /\ h_uuid h = uuid (au_user au))
    /\ ~ flags_current archive_later au.
Proof.
  rewrite (list_miss (H := sort_stored) decode_offset archive 0 [] empty_world
             archive_list (no_live_empty _ _) archive_list_computed).
  cbn [snd].
  rewrite (list_hit (H := sort_stored) decode_offset archive_later 10 Up [] _
             archive_list).
  - exists archive_list, (serialize archive s101), (annotate archive johndoe).
    split; [reflexivity|]. split.
    { unfold archive_list. simpl p_results.
      do 4 apply list_elem_of_further. apply list_elem_of_here. }
    split; [reflexivity|]. split; [reflexivity|].
    assert (exists h, h ∈ user_history archive_later
                      /\ h_uuid h = uuid (au_user (annotate archive johndoe)))
      as Hh by (eexists; split; [apply list_elem_of_here | reflexivity]).
    split; [exact Hh|].
    intros [_ [_ Hflag]]. specialize (Hflag Hh). discriminate Hflag.
  - eexists. split; [apply lookup_insert_eq|]. split; [simpl; lia | reflexivity].
Qed.


Lemma unquoted_bool s : forallb (fun c => negb (is_quote c)) s = true -> unquoted s.
Proof.
  rewrite forallb_forall. intros Hs. apply Forall_forall. intros c Hc.
  apply list_elem_of_In, Hs, negb_true_iff in Hc. unfold is_quote in Hc.
  apply orb_false_iff in Hc as [H1%Z.eqb_neq H2%Z.eqb_neq]. done.
Qed.





(** * Further properties of the read path *)

(** ** The shape of the cache key *)

Lemma le_bytes_length n x : length (hashlib.le_bytes n x) = n.
Proof. revert x. induction n as [|n IH]; intros x; simpl; [done|]. by rewrite IH. Qed.

Lemma md5_length msg : length (hashlib.md5 msg) = 16%nat.
Proof.
  unfold hashlib.md5. destruct (hashlib.blocks _ _ _) as [[[a b] c] d].
  by rewrite !length_app, !le_bytes_length.
Qed.

Lemma hexdigit_is_hex d : 0 <= d < 16 -> is_hex (json.hexdigit d).
Proof.
  unfold is_hex, json.hexdigit. intros Hd. destruct (Z.ltb_spec d 10); lia.
Qed.

Lemma hexdigest_shape digest :
  Forall byte digest ->
  length (hashlib.hexdigest digest) = (2 * length digest)%nat
  /\ Forall is_hex (hashlib.hexdigest digest).
Proof.
  unfold hashlib.hexdigest.
  induction 1 as [|b l Hb Hl [IHlen IHhex]]; [by split|]. simpl. split.
  - rewrite IHlen. lia.
  - unfold byte in Hb.
    constructor; [apply hexdigit_is_hex; dlia|].
    constructor; [apply hexdigit_is_hex; dlia|]. done.
Qed.

(** X1. Whatever the query string, the cache key of the list endpoint is
    the prefix [story_list_] followed by 32 lower-case hexadecimal digits:
    43 characters in all. *)
Theorem cache_key_shape (params : list item) :
  exists h,
    cache_key params = str "story_list_" ++ h
    /\ length h = 32%nat /\ Forall is_hex h
    /\ length (cache_key params) = 43%nat.
Proof.
  exists (md5_hexdigest (params_key params)).
  destruct (hexdigest_shape (hashlib.md5 (encode (params_key params)))
              (md5_bytes _)) as [Hlen Hhex].
  rewrite md5_length in Hlen. unfold cache_key, md5_hexdigest.
  repeat split; [done..|]. rewrite length_app, Hlen. reflexivity.
Qed.

(** ** The cache keys are few

    A cache key is a text of 43 characters, so there are finitely many of
    them, and more parameter sets than that: two parameter sets that differ
    and have the same cache key exist, though none is known. That different
    sets have different keys holds where MD5 tells their texts apart, which
    the theorem on the cache key takes for its condition. *)

Definition hex_digits : list Z :=
  [48; 49; 50; 51; 52; 53; 54; 55; 56; 57; 97; 98; 99; 100; 101; 102].

(** The texts of [n] hexadecimal digits. *)
Fixpoint hex_texts (n : nat) : list pystr :=
  match n with
  | O => [[]]
  | S n' => flat_map (fun c => map (cons c) (hex_texts n')) hex_digits
  end.

Lemma hex_texts_complete h : Forall is_hex h -> h ∈ hex_texts (length h).
Proof.
  induction 1 as [|c h Hc Hh IH]; [apply list_elem_of_here|].
  change (hex_texts (length (c :: h)))
    with (flat_map (fun c' => map (cons c') (hex_texts (length h))) hex_digits).
  apply list_elem_of_In, in_flat_map. exists c. split.
  - unfold is_hex in Hc. unfold hex_digits.
    assert (c = 48 \/ c = 49 \/ c = 50 \/ c = 51 \/ c = 52 \/ c = 53 \/ c = 54
            \/ c = 55 \/ c = 56 \/ c = 57 \/ c = 97 \/ c = 98 \/ c = 99
            \/ c = 100 \/ c = 101 \/ c = 102) as Hcases by lia.
    simpl. intuition.
  - apply in_map. by apply list_elem_of_In.
Qed.

Lemma repeated_element {A} `{EqDecision A} (l : list A) :
  ~ NoDup l ->
  exists i j x, (i < j)%nat /\ l !! i = Some x /\ l !! j = Some x.
Proof.
  induction l as [|a l IH]; intros Hl; [destruct Hl; constructor|].
  destruct (decide (a ∈ l)) as [Hin|Hnin].
  - apply list_elem_of_lookup_1 in Hin as [j Hj].
    exists 0%nat, (S j), a. split; [lia|]. by split.
  - destruct IH as (i & j & x & Hij & Hi & Hj).
    { intros Hnd. apply Hl. by constructor. }
    exists (S i), (S j), x. split; [lia|]. by split.
Qed.

(** More values than places: one place is taken twice. *)
Lemma pigeonhole {A} `{EqDecision A} (f : nat -> A) (places : list A) :
  (forall n, f n ∈ places) -> exists i j, (i < j)%nat /\ f i = f j.
Proof.
  intros Hf. set (l := f <$> seq 0 (S (length places))).
  destruct (repeated_element l) as (i & j & x & Hij & Hi & Hj).
  - intros Hnd.
    assert (l ⊆+ places) as Hsub.
    { apply NoDup_submseteq; [done|]. intros y Hy.
      apply list_elem_of_fmap in Hy as (n & -> & _). apply Hf. }
    apply submseteq_length in Hsub. subst l.
    rewrite length_fmap, length_seq in Hsub. lia.
  - exists i, j. split; [done|]. subst l.
    rewrite list_lookup_fmap in Hi, Hj.
    destruct (seq 0 (S (length places)) !! i) as [i'|] eqn:Ei; [|done].
    destruct (seq 0 (S (length places)) !! j) as [j'|] eqn:Ej; [|done].
    apply lookup_seq in Ei as [-> _]. apply lookup_seq in Ej as [-> _].
    simpl in Hi, Hj. congruence.
Qed.

Theorem some_cache_keys_coincide :
  exists p1 p2 : list item,
    is_dict p1 /\ is_dict p2 /\ Forall item_ok p1 /\ Forall item_ok p2
    /\ ~ (forall it, it ∈ p1 <-> it ∈ p2)
    /\ cache_key p1 = cache_key p2.
Proof.
  set (params := fun n : nat => [(str "cursor", [repeat 48 n])] : list item).
  destruct (pigeonhole (fun n => cache_key (params n))
              (map (app (str "story_list_")) (hex_texts 32)))
    as (i & j & Hij & Hkey).
  { intros n. unfold cache_key, md5_hexdigest.
    apply list_elem_of_In, in_map, list_elem_of_In.
    destruct (hexdigest_shape (hashlib.md5 (encode (params_key (params n))))
                (md5_bytes _)) as [Hlen Hhex].
    rewrite md5_length in Hlen. change (2 * 16)%nat with 32%nat in Hlen.
    rewrite <- Hlen. by apply hex_texts_complete. }
  assert (forall n, is_dict (params n)) as Hdict.
  { intros n. unfold is_dict, params. simpl. apply NoDup_singleton. }
  assert (forall n, Forall item_ok (params n)) as Hok.
  { intros n. constructor; [|constructor]. split; simpl.
    - apply Forall_forall. intros c Hc.
      apply list_elem_of_In, in_map_iff in Hc as (a & <- & _).
      pose proof (N_ascii_bounded a). unfold scalar. lia.
    - constructor; [|constructor]. apply Forall_forall.
      intros c Hc. apply list_elem_of_In, repeat_spec in Hc as ->.
      unfold scalar. lia. }
  exists (params i), (params j). repeat (split; [done|]). split; [|done].
  intros Hsame.
  assert ((str "cursor", [repeat 48 i]) ∈ params j) as Hin
    by (apply Hsame, list_elem_of_here).
  apply list_elem_of_singleton in Hin. injection Hin as Hin.
  apply (f_equal length) in Hin. rewrite !repeat_length in Hin. lia.
Qed.

Lemma hexdigit_printable d : 0 <= d < 16 -> 32 <= json.hexdigit d <= 126.
Proof. unfold json.hexdigit. intros Hd. destruct (Z.ltb_spec d 10); lia. Qed.

Lemma escape_u_printable n : printable (json.escape_u n).
Proof.
  unfold json.escape_u, json.hex4.
  repeat constructor; try lia; apply hexdigit_printable; dlia.
Qed.

Lemma replace_printable c : printable (json.replace c).
Proof.
  unfold json.replace.
  repeat case_match; try apply escape_u_printable;
    try (apply Forall_app; split; apply escape_u_printable);
    repeat constructor; lia.
Qed.

Lemma encode_basestring_printable s : printable (json.encode_basestring_ascii s).
Proof.
  unfold json.encode_basestring_ascii. constructor; [lia|].
  apply Forall_app; split; [|repeat constructor; lia].
  induction s as [|c s IH]; simpl; [constructor|].
  apply Forall_app; split; [apply replace_printable | done].
Qed.

Lemma dumps_list_printable {A} (enc : A -> pystr) l :
  (forall x, printable (enc x)) -> printable (json.dumps_list enc l).
Proof.
  intros Henc.
  assert (forall xs, printable (json.dumps_rest enc xs)) as Hrest.
  { intros xs. unfold json.dumps_rest.
    apply Forall_app; split; [|repeat constructor; lia].
    induction xs as [|y xs IH]; simpl; [constructor|].
    repeat (constructor; [lia|]). apply Forall_app; split; [apply Henc | done]. }
  destruct l as [|x xs]; simpl.
  - repeat constructor; lia.
  - constructor; [lia|]. apply Forall_app; split; [apply Henc | apply Hrest].
Qed.

(** X2. The text that is digested is printable ASCII, whatever characters
    the parameters hold (control characters, quotes and everything outside
    ASCII are escaped), so [encode()] gives one byte for each character. *)
Theorem digested_text_printable (params : list item) :
  printable (params_key params)
  /\ encode (params_key params) = params_key params.
Proof.
  split; [|apply encode_ascii, dumps_ascii].
  apply dumps_list_printable. intros [k vs]. unfold json.dumps_item.
  constructor; [lia|].
  apply Forall_app; split; [apply encode_basestring_printable|].
  apply Forall_app; split; [repeat constructor; lia|].
  apply Forall_app; split; [|repeat constructor; lia].
  apply dumps_list_printable, encode_basestring_printable.
Qed.


(** ** The cache key, from the query string on *)

Lemma getlist_appendlist d k v k0 :
  getlist (appendlist d k v) k0
  = if bool_decide (k = k0) then getlist d k0 ++ [v] else getlist d k0.
Proof.
  induction d as [|[k' vs] d IH]; simpl.
  - by repeat case_bool_decide.
  - destruct (decide (k' = k)) as [->|Hne].
    + rewrite (bool_decide_eq_true_2 (k = k)) by done. simpl.
      by repeat case_bool_decide.
    + rewrite (bool_decide_eq_false_2 (k' = k)) by done. simpl. rewrite IH.
      repeat case_bool_decide; congruence.
Qed.

Lemma getlist_fold q d k0 :
  getlist (fold_left (fun d kv => appendlist d kv.1 kv.2) q d) k0
  = getlist d k0 ++ values_of k0 q.
Proof.
  revert d. induction q as [|[k v] q IH]; intros d; simpl.
  - by rewrite app_nil_r.
  - rewrite IH, getlist_appendlist. simpl.
    case_bool_decide; [by rewrite <- app_assoc | done].
Qed.

Lemma getlist_parse_qs q k : getlist (parse_qs q) k = values_of k q.
Proof. unfold parse_qs. by rewrite getlist_fold. Qed.

Lemma keys_fold q d k0 :
  k0 ∈ (fold_left (fun d kv => appendlist d kv.1 kv.2) q d).*1
  <-> k0 ∈ d.*1 \/ values_of k0 q <> [].
Proof.
  revert d. induction q as [|[k v] q IH]; intros d; simpl.
  - naive_solver.
  - rewrite IH, appendlist_keys.
    destruct (decide (k = k0)) as [->|Hne].
    + rewrite (bool_decide_eq_true_2 (k0 = k0)) by done.
      case_bool_decide; [naive_solver|].
      rewrite elem_of_app, list_elem_of_singleton. naive_solver.
    + rewrite (bool_decide_eq_false_2 (k = k0)) by done.
      case_bool_decide; [done|].
      rewrite elem_of_app, list_elem_of_singleton. naive_solver.
Qed.

Lemma keys_parse_qs q k : k ∈ (parse_qs q).*1 <-> values_of k q <> [].
Proof.
  unfold parse_qs. rewrite keys_fold. simpl. rewrite elem_of_nil. tauto.
Qed.

Lemma dict_item d k vs :
  is_dict d -> (k, vs) ∈ d <-> k ∈ d.*1 /\ getlist d k = vs.
Proof.
  revert k vs. induction d as [|[k' vs'] d IH]; intros k vs Hd; csimpl.
  - split; [by intros ?%elem_of_nil | by intros [?%elem_of_nil _]].
  - apply NoDup_cons in Hd as [Hk' Hd]. rewrite !elem_of_cons, (IH _ _ Hd).
    destruct (decide (k' = k)) as [->|Hne].
    + rewrite bool_decide_eq_true_2 by done. split.
      * intros [[= -> ]|[Hin _]]; [auto | done].
      * intros [_ ->]. by left.
    + rewrite bool_decide_eq_false_2 by done. split.
      * intros [[= ? ?]|[Hin Hg]]; [congruence | auto].
      * intros [[?|Hin] Hg]; [congruence | auto].
Qed.

Lemma getlist_not_key d k : k ∉ d.*1 -> getlist d k = [].
Proof.
  induction d as [|[k' vs] d IH]; csimpl; [done|].
  rewrite not_elem_of_cons. intros [Hne Hk].
  rewrite bool_decide_eq_false_2 by done. by apply IH.
Qed.

Lemma appendlist_item_ok d k v :
  scalar_str k -> scalar_str v -> Forall item_ok d ->
  Forall item_ok (appendlist d k v).
Proof.
  intros Hk Hv. induction 1 as [|[k' vs] d [Hk' Hvs] Hd IH]; simpl.
  - repeat constructor; done.
  - case_bool_decide; constructor; try done.
    split; [done|]. simpl in *. apply Forall_app. split; [done|].
    by constructor.
Qed.

Lemma parse_qs_item_ok q : decoded q -> Forall item_ok (parse_qs q).
Proof.
  unfold parse_qs, decoded.
  assert (Forall item_ok []) as H0 by constructor.
  revert H0. generalize (@nil item).
  induction q as [|[k v] q IH]; intros d Hd Hq; simpl; [done|].
  apply Forall_cons in Hq as [[Hk Hv] Hq].
  apply IH; [|done]. by apply appendlist_item_ok.
Qed.

Lemma same_values_same_items q1 q2 :
  (forall k, values_of k q1 = values_of k q2) ->
  forall it, it ∈ parse_qs q1 <-> it ∈ parse_qs q2.
Proof.
  intros Hv [k vs].
  rewrite !dict_item by apply parse_qs_is_dict.
  by rewrite !keys_parse_qs, !getlist_parse_qs, Hv.
Qed.

(** X3. Two decoded query strings are digested from the same text exactly
    when they give every key the same values in the same order; the order in
    which different keys arrive is immaterial. Such requests share their
    cache key. *)
Theorem digested_text_of_query (q1 q2 : list (pystr * pystr)) :
  decoded q1 -> decoded q2 ->
  (params_key (parse_qs q1) = params_key (parse_qs q2)
   <-> forall k, values_of k q1 = values_of k q2)
  /\ ((forall k, values_of k q1 = values_of k q2) ->
      cache_key (parse_qs q1) = cache_key (parse_qs q2)).
Proof.
  intros Hq1 Hq2.
  assert ((forall k, values_of k q1 = values_of k q2) ->
          parse_qs q1 ≡ₚ parse_qs q2) as Hperm.
  { intros Hv. apply same_items_Permutation; try apply parse_qs_is_dict.
    by apply same_values_same_items. }
  split; [split|].
  - intros Heq k.
    apply params_key_inj in Heq; try by apply parse_qs_item_ok.
    rewrite <- !getlist_parse_qs.
    destruct (decide (k ∈ (parse_qs q1).*1)) as [Hin|Hin].
    + assert ((k, getlist (parse_qs q1) k) ∈ parse_qs q2) as Hit.
      { rewrite <- Heq. apply dict_item; [apply parse_qs_is_dict | done]. }
      apply dict_item in Hit as [_ Hg]; [done | apply parse_qs_is_dict].
    + rewrite (getlist_not_key _ _ Hin). symmetry. apply getlist_not_key.
      by rewrite <- Heq.
  - intros Hv. unfold params_key.
    by rewrite (sorted_order_independent _ _ (Hperm Hv)).
  - intros Hv. by apply cache_key_Permutation, Hperm.
Qed.

Lemma digested_text_of_query_witness :
  let q1 := [(str "user", str "u1"); (str "tag", str "a"); (str "tag", str "b")] in
  let q2 := [(str "tag", str "a"); (str "user", str "u1"); (str "tag", str "b")] in
  (params_key (parse_qs q1) = params_key (parse_qs q2)
   <-> forall k, values_of k q1 = values_of k q2)
  /\ ((forall k, values_of k q1 = values_of k q2) ->
      cache_key (parse_qs q1) = cache_key (parse_qs q2)).
Proof.
  apply digested_text_of_query;
    repeat constructor; unfold scalar; simpl; lia.
Defined.

(** ** The cache over a run of requests *)

Section Runs.
Context `{Datastore}.
Variable decode_cursor : pystr -> option Cursor.
Variable database : Z -> Database.

Lemma cached_from_data_mono T T' c :
  T <= T' -> cached_from_data decode_cursor database T c ->
  cached_from_data decode_cursor database T' c.
Proof.
  intros HT Hc key e He. destruct (Hc key e He) as (qp & Hk & Ht & Hv).
  exists qp. repeat split; [done | lia | done].
Qed.

Lemma serve_keeps_cached_from_data T w r :
  r_now r <= T ->
  cached_from_data decode_cursor database T (cache w) ->
  cached_from_data decode_cursor database T
    (cache (serve decode_cursor database w r).2).
Proof.
  intros HT Hc. unfold serve, StoryListView_list.
  destruct (cache_get _ _ _ _) as [[v|]|e]; [done| |done]. simpl.
  destruct (ListModelMixin_list _ _ _) as [data|e] eqn:Hdata; [|done].
  destruct (r_set r); [|done]. simpl.
  intros key e. destruct (decide (to_string (cache_key (r_params r)) = key))
    as [<-|Hne].
  - rewrite lookup_insert_eq. intros [= <-]. simpl.
    exists (r_params r).
    replace (r_now r + 30 - 30) with (r_now r) by lia. by repeat split.
  - rewrite lookup_insert_ne by done. apply Hc.
Qed.

Lemma serve_all_keeps_cached_from_data T rs w :
  Forall (fun a => r_now a <= T) rs ->
  cached_from_data decode_cursor database T (cache w) ->
  cached_from_data decode_cursor database T
    (cache (serve_all decode_cursor database rs w)).
Proof.
  intros Hrs. revert w. induction Hrs as [|a rs Ha Hrs IH]; intros w Hc; [done|].
  simpl. apply IH. by apply serve_keeps_cached_from_data.
Qed.

(** X4. However the list endpoint was used before, a response it sends was
    computed without error, for a request with the same cache key, from the
    data as they were at some time in the last 30 seconds: the cache never
    holds an error and never serves a payload older than its time to live.
    The earlier requests came in no later than the one that is answered. *)
Theorem served_within_ttl (rs : list Request) (r : Request) (v : Payload) :
  Forall (fun a => r_now a <= r_now r) rs ->
  (serve decode_cursor database
     (serve_all decode_cursor database rs {| cache := ∅; computed := 0 |}) r).1
  = Ok v ->
  exists query_params t,
    r_now r - 30 < t <= r_now r
    /\ to_string (cache_key query_params) = to_string (cache_key (r_params r))
    /\ ListModelMixin_list decode_cursor (database t) query_params = Ok v.
Proof.
  intros Hrs.
  assert (cached_from_data decode_cursor database (r_now r)
            (cache (serve_all decode_cursor database rs
                      {| cache := ∅; computed := 0 |}))) as Hc.
  { apply serve_all_keeps_cached_from_data; [done|].
    intros key e He. simpl in He. by rewrite lookup_empty in He. }
  revert Hc. generalize (serve_all decode_cursor database rs
                           {| cache := ∅; computed := 0 |}).
  intros w Hc. unfold serve, StoryListView_list.
  destruct (r_get r); [|done]. unfold cache_get.
  destruct (cache w !! to_string (cache_key (r_params r))) as [e|] eqn:He.
  - destruct (Z.ltb_spec (r_now r) (ce_expires e)) as [Hlive|Hdead].
    + simpl. intros [= <-].
      destruct (Hc _ _ He) as (qp & Hk & Ht & Hv).
      exists qp, (ce_expires e - 30). repeat split; [lia | done..].
    + destruct (ListModelMixin_list _ _ _) as [data|e'] eqn:Hdata; [|done].
      destruct (r_set r); [|done]. simpl. intros [= <-].
      exists (r_params r), (r_now r). repeat split; [lia | lia | done].
  - destruct (ListModelMixin_list _ _ _) as [data|e'] eqn:Hdata; [|done].
    destruct (r_set r); [|done]. simpl. intros [= <-].
    exists (r_params r), (r_now r). repeat split; [lia | lia | done].
Qed.

(** What a request leaves of the entries under other keys: all of them. *)
Lemma list_other_keys db now on_get on_set query_params w k :
  k <> to_string (cache_key query_params) ->
  cache (StoryListView_list decode_cursor db now on_get on_set query_params w).2
    !! k = cache w !! k.
Proof.
  intros Hk. unfold StoryListView_list.
  destruct (cache_get _ _ _ _) as [[v|]|e]; [done| |done]. simpl.
  destruct (ListModelMixin_list _ _ _) as [data|e]; [|done].
  destruct on_set; [|done]. simpl. by rewrite lookup_insert_ne.
Qed.

(** The response depends on the cache through the entry of the key only. *)
Lemma list_response_entry db now on_get on_set query_params w w' :
  cache w !! to_string (cache_key query_params)
  = cache w' !! to_string (cache_key query_params) ->
  (StoryListView_list decode_cursor db now on_get on_set query_params w).1
  = (StoryListView_list decode_cursor db now on_get on_set query_params w').1.
Proof.
  intros Hk. unfold StoryListView_list, cache_get. rewrite Hk.
  destruct on_get; [|done].
  destruct (cache w' !! _) as [e|]; [destruct (_ <? _); [done|]|];
    destruct (ListModelMixin_list _ _ _); try done; by destruct on_set.
Qed.

End Runs.

Lemma served_within_ttl_witness :
  exists query_params t,
    10 - 30 < t <= 10
    /\ to_string (cache_key query_params) = to_string (cache_key [])
    /\ @ListModelMixin_list sort_stored decode_offset (archive_at t) query_params
       = Ok archive_list.
Proof.
  apply (served_within_ttl (H := sort_stored) decode_offset archive_at
           [{| r_now := 0; r_params := []; r_get := Up; r_set := Up |}]
           {| r_now := 10; r_params := []; r_get := Up; r_set := Up |}
           archive_list).
  - repeat constructor. simpl. lia.
  - change ((@StoryListView_list sort_stored decode_offset archive_later 10 Up Up []
               (@StoryListView_list sort_stored decode_offset archive 0 Up Up []
                  empty_world).2).1 = Ok archive_list).
    rewrite (list_miss (H := sort_stored) decode_offset archive 0 [] empty_world
               archive_list (no_live_empty _ _) archive_list_computed).
    cbn [snd].
    rewrite (list_hit (H := sort_stored) decode_offset archive_later 10 Up [] _
               archive_list); [done|].
    eexists. split; [apply lookup_insert_eq|]. split; [simpl; lia | reflexivity].
Defined.

(** The text of a cache key names it. *)
Lemma to_string_inj s1 s2 :
  Forall (fun c => 0 <= c < 256) s1 -> Forall (fun c => 0 <= c < 256) s2 ->
  to_string s1 = to_string s2 -> s1 = s2.
Proof.
  unfold to_string. intros H1 H2 Heq.
  apply (f_equal list_ascii_of_string) in Heq.
  rewrite !list_ascii_of_string_of_list_ascii in Heq.
  revert s2 H2 Heq. induction H1 as [|a s1 Ha H1 IH]; intros s2 H2 Heq;
    destruct H2 as [|b s2 Hb H2]; try done.
  simpl in Heq. injection Heq as Hab Heq. f_equal; [|by apply IH].
  apply (f_equal N_of_ascii) in Hab.
  rewrite !N_ascii_embedding in Hab by lia. lia.
Qed.

Lemma cache_key_bytes params : Forall (fun c => 0 <= c < 256) (cache_key params).
Proof.
  unfold cache_key. apply Forall_app. split.
  - vm_compute. repeat constructor; discriminate.
  - destruct (hexdigest_shape (hashlib.md5 (encode (params_key params)))
                (md5_bytes _)) as [_ Hhex].
    eapply Forall_impl; [exact Hhex|]. unfold is_hex. intros c Hc. simpl. lia.
Qed.

Section Expiry.
Context `{Datastore}.
Variable decode_cursor : pystr -> option Cursor.

(** X5. An entry is used only while it is live. Once its 30 seconds have
    passed, or once it has been deleted from the cache, the next request of
    the same parameters is computed from the data as they then are, and the
    response is stored anew for 30 seconds. *)
Theorem recomputed_after_expiry_or_delete (db db' : Database) (now t : Z)
    (query_params : QueryDict) (w : World) (data data' : Payload) :
  no_live (cache w) now (to_string (cache_key query_params)) ->
  ListModelMixin_list decode_cursor db query_params = Ok data ->
  ListModelMixin_list decode_cursor db' query_params = Ok data' ->
  let key := to_string (cache_key query_params) in
  let w1 := (StoryListView_list decode_cursor db now Up Up query_params w).2 in
  let deleted := {| cache := cache_delete (cache w1) key; computed := computed w1 |} in
  (now + 30 <= t ->
     exists w2,
       StoryListView_list decode_cursor db' t Up Up query_params w1 = (Ok data', w2)
       /\ computed w2 = S (S (computed w))
       /\ cache w2 !! key = Some {| ce_value := data'; ce_expires := t + 30 |})
  /\ exists w2,
       StoryListView_list decode_cursor db' t Up Up query_params deleted
       = (Ok data', w2)
       /\ computed w2 = S (S (computed w))
       /\ cache w2 !! key = Some {| ce_value := data'; ce_expires := t + 30 |}.
Proof.
  intros Hno Hdata Hdata'. cbv zeta.
  rewrite (list_miss decode_cursor db now query_params w data Hno Hdata).
  cbn [snd cache computed]. split.
  - intros Ht. eexists. split.
    + apply list_miss; [|done]. simpl.
      intros e. rewrite lookup_insert_eq. intros [= <-]. simpl. lia.
    + simpl. split; [done|]. apply lookup_insert_eq.
  - eexists. split.
    + apply list_miss; [|done]. unfold cache_delete. simpl.
      intros e. by rewrite lookup_delete_eq.
    + simpl. split; [done|]. apply lookup_insert_eq.
Qed.

(** X6. A request does not touch what the cache holds for another key: the
    response to a request is the same whether or not a request with a
    different cache key was served just before it. *)
Theorem other_key_unaffected (db1 db2 : Database) (t1 t2 : Z)
    (g1 s1 g2 s2 : Health) (q1 q2 : QueryDict) (w : World) :
  cache_key q1 <> cache_key q2 ->
  (StoryListView_list decode_cursor db2 t2 g2 s2 q2
     (StoryListView_list decode_cursor db1 t1 g1 s1 q1 w).2).1
  = (StoryListView_list decode_cursor db2 t2 g2 s2 q2 w).1.
Proof.
  intros Hne. apply list_response_entry, list_other_keys.
  intros Heq. apply Hne. symmetry. apply to_string_inj; [apply cache_key_bytes..|done].
Qed.

End Expiry.

Lemma archive_later_list_computed :
  @ListModelMixin_list sort_stored decode_offset archive_later []
  = Ok archive_later_list.
Proof. vm_compute. reflexivity. Qed.

Lemma recomputed_after_expiry_or_delete_witness :
  let key := to_string (cache_key []) in
  let w1 := (@StoryListView_list sort_stored decode_offset archive 0 Up Up []
               empty_world).2 in
  let deleted := {| cache := cache_delete (cache w1) key; computed := computed w1 |} in
  (exists w2,
     @StoryListView_list sort_stored decode_offset archive_later 40 Up Up [] w1
     = (Ok archive_later_list, w2)
     /\ computed w2 = 2%nat
     /\ cache w2 !! key
        = Some {| ce_value := archive_later_list; ce_expires := 40 + 30 |})
  /\ exists w2,
       @StoryListView_list sort_stored decode_offset archive_later 40 Up Up []
         deleted = (Ok archive_later_list, w2)
       /\ computed w2 = 2%nat
       /\ cache w2 !! key
          = Some {| ce_value := archive_later_list; ce_expires := 40 + 30 |}.
Proof.
  destruct (recomputed_after_expiry_or_delete (H := sort_stored) decode_offset
              archive archive_later 0 40 [] empty_world archive_list
              archive_later_list (no_live_empty _ _) archive_list_computed
              archive_later_list_computed) as [H1 H2].
  split; [apply H1; lia | exact H2].
Defined.

Lemma other_key_unaffected_witness :
  (@StoryListView_list sort_stored decode_offset archive 10 Up Up
     [(str "user", [str "u1"])]
     (@StoryListView_list sort_stored decode_offset archive 0 Up Up []
        empty_world).2).1
  = (@StoryListView_list sort_stored decode_offset archive 10 Up Up
       [(str "user", [str "u1"])] empty_world).1.
Proof.
  apply (other_key_unaffected (H := sort_stored)).
  vm_compute. discriminate.
Defined.

(** ** The detail endpoint *)

Lemma Story_objects_get_DoesNotExist db sid :
  Story_objects_get db sid = Raise DoesNotExist <->
  forall s, s ∈ stories db -> story_id s <> sid.
Proof.
  split; [|apply Story_objects_get_unknown].
  unfold Story_objects_get.
  destruct (filter _ (stories db)) as [|x [|y l]] eqn:E; try done.
  intros _ s Hs Hid.
  assert (s ∈ filter (fun s => story_id s = sid) (stories db)) as Hin
    by by apply list_elem_of_filter.
  rewrite E in Hin. by apply elem_of_nil in Hin.
Qed.

Lemma filter_unique_id (l : list Story) s :
  NoDup (map story_id l) -> s ∈ l ->
  filter (fun x => story_id x = story_id s) l = [s].
Proof.
  induction l as [|x l IH]; simpl; intros Hnd Hs; [by apply elem_of_nil in Hs|].
  apply NoDup_cons in Hnd as [Hx Hnd]. rewrite filter_cons.
  apply elem_of_cons in Hs as [->|Hs].
  - rewrite decide_True by done. f_equal.
    destruct (filter _ l) as [|y l'] eqn:E; [done|].
    assert (y ∈ filter (fun x0 => story_id x0 = story_id x) l) as Hy
      by (rewrite E; apply list_elem_of_here).
    apply list_elem_of_filter in Hy as [Hid Hy].
    destruct Hx. rewrite <- Hid. by apply (list_elem_of_fmap_2 story_id).
  - rewrite decide_False; [by apply IH|].
    intros Hid. apply Hx. rewrite Hid. by apply (list_elem_of_fmap_2 story_id).
Qed.

(** X7. The detail endpoint answers NotFound exactly when no story has the
    [story_id]. What it answers otherwise is a stored story with that
    [story_id], serialised; when every story has a [story_id] of its own,
    every stored story is answered under its [story_id]. The only errors are
    NotFound and, for a [story_id] held twice, MultipleObjectsReturned. *)
Theorem detail_outcome (db : Database) (sid : pystr) :
  (StoryDetailView_retrieve db sid = Raise Http404 <->
     forall s, s ∈ stories db -> story_id s <> sid)
  /\ (forall d,
        StoryDetailView_retrieve db sid = Ok d ->
        d = serialize db (sd_story d)
        /\ sd_story d ∈ stories db /\ story_id (sd_story d) = sid)
  /\ (NoDup (map story_id (stories db)) ->
      forall s, s ∈ stories db -> story_id s = sid ->
                StoryDetailView_retrieve db sid = Ok (serialize db s))
  /\ (forall e,
        StoryDetailView_retrieve db sid = Raise e ->
        e = Http404 \/ e = MultipleObjectsReturned).
Proof.
  split; [|split; [|split]].
  - rewrite <- Story_objects_get_DoesNotExist. unfold StoryDetailView_retrieve.
    destruct (Story_objects_get db sid) as [s|[]] eqn:E; split; try done.
    all: unfold Story_objects_get in E;
      destruct (filter _ (stories db)) as [|x [|y l]]; done.
  - intros d. unfold StoryDetailView_retrieve.
    destruct (Story_objects_get db sid) as [s|[]] eqn:E; try done.
    intros [= <-]. simpl.
    by destruct (Story_objects_get_Ok _ _ _ E) as (Hin & Hid & _).
  - intros Hnd s Hs <-. unfold StoryDetailView_retrieve, Story_objects_get.
    by rewrite (filter_unique_id _ s Hnd Hs).
  - intros e. unfold StoryDetailView_retrieve, Story_objects_get.
    destruct (filter _ (stories db)) as [|x [|y l]]; [|done|]; intros [= <-]; auto.
Qed.

Lemma detail_outcome_witness :
  @StoryDetailView_retrieve archive (str "999") = Raise Http404
  /\ @StoryDetailView_retrieve archive (str "103") = Ok (serialize archive s103).
Proof.
  split.
  - apply (proj1 (detail_outcome archive (str "999"))). each_story.
  - apply (proj1 (proj2 (proj2 (detail_outcome archive (str "103"))))).
    + apply (bool_decide_unpack _). vm_compute. exact I.
    + do 2 apply list_elem_of_further. apply list_elem_of_here.
    + reflexivity.
Defined.

(** ** The owner of a result *)

(** X8. A stored story is serialised as itself. The user attached to it, if
    any, is the user whose key the story carries, with [has_stories] set;
    and some user is attached as soon as the users hold one with that key. *)
Theorem owner_attached (db : Database) (s : Story) :
  s ∈ stories db ->
  sd_story (serialize db s) = s
  /\ (forall au,
        sd_user (serialize db s) = Some au ->
        uuid (au_user au) = user s /\ au_user au ∈ users db
        /\ au = annotate db (au_user au) /\ has_stories au = true)
  /\ ((exists u, u ∈ users db /\ uuid u = user s) ->
      is_Some (sd_user (serialize db s))).
Proof.
  intros Hs. split; [done|]. unfold serialize; simpl. split.
  - intros au Hf. apply find_some in Hf as [Hin Hk].
    apply bool_decide_eq_true in Hk.
    unfold annotated_users in Hin. apply in_map_iff in Hin as (u & <- & Hu).
    simpl in *. repeat split; [done | by apply list_elem_of_In |].
    apply bool_decide_eq_true, Exists_exists. by exists s.
  - intros (u & Hu & Hk).
    destruct (List.find _ (annotated_users db)) as [au|] eqn:Hf; [by eexists|].
    pose proof (find_none _ _ Hf (annotate db u)) as Hn. simpl in Hn.
    rewrite bool_decide_eq_true_2 in Hn by done.
    discriminate Hn. unfold annotated_users. apply in_map.
    by apply list_elem_of_In.
Qed.

Lemma owner_attached_witness :
  sd_story (serialize archive s102) = s102
  /\ (forall au,
        sd_user (serialize archive s102) = Some au ->
        uuid (au_user au) = user s102 /\ au_user au ∈ users archive
        /\ au = annotate archive (au_user au) /\ has_stories au = true)
  /\ ((exists u, u ∈ users archive /\ uuid u = user s102) ->
      is_Some (sd_user (serialize archive s102))).
Proof.
  apply owner_attached. apply list_elem_of_further, list_elem_of_here.
Defined.

(** ** The similar endpoint, seen from both ends *)

Section Symmetry.
Context `{Datastore}.

(** X9. Being similar is mutual: of two stored stories with an embedding,
    each found under its [story_id], one is in the query set of the other
    iff the other is in its own; and a third story is in both query sets or
    in neither. *)
Theorem similar_is_mutual (db : Database) (a b : Story) (ea eb : list Q) :
  Story_objects_get db (story_id a) = Ok a ->
  Story_objects_get db (story_id b) = Ok b ->
  embedding a = Some ea -> embedding b = Some eb ->
  exists qa qb,
    StorySimilarView_get_queryset db (story_id a) = Ok qa
    /\ StorySimilarView_get_queryset db (story_id b) = Ok qb
    /\ (b ∈ qa <-> a ∈ qb)
    /\ (b ∈ qa <-> a <> b)
    /\ (forall s, s <> a -> s <> b -> s ∈ qa <-> s ∈ qb).
Proof.
  intros Ha Hb Hea Heb.
  destruct (similar_queryset db _ a ea Ha Hea) as [Hqa Hca].
  destruct (similar_queryset db _ b eb Hb Heb) as [Hqb Hcb].
  destruct (Story_objects_get_Ok _ _ _ Ha) as (Hina & _).
  destruct (Story_objects_get_Ok _ _ _ Hb) as (Hinb & _).
  eexists _, _. split; [exact Hqa|]. split; [exact Hqb|].
  assert (forall s, s ∈ order_by_desc (similarity_score ea)
                          (candidates db (story_id a))
                    <-> s ∈ stories db /\ s <> a /\ is_Some (embedding s)) as Hma.
  { intros s. rewrite order_by_desc_Permutation, Hca, list_elem_of_filter. tauto. }
  assert (forall s, s ∈ order_by_desc (similarity_score eb)
                          (candidates db (story_id b))
                    <-> s ∈ stories db /\ s <> b /\ is_Some (embedding s)) as Hmb.
  { intros s. rewrite order_by_desc_Permutation, Hcb, list_elem_of_filter. tauto. }
  assert (is_Some (embedding a)) as Hsa by (by eexists).
  assert (is_Some (embedding b)) as Hsb by (by eexists).
  split; [|split].
  - rewrite Hma, Hmb. split; intros (_ & Hne & _); repeat split; try done;
      by intros ->.
  - rewrite Hma. split; [by intros (_ & Hne & _) -> | by repeat split].
  - intros s Hsna Hsnb. rewrite Hma, Hmb. tauto.
Qed.

End Symmetry.

Lemma similar_is_mutual_witness :
  exists qa qb,
    @StorySimilarView_get_queryset sort_stored archive (story_id s101) = Ok qa
    /\ @StorySimilarView_get_queryset sort_stored archive (story_id s105) = Ok qb
    /\ (s105 ∈ qa <-> s101 ∈ qb)
    /\ (s105 ∈ qa <-> s101 <> s105)
    /\ (forall s, s <> s101 -> s <> s105 -> s ∈ qa <-> s ∈ qb).
Proof.
  apply (similar_is_mutual (H := sort_stored) archive s101 s105
           [0%Q; 0%Q] [3%Q; 4%Q]); reflexivity.
Defined.

(** ** Matching a term *)

Section Terms.
Context `{Datastore}.

Lemma UPPER_same s s' : map upper s = map upper s' -> UPPER s = UPPER s'.
Proof. intros Hs. by rewrite <- (UPPER_upper s), Hs, UPPER_upper. Qed.


(** ** The terms of a search string *)

Lemma matches_term_upper db s t t' :
  map upper t = map upper t' -> matches_term db s t = matches_term db s t'.
Proof.
  intros Ht. unfold matches_term, icontains. by rewrite (UPPER_same _ _ Ht).
Qed.

Lemma forallb_matches_upper db s l l' :
  map (map upper) l = map (map upper) l' ->
  forallb (matches_term db s) l = forallb (matches_term db s) l'.
Proof.
  revert l'. induction l as [|t l IH]; intros [|t' l']; try done.
  simpl. intros [= Ht Hl]. by rewrite (matches_term_upper _ _ _ _ Ht), (IH _ Hl).
Qed.

(** X11. The search does not tell the cases of letters apart: two search
    strings that are equal once in upper case select the same stories. *)
Theorem search_ignores_case (db : Database) (q1 q2 : QueryDict) (s1 s2 : pystr)
    (qs : list Story) :
  get q1 (str "search") = Some s1 -> get q2 (str "search") = Some s2 ->
  map upper s1 = map upper s2 ->
  search_filter db q1 qs = search_filter db q2 qs.
Proof.
  intros H1 H2 Hup.
  pose proof (upper_get_search_terms q1 q2 s1 s2 H1 H2 Hup) as Ht.
  destruct (get_search_terms q1) as [t1|e1] eqn:E1,
           (get_search_terms q2) as [t2|e2] eqn:E2; try done.
  - rewrite (search_filter_Ok _ _ _ _ E1), (search_filter_Ok _ _ _ _ E2).
    f_equal. apply filter_ext. intros s. by apply forallb_matches_upper.
  - unfold search_filter. rewrite E1, E2. simpl. by subst.
Qed.

Lemma words_separated sep s1 c s2 b :
  sep c = true ->
  words_from sep b (s1 ++ c :: s2)
  = words_from sep b s1 ++ words_from sep false s2.
Proof.
  intros Hc. revert b. induction s1 as [|x s1 IH]; intros b; simpl.
  - rewrite Hc. by destruct b.
  - destruct (sep x); [destruct b; by rewrite IH|].
    rewrite IH, push_app; [done | apply words_from_inside].
Qed.

Lemma get_search_terms_value query_params search :
  get query_params (str "search") = Some search ->
  get_search_terms query_params
  = if existsb (fun c => c =? 0) search || existsb is_surrogate search
    then Raise ValidationError else Ok (search_smart_split search).
Proof. intros Hget. unfold get_search_terms. by rewrite Hget. Qed.

Lemma filter_filter_andb {A} (f g : A -> bool) l :
  List.filter f (List.filter g l) = List.filter (fun x => f x && g x) l.
Proof.
  induction l as [|x l IH]; [done|]. simpl.
  destruct (g x) eqn:Hg; simpl; rewrite ?IH, ?Hg;
    destruct (f x); simpl; by rewrite ?IH.
Qed.

(** X12. The terms of a search string all have to match: a search for two
    strings without quotes, put together with a blank or a comma between
    them, selects the stories that the search for the one and the search for
    the other both select. *)
Theorem search_terms_conjoin (db : Database) (q q1 q2 : QueryDict)
    (s1 s2 : pystr) (c : Z) (qs : list Story) :
  get q1 (str "search") = Some s1 -> get q2 (str "search") = Some s2 ->
  get q (str "search") = Some (s1 ++ c :: s2) -> separates c ->
  unquoted s1 -> unquoted s2 ->
  search_filter db q qs
  = (let* selected := search_filter db q2 qs in search_filter db q1 selected)
  /\ (forall selected,
        search_filter db q qs = Ok selected ->
        exists selected1 selected2,
          search_filter db q1 qs = Ok selected1
          /\ search_filter db q2 qs = Ok selected2
          /\ forall s, s ∈ selected <-> s ∈ selected1 /\ s ∈ selected2).
Proof.
  intros H1 H2 Hq Hc Hu1 Hu2.
  pose proof (get_search_terms_value _ _ H1) as Ht1.
  pose proof (get_search_terms_value _ _ H2) as Ht2.
  pose proof (get_search_terms_value _ _ Hq) as Ht.
  assert (is_separator c = true) as Hsep by (by apply separates_spec).
  assert (unquoted (s1 ++ c :: s2)) as Hu.
  { apply Forall_app. split; [done|]. constructor; [|done].
    unfold is_separator, is_comma in Hsep.
    split; intros ->; vm_compute in Hsep; discriminate. }
  assert ((existsb (fun c => c =? 0) (s1 ++ c :: s2)
           || existsb is_surrogate (s1 ++ c :: s2))
          = (existsb (fun c => c =? 0) s1 || existsb is_surrogate s1)
            || (existsb (fun c => c =? 0) s2 || existsb is_surrogate s2)) as Hv.
  { rewrite !existsb_app. simpl.
    assert ((c =? 0) = false /\ is_surrogate c = false) as [-> ->].
    { unfold is_separator, is_comma, is_space, is_surrogate in *.
      split; [apply Z.eqb_neq; intros -> |]; [by vm_compute in Hsep|].
      apply not_true_is_false. intros [H3%Z.leb_le H4%Z.leb_le]%andb_true_iff.
      revert Hsep.
      repeat match goal with
      | |- context [?a <=? ?b] => destruct (Z.leb_spec a b); try lia
      | |- context [?a =? ?b] => destruct (Z.eqb_spec a b); try lia
      end; done. }
    simpl. destruct (existsb (fun c => c =? 0) s1), (existsb is_surrogate s1),
             (existsb (fun c => c =? 0) s2), (existsb is_surrogate s2); done. }
  rewrite Hv in Ht.
  destruct (existsb (fun c => c =? 0) s2 || existsb is_surrogate s2) eqn:Hv2.
  { rewrite orb_true_r in Ht.
    assert (search_filter db q qs = Raise ValidationError) as ->
      by (unfold search_filter; by rewrite Ht).
    assert (search_filter db q2 qs = Raise ValidationError) as ->
      by (unfold search_filter; by rewrite Ht2).
    by split. }
  rewrite orb_false_r in Ht.
  destruct (existsb (fun c => c =? 0) s1 || existsb is_surrogate s1) eqn:Hv1.
  { rewrite (search_filter_Ok _ _ _ _ Ht2). simpl.
    assert (forall l, search_filter db q1 l = Raise ValidationError) as Hr1
      by (intros l; unfold search_filter; by rewrite Ht1).
    assert (search_filter db q qs = Raise ValidationError) as ->
      by (unfold search_filter; by rewrite Ht).
    rewrite Hr1. by split. }
  rewrite (search_smart_split_unquoted _ Hu) in Ht.
  rewrite (search_smart_split_unquoted _ Hu1) in Ht1.
  rewrite (search_smart_split_unquoted _ Hu2) in Ht2.
  unfold words in Ht. rewrite (words_separated _ _ _ _ _ Hsep) in Ht.
  fold (words is_separator s1) in Ht. fold (words is_separator s2) in Ht.
  rewrite (search_filter_Ok _ _ _ _ Ht), (search_filter_Ok _ _ _ _ Ht2). simpl.
  rewrite !(search_filter_Ok _ _ _ _ Ht1), filter_filter_andb.
  assert (forall s,
            forallb (matches_term db s) (words is_separator s1 ++ words is_separator s2)
            = forallb (matches_term db s) (words is_separator s1)
              && forallb (matches_term db s) (words is_separator s2)) as Hand
    by (intros s; apply forallb_app).
  split.
  - f_equal. apply filter_ext. exact Hand.
  - intros selected [= <-]. eexists _, _. split; [done|]. split; [done|].
    intros s. rewrite !list_elem_of_In, !filter_In, Hand, andb_true_iff. tauto.
Qed.

(** ** The filters of the list endpoint *)

Lemma List_filter_sublist {A} (f : A -> bool) l : List.filter f l `sublist_of` l.
Proof.
  induction l as [|x l IH]; simpl; [constructor|].
  destruct (f x); by constructor.
Qed.

Lemma StronglySorted_sublist {A} (R : relation A) l' l :
  l' `sublist_of` l -> StronglySorted R l -> StronglySorted R l'.
Proof.
  induction 1 as [|x l1 l2 Hs IH|x l1 l2 Hs IH]; intros Hl; [done| |].
  - apply StronglySorted_inv in Hl as [Hl Hx]. constructor; [by apply IH|].
    rewrite Forall_forall in *. intros y Hy. apply Hx.
    by apply (sublist_subseteq _ _ Hs).
  - apply StronglySorted_inv in Hl as [Hl _]. by apply IH.
Qed.

Lemma search_filter_sublist db query_params qs selected :
  search_filter db query_params qs = Ok selected -> selected `sublist_of` qs.
Proof.
  unfold search_filter. destruct (get_search_terms query_params) as [[|t ts]|e];
    simpl; intros [= <-]; [done | apply List_filter_sublist].
Qed.

Lemma user_filter_sublist db query_params qs selected :
  user_filter db query_params qs = Ok selected -> selected `sublist_of` qs.
Proof.
  unfold user_filter. destruct (get query_params (str "user")) as [[|c v]|];
    try (by intros [= <-]).
  destruct (UUIDField_to_python (c :: v)) as [key|]; [|done].
  case_bool_decide; [|done]. intros [= <-]. apply List_filter_sublist.
Qed.

Lemma filter_queryset_sublist db query_params qs selected :
  StoryListView_filter_queryset db query_params qs = Ok selected ->
  selected `sublist_of` qs.
Proof.
  unfold StoryListView_filter_queryset.
  destruct (search_filter db query_params qs) as [l|e] eqn:Hs; [|done]. simpl.
  intros Hu. etransitivity; [by eapply user_filter_sublist|].
  by eapply search_filter_sublist.
Qed.

(** What the search filter raises, it raises for a search string that it
    does not take. *)
Lemma get_search_terms_Raise_iff query_params e :
  get_search_terms query_params = Raise e <->
  e = ValidationError
  /\ exists search,
       get query_params (str "search") = Some search /\ ~ searchable search.
Proof.
  destruct (get query_params (str "search")) as [search|] eqn:Hget.
  - rewrite (get_search_terms_value _ _ Hget).
    destruct (_ || _) eqn:Hv.
    + split.
      * intros [= <-]. split; [done|]. exists search. split; [done|].
        intros Hs%searchable_spec. congruence.
      * by intros [-> _].
    + split; [done|]. intros [_ (s' & [= <-] & Hs)].
      destruct Hs. by apply searchable_spec.
  - rewrite (get_search_terms_None _ Hget). split; [done|].
    by intros [_ (s' & [=] & _)].
Qed.

(** X13. The two filters of the list endpoint only take stories away, in
    the order they come in: a story is kept iff every search term matches
    its owner and, when a user is asked for, the value reads as the key of
    the owner. The filters raise nothing but the validation error, and that
    exactly when the search string holds a null character or a surrogate, or
    the value asked for as [user] is not empty and does not read as the key
    of a user. *)
Theorem filter_queryset_outcome (db : Database) (query_params : QueryDict)
    (qs : list Story) :
  (forall selected,
     StoryListView_filter_queryset db query_params qs = Ok selected ->
     selected `sublist_of` qs
     /\ exists terms,
          get_search_terms query_params = Ok terms
          /\ forall s,
               s ∈ selected <->
               s ∈ qs
               /\ (forall term, term ∈ terms -> owner_matches db s term)
               /\ (forall v, get query_params (str "user") = Some v -> v <> [] ->
                             UUIDField_to_python v = Some (user s)))
  /\ (forall e,
        StoryListView_filter_queryset db query_params qs = Raise e <->
        e = ValidationError
        /\ ((exists search,
               get query_params (str "search") = Some search
               /\ ~ searchable search)
            \/ exists v,
                 get query_params (str "user") = Some v /\ v <> []
                 /\ forall u, u ∈ users db ->
                              UUIDField_to_python v <> Some (uuid u))).
Proof.
  split.
  - intros selected Hsel. split; [by eapply filter_queryset_sublist|].
    revert Hsel. unfold StoryListView_filter_queryset.
    destruct (get_search_terms query_params) as [terms|e] eqn:Hterms;
      [|unfold search_filter; by rewrite Hterms].
    pose proof (search_filter_elem_of db query_params qs terms) as Hmem.
    destruct (search_filter db query_params qs) as [l|e] eqn:Hs; [|done].
    specialize (Hmem l). simpl. unfold user_filter. intros Hsel.
    exists terms. split; [done|]. intros s.
    destruct (get query_params (str "user")) as [[|c v]|] eqn:Hu.
    + injection Hsel as <-. rewrite (Hmem s Hterms eq_refl). split; [|tauto].
      intros [Hin Hm]. repeat split; try done. by intros v [= <-].
    + destruct (UUIDField_to_python (c :: v)) as [key|] eqn:Hkey; [|done].
      case_bool_decide as Hex; [|done]. injection Hsel as <-.
      rewrite list_elem_of_In, filter_In, <- list_elem_of_In.
      rewrite (Hmem s Hterms eq_refl), bool_decide_eq_true. split.
      * intros [[Hin Hm] Hus]. repeat split; try done.
        intros v' [= <-] _. by rewrite Hus.
      * intros (Hin & Hm & Hus). repeat split; try done.
        specialize (Hus _ eq_refl ltac:(done)). congruence.
    + injection Hsel as <-. rewrite (Hmem s Hterms eq_refl). split; [|tauto].
      intros [Hin Hm]. by repeat split.
  - intros e. unfold StoryListView_filter_queryset.
    destruct (get_search_terms query_params) as [terms|e'] eqn:Hterms.
    + rewrite (search_filter_Ok _ _ _ _ Hterms). simpl.
      assert (~ exists search,
                  get query_params (str "search") = Some search
                  /\ ~ searchable search) as Hnot.
      { intros Hbad.
        assert (get_search_terms query_params = Raise ValidationError) as Hr
          by (by apply get_search_terms_Raise_iff).
        congruence. }
      unfold user_filter.
      destruct (get query_params (str "user")) as [[|c v]|] eqn:Hu.
      * split; [done|]. intros [_ [Hbad|(v & [= <-] & Hv & _)]]; done.
      * destruct (UUIDField_to_python (c :: v)) as [key|] eqn:Hkey.
        -- case_bool_decide as Hex.
           ++ split; [done|]. intros [_ [Hbad|(v' & [= <-] & _ & Hno)]]; [done|].
              apply Exists_exists in Hex as (u & Hin & Hk).
              destruct (Hno u Hin). by rewrite Hk.
           ++ split.
              ** intros [= <-]. split; [done|]. right. exists (c :: v).
                 split; [done|]. split; [done|]. intros u Hin Hk.
                 rewrite Hkey in Hk. injection Hk as Hk. apply Hex.
                 apply Exists_exists. by exists u.
              ** by intros [-> _].
        -- split.
           ++ intros [= <-]. split; [done|]. right. exists (c :: v).
              split; [done|]. split; [done|]. intros u Hin. by rewrite Hkey.
           ++ by intros [-> _].
      * split; [done|]. intros [_ [Hbad|(v & [=] & _)]]. done.
    + assert (search_filter db query_params qs = Raise e') as ->
        by (unfold search_filter; by rewrite Hterms).
      simpl. apply get_search_terms_Raise_iff in Hterms as [-> Hbad].
      split; [intros [= <-]; by split; [|left] | by intros [-> _]].
Qed.

(** X14. The query set the list endpoint hands to the paginator is newest
    first, whatever is searched and filtered: of two of its stories, the one
    that comes later was not created after the other. It holds stored
    stories only, and all of them when nothing is searched or filtered. *)
Theorem list_queryset_newest_first (db : Database) (query_params : QueryDict)
    (qs : list Story) :
  StoryListView_filter_queryset db query_params (StoryListView_get_queryset db)
  = Ok qs ->
  (forall i j a b,
     (i < j)%nat -> qs !! i = Some a -> qs !! j = Some b ->
     created_at b <= created_at a)
  /\ (forall s, s ∈ qs -> s ∈ stories db)
  /\ (get query_params (str "search") = None ->
      get query_params (str "user") = None -> qs ≡ₚ stories db).
Proof.
  intros Hqs. pose proof (filter_queryset_sublist _ _ _ _ Hqs) as Hsub.
  split; [|split].
  - intros i j a b Hij Hi Hj.
    assert (sorted_desc created_key qs) as Hsorted.
    { apply (StronglySorted_sublist _ _ _ Hsub). apply order_by_desc_sorted. }
    pose proof (StronglySorted_lookup _ _ _ _ _ _ Hsorted Hij Hi Hj) as Hab.
    simpl in Hab. unfold created_key in Hab. by rewrite <- Zle_Qle in Hab.
  - intros s Hs. apply (sublist_subseteq _ _ Hsub) in Hs.
    unfold StoryListView_get_queryset in Hs.
    by rewrite order_by_desc_Permutation in Hs.
  - intros Hsearch Huser. revert Hqs.
    unfold StoryListView_filter_queryset, user_filter.
    rewrite (search_filter_None _ _ _ Hsearch), Huser. simpl.
    intros [= <-]. apply order_by_desc_Permutation.
Qed.

(** X15. Asking for the stories of a user who has none is no error: with a
    value of [user] that reads as the key of such a user, and a search
    string, if any, that the search filter takes, the query set is
    empty. *)
Theorem user_without_stories (db : Database) (query_params : QueryDict)
    (u : User) (v : pystr) :
  u ∈ users db ->
  (forall s, s ∈ stories db -> user s <> uuid u) ->
  get query_params (str "user") = Some v -> v <> [] ->
  UUIDField_to_python v = Some (uuid u) ->
  (forall search,
     get query_params (str "search") = Some search -> searchable search) ->
  StoryListView_filter_queryset db query_params (StoryListView_get_queryset db)
  = Ok [].
Proof.
  intros Hu Hnone Hget Hv Hkey Hsearch.
  unfold StoryListView_filter_queryset.
  destruct (search_filter db query_params (StoryListView_get_queryset db))
    as [l|e] eqn:Hs.
  - simpl. unfold user_filter. rewrite Hget.
    destruct v as [|c v]; [done|]. rewrite Hkey.
    rewrite bool_decide_eq_true_2 by (apply Exists_exists; by exists u).
    f_equal.
    assert (forall l', (forall s, s ∈ l' -> user s <> uuid u) ->
              List.filter (fun s => bool_decide (user s = uuid u)) l' = [])
      as Hempty.
    { induction l' as [|x l' IH]; intros Hl; [done|]. simpl.
      rewrite bool_decide_eq_false_2 by (apply Hl; apply list_elem_of_here).
      apply IH. intros s Hin. apply Hl. by apply list_elem_of_further. }
    apply Hempty. intros s Hin. apply Hnone.
    apply (sublist_subseteq _ _ (search_filter_sublist _ _ _ _ Hs)) in Hin.
    unfold StoryListView_get_queryset in Hin.
    by rewrite order_by_desc_Permutation in Hin.
  - exfalso. unfold search_filter in Hs.
    destruct (get_search_terms query_params) as [[|t ts]|e'] eqn:Ht; try done.
    apply get_search_terms_Raise_iff in Ht as [_ (search & Hg & Hbad)].
    by apply Hbad, Hsearch.
Qed.

End Terms.

Lemma search_ignores_case_witness :
  @search_filter sort_stored archive [(str "search", [str "testuser"])]
    (stories archive)
  = @search_filter sort_stored archive [(str "search", [str "TestUSER"])]
      (stories archive).
Proof.
  apply (search_ignores_case (H := sort_stored) archive _ _
           (str "testuser") (str "TestUSER"));
    reflexivity.
Defined.

Lemma search_terms_conjoin_witness :
  @search_filter sort_stored archive [(str "search", [str "john smith"])]
    (stories archive)
  = Ok [s105]
  /\ @search_filter sort_stored archive [(str "search", [str "john"])]
       (stories archive)
     = Ok [s101; s105]
  /\ @search_filter sort_stored archive [(str "search", [str "smith"])]
       (stories archive)
     = Ok [s105]
  /\ @search_filter sort_stored archive [(str "search", [str "john smith"])]
       (stories archive)
     = (let* selected :=
          @search_filter sort_stored archive [(str "search", [str "smith"])]
            (stories archive) in
        @search_filter sort_stored archive [(str "search", [str "john"])]
          selected).
Proof.
  repeat (split; [vm_compute; reflexivity|]).
  apply (search_terms_conjoin (H := sort_stored) archive _ _ _
           (str "john") (str "smith") 32);
    try reflexivity; [by left | apply unquoted_bool; reflexivity..].
Defined.

Lemma filter_queryset_outcome_witness :
  @StoryListView_filter_queryset sort_stored archive
    [(str "search", [str "doe"]); (str "user", [johndoe_key])] (stories archive)
  = Ok [s101]
  /\ @StoryListView_filter_queryset sort_stored archive
       [(str "user", [str "{00000000000000000000000000000001}"])]
       (stories archive)
     = Ok [s101]
  /\ @StoryListView_filter_queryset sort_stored archive
       [(str "user", [str "invalid-uuid"])] (stories archive)
     = Raise ValidationError
  /\ @StoryListView_filter_queryset sort_stored archive
       [(str "search", [[106; 0; 111]])] (stories archive)
     = Raise ValidationError.
Proof.
  split; [reflexivity|]. split; [reflexivity|]. split.
  - apply (proj2 (filter_queryset_outcome (H := sort_stored) archive
                    [(str "user", [str "invalid-uuid"])] (stories archive))).
    split; [done|]. right. exists (str "invalid-uuid").
    split; [reflexivity|]. split; [discriminate|]. intros u Hu. discriminate.
  - apply (proj2 (filter_queryset_outcome (H := sort_stored) archive
                    [(str "search", [[106; 0; 111]])] (stories archive))).
    split; [done|]. left. exists [106; 0; 111]. split; [reflexivity|].
    intros Hs. apply searchable_spec in Hs. discriminate Hs.
Defined.

Lemma list_queryset_newest_first_witness :
  exists qs,
    @StoryListView_filter_queryset sort_stored archive
      [(str "search", [str "doe"])]
      (@StoryListView_get_queryset sort_stored archive) = Ok qs
    /\ map story_id qs = [str "102"; str "101"]
    /\ (forall i j a b,
          (i < j)%nat -> qs !! i = Some a -> qs !! j = Some b ->
          created_at b <= created_at a)
    /\ (forall s, s ∈ qs -> s ∈ stories archive).
Proof.
  eexists. split; [vm_compute; reflexivity|]. split; [reflexivity|].
  pose proof (list_queryset_newest_first (H := sort_stored) archive
                [(str "search", [str "doe"])] [s102; s101]) as Hx.
  split; [apply Hx|apply Hx]; vm_compute; reflexivity.
Defined.

Lemma user_without_stories_witness :
  @StoryListView_filter_queryset sort_stored archive_with_guest
    [(str "user", [str "00000000-0000-0000-0000-000000000006"])]
    (@StoryListView_get_queryset sort_stored archive_with_guest)
  = Ok [].
Proof.
  apply (user_without_stories (H := sort_stored) archive_with_guest
           [(str "user", [str "00000000-0000-0000-0000-000000000006"])] guest
           (str "00000000-0000-0000-0000-000000000006")).
  - unfold archive_with_guest, archive. simpl.
    do 5 apply list_elem_of_further. apply list_elem_of_here.
  - apply Forall_forall. repeat constructor; discriminate.
  - reflexivity.
  - discriminate.
  - reflexivity.
  - intros search Hsearch. discriminate Hsearch.
Defined.

(** ** The ranking, up to ties *)

Lemma reduced_keys_sorted {A} (key : A -> Q) l :
  sorted_desc key l ->
  StronglySorted (fun x y => (y <= x)%Q) (map (fun s => Qred (key s)) l).
Proof.
  induction 1 as [|a l Hl IH Ha]; simpl; constructor; [done|].
  apply Forall_forall. intros y Hy.
  apply list_elem_of_In, in_map_iff in Hy as (b & <- & Hb).
  rewrite !Qred_correct. rewrite Forall_forall in Ha.
  by apply Ha, list_elem_of_In.
Qed.

Lemma reduced_keys_reduced {A} (key : A -> Q) (l : list A) :
  Forall (fun x => Qred x = x) (map (fun s => Qred (key s)) l).
Proof.
  apply Forall_forall. intros y Hy.
  apply list_elem_of_In, in_map_iff in Hy as (b & <- & Hb).
  apply Qred_complete, Qred_correct.
Qed.

Lemma sorted_reduced_unique (k1 k2 : list Q) :
  k1 ≡ₚ k2 -> Forall (fun x => Qred x = x) k1 ->
  StronglySorted (fun x y => (y <= x)%Q) k1 ->
  StronglySorted (fun x y => (y <= x)%Q) k2 ->
  k1 = k2.
Proof.
  revert k2. induction k1 as [|a k1 IH]; intros k2 Hp Hred H1 H2.
  - by apply Permutation_nil_l in Hp.
  - destruct k2 as [|b k2]; [by apply Permutation_nil_r in Hp|].
    apply StronglySorted_inv in H1 as [H1 Ha].
    apply StronglySorted_inv in H2 as [H2 Hb].
    rewrite Forall_forall in Ha, Hb.
    assert (Forall (fun x => Qred x = x) (b :: k2)) as Hred2.
    { by rewrite <- Hp. }
    apply Forall_cons_1 in Hred as [Hra Hred].
    apply Forall_cons_1 in Hred2 as [Hrb Hred2].
    assert (a = b) as ->.
    { assert (a ∈ b :: k2) as Hain by (rewrite <- Hp; apply list_elem_of_here).
      assert (b ∈ a :: k1) as Hbin by (rewrite Hp; apply list_elem_of_here).
      apply elem_of_cons in Hain as [->|Hain]; [done|].
      apply elem_of_cons in Hbin as [->|Hbin]; [done|].
      rewrite <- Hra, <- Hrb. apply Qred_complete, Qle_antisym; auto. }
    f_equal. apply IH; [|done..]. by apply (Permutation_cons_inv Hp).
Qed.

Section Ranking.
Context `{Datastore}.

(** X16. The ranking of the similar endpoint is fixed up to the order among
    stories with the same score: any order of its query set that is
    descending by score has the same score at every rank, and is the query
    set itself when no two of its stories have the same score. *)
Theorem ranking_fixed_up_to_ties (db : Database) (sid : pystr)
    (source : Story) (e : list Q) (qs l : list Story) :
  Story_objects_get db sid = Ok source -> embedding source = Some e ->
  StorySimilarView_get_queryset db sid = Ok qs ->
  l ≡ₚ qs -> sorted_desc (similarity_score e) l ->
  Forall2 (fun a b => (similarity_score e a == similarity_score e b)%Q) l qs
  /\ ((forall a b, a ∈ qs -> b ∈ qs ->
                   (similarity_score e a == similarity_score e b)%Q -> a = b) ->
      l = qs).
Proof.
  intros Hsrc Hemb Hqs Hp Hl.
  destruct (similar_queryset db sid source e Hsrc Hemb) as [Heq _].
  rewrite Heq in Hqs. injection Hqs as <-.
  set (qs := order_by_desc (similarity_score e) (candidates db sid)) in *.
  assert (map (fun s => Qred (similarity_score e s)) l
          = map (fun s => Qred (similarity_score e s)) qs) as Hkeys.
  { apply sorted_reduced_unique.
    - by apply Permutation_map.
    - apply reduced_keys_reduced.
    - by apply reduced_keys_sorted.
    - apply reduced_keys_sorted, order_by_desc_sorted. }
  assert (Forall2 (fun a b => (similarity_score e a == similarity_score e b)%Q)
            l qs) as Hsame.
  { clear -Hkeys. revert Hkeys. generalize qs. clear qs.
    induction l as [|a l IH]; intros [|b qs]; simpl; try done.
    intros [= Hab Hrest]. constructor; [|by apply IH].
    by rewrite <- (Qred_correct (similarity_score e a)), Hab, Qred_correct. }
  split; [done|]. intros Hdistinct.
  apply list_eq. intros i.
  apply Forall2_lookup with (i := i) in Hsame.
  destruct (l !! i) as [a|] eqn:Ha, (qs !! i) as [b|] eqn:Hb;
    inversion Hsame as [? ? Hab|]; subst; [|done].
  f_equal. apply list_elem_of_lookup_2 in Ha, Hb.
  apply Hdistinct; [by rewrite <- Hp|done|done].
Qed.

End Ranking.

Lemma ranking_fixed_up_to_ties_witness :
  @StorySimilarView_get_queryset sort_stored archive (str "102")
  = Ok [s101; s103; s105]
  /\ @order_by_desc sort_reversed (@similarity_score sort_stored [1%Q; 0%Q])
       [s105; s103; s101]
     = [s101; s103; s105].
Proof.
  split; [reflexivity|].
  apply (ranking_fixed_up_to_ties (H := sort_stored) archive (str "102") s102
           [1%Q; 0%Q]); try reflexivity.
  - apply (@order_by_desc_sorted sort_reversed).
  - intros a b Ha Hb Heq. apply list_elem_of_In in Ha, Hb.
    simpl in Ha, Hb.
    destruct Ha as [<-|[<-|[<-|[]]]], Hb as [<-|[<-|[<-|[]]]];
      try reflexivity; vm_compute in Heq; discriminate.
Defined.
